(** * DspBlock: the pipeline node of the WebRadio DSP graph

    A shallow embedding of [src/dsp/dspblock.cxx].  Blocks live in a store
    indexed by handles (the C++ code links them with raw pointers), and the
    member functions [connect], [disconnect], [start], [stop], [run],
    [setSampleRate] and [setChannels] become computations in a state-and-error
    monad over that store and a log.  The recursion of [start], [stop] and
    [run] through the consumers is bounded by a fuel argument; a division by
    zero or a dangling pointer ends a computation as undefined.

    The virtual hooks [init], [deinit] and [process] of the concrete stages
    are parameters (class [Contract]).  The log holds the records written by
    [LOG_DEBUG] and [LOG_ERROR] and one record per hook call, so that
    statements can tell whether and in which order hooks ran.

    The embedding follows the build without [DSPBLOCK_PROFILE].  The identity
    strings [_name] and [_type] only feed the log macros and are replaced by
    the handle of the block in the log records.  [DspSource], which adds a
    block size to be read by capture loops, is left out. *)

From Stdlib Require Import NArith Lia.
From stdpp Require Import base option list gmap.

Set Implicit Arguments.
Local Open Scope N_scope.

(** ** Unsigned arithmetic

    The rate, channel and frame quantities are [unsigned int].  They are
    modelled in [N]; multiplication wraps modulo [2^32], and so does the
    conversion of a [size_t] quotient to [unsigned int]. *)

Definition UINT_MODULUS : N := 2 ^ 32.

Definition wrap (x : N) : N := x mod UINT_MODULUS.

Definition umul (a b : N) : N := wrap (a * b).

(** ** Blocks *)

Definition ptr := nat.

Inductive severity := DEBUG | ERROR.

Inductive message :=
  | AlreadyConnected (block : ptr)
  | AddedConsumer (block : ptr)
  | RemovedConsumer (block : ptr)
  | StartingBlock
  | FailedToInitialise
  | NotIntegerRelated
  | DownstreamFailed
  | StoppingBlock
  | PipelineNotStarted
  | ResizingBuffer (outframes channels : N)
  | PipelineFailed
  | SettingSampleRate (rate : N)
  | SettingChannels (channels : N).

Section Types.

(** [sample_t], and whatever a concrete stage keeps besides the members of
    the base class. *)
Variable sample_t : Type.
Variable Stage : Type.

Record DspBlock := mkDspBlock {
  outputSampleRate : N;
  outputChannels : N;
  inputSampleRate : N;
  inputChannels : N;
  decimation : N;
  interpolation : N;
  isRunning : bool;
  consumers : list ptr;
  buffer : list sample_t;
  stage : Stage
}.

Definition set_outputSampleRate (v : N) (b : DspBlock) : DspBlock :=
  mkDspBlock v (outputChannels b) (inputSampleRate b) (inputChannels b)
    (decimation b) (interpolation b) (isRunning b) (consumers b) (buffer b) (stage b).

Definition set_outputChannels (v : N) (b : DspBlock) : DspBlock :=
  mkDspBlock (outputSampleRate b) v (inputSampleRate b) (inputChannels b)
    (decimation b) (interpolation b) (isRunning b) (consumers b) (buffer b) (stage b).

Definition set_inputSampleRate (v : N) (b : DspBlock) : DspBlock :=
  mkDspBlock (outputSampleRate b) (outputChannels b) v (inputChannels b)
    (decimation b) (interpolation b) (isRunning b) (consumers b) (buffer b) (stage b).

Definition set_inputChannels (v : N) (b : DspBlock) : DspBlock :=
  mkDspBlock (outputSampleRate b) (outputChannels b) (inputSampleRate b) v
    (decimation b) (interpolation b) (isRunning b) (consumers b) (buffer b) (stage b).

Definition set_decimation (v : N) (b : DspBlock) : DspBlock :=
  mkDspBlock (outputSampleRate b) (outputChannels b) (inputSampleRate b) (inputChannels b)
    v (interpolation b) (isRunning b) (consumers b) (buffer b) (stage b).

Definition set_interpolation (v : N) (b : DspBlock) : DspBlock :=
  mkDspBlock (outputSampleRate b) (outputChannels b) (inputSampleRate b) (inputChannels b)
    (decimation b) v (isRunning b) (consumers b) (buffer b) (stage b).

Definition set_isRunning (v : bool) (b : DspBlock) : DspBlock :=
  mkDspBlock (outputSampleRate b) (outputChannels b) (inputSampleRate b) (inputChannels b)
    (decimation b) (interpolation b) v (consumers b) (buffer b) (stage b).

Definition set_consumers (v : list ptr) (b : DspBlock) : DspBlock :=
  mkDspBlock (outputSampleRate b) (outputChannels b) (inputSampleRate b) (inputChannels b)
    (decimation b) (interpolation b) (isRunning b) v (buffer b) (stage b).

Definition set_buffer (v : list sample_t) (b : DspBlock) : DspBlock :=
  mkDspBlock (outputSampleRate b) (outputChannels b) (inputSampleRate b) (inputChannels b)
    (decimation b) (interpolation b) (isRunning b) (consumers b) v (stage b).

Definition set_stage (v : Stage) (b : DspBlock) : DspBlock :=
  mkDspBlock (outputSampleRate b) (outputChannels b) (inputSampleRate b) (inputChannels b)
    (decimation b) (interpolation b) (isRunning b) (consumers b) (buffer b) v.

(** ** What the hooks return *)

Record init_result := mkInit {
  init_ok : bool;
  init_rate : N;
  init_channels : N;
  init_stage : Stage
}.

Record process_result := mkProcess {
  process_ok : bool;
  process_out : list sample_t;
  process_stage : Stage
}.

(** ** Store, log and the monad of member functions *)

Inductive event :=
  | Log (sev : severity) (self : ptr) (msg : message)
  | CallInit (self : ptr)
  | CallDeinit (self : ptr)
  | CallProcess (self : ptr) (input : list sample_t).

Record world := mkWorld {
  heap : gmap ptr DspBlock;
  trace : list event
}.

(** [Undefined] is undefined behaviour of the C++ program (a division by
    zero, a dangling block pointer); [Starved] is the recursion bound of the
    embedding running out. *)
Inductive outcome (A : Type) :=
  | Done (a : A) (w : world)
  | Undefined
  | Starved.

(** A [const vector<sample_t> &]: either a vector of the caller or the
    [buffer] member of a block. *)
Inductive bufref :=
  | Extern (v : list sample_t)
  | BufferOf (p : ptr).

End Types.

Unset Implicit Arguments.

Arguments Undefined {sample_t Stage A}.
Arguments Starved {sample_t Stage A}.
Arguments BufferOf {sample_t} p.
Arguments Log {sample_t} sev self msg.
Arguments CallInit {sample_t} self.
Arguments CallDeinit {sample_t} self.
Arguments outputSampleRate {sample_t Stage} d.
Arguments outputChannels {sample_t Stage} d.
Arguments inputSampleRate {sample_t Stage} d.
Arguments inputChannels {sample_t Stage} d.
Arguments decimation {sample_t Stage} d.
Arguments interpolation {sample_t Stage} d.
Arguments isRunning {sample_t Stage} d.
Arguments consumers {sample_t Stage} d.
Arguments buffer {sample_t Stage} d.
Arguments stage {sample_t Stage} d.

(** The header [dspblock.h], which declares the virtual hooks, [sample_t] and
    the default constants, is not among the sources; what the base class
    takes from it is a parameter of the development.  The class collects the
    defaults, the value a [vector::resize] fills new slots with, and the three
    hooks, each a function of the block it is called on.  [init] answers
    whether it accepts the configuration and may set the output rate and
    channel count; [process] answers whether it succeeded and leaves the
    output block; all three may update the private state of the stage. *)
Class Contract (sample_t Stage : Type) := {
  DEFAULT_SAMPLE_RATE : N;
  DEFAULT_CHANNELS : N;
  sample_zero : sample_t;
  init_hook : ptr → DspBlock sample_t Stage → init_result Stage;
  deinit_hook : ptr → DspBlock sample_t Stage → Stage;
  process_hook :
    ptr → DspBlock sample_t Stage → list sample_t → list sample_t →
    process_result sample_t Stage
}.

Section Pipeline.

Context {sample_t Stage : Type} `{!Contract sample_t Stage}.

Local Abbreviation DspBlock := (DspBlock sample_t Stage).
Local Abbreviation world := (world sample_t Stage).
Local Abbreviation outcome := (outcome sample_t Stage).
Local Abbreviation bufref := (bufref sample_t).
Local Abbreviation event := (event sample_t).

Definition M (A : Type) : Type := world → outcome A.

#[global] Instance M_ret : MRet M := λ A a w, Done a w.

#[global] Instance M_bind : MBind M := λ A B k m w,
  match m w with
  | Done a w' => k a w'
  | Undefined => Undefined
  | Starved => Starved
  end.

Definition undefined {A} : M A := λ _, Undefined.
Definition starved {A} : M A := λ _, Starved.

(** Dereference of a block pointer. *)
Definition deref (p : ptr) : M DspBlock := λ w,
  match heap w !! p with
  | Some b => Done b w
  | None => Undefined
  end.

Definition store (p : ptr) (b : DspBlock) : M unit := λ w,
  Done tt (mkWorld (<[p:=b]> (heap w)) (trace w)).

Definition update (p : ptr) (f : DspBlock → DspBlock) : M unit :=
  b ← deref p; store p (f b).

Definition emit (e : event) : M unit := λ w,
  Done tt (mkWorld (heap w) (trace w ++ [e])).

Definition LOG_DEBUG (self : ptr) (msg : message) : M unit := emit (Log DEBUG self msg).
Definition LOG_ERROR (self : ptr) (msg : message) : M unit := emit (Log ERROR self msg).

(** Unsigned division; dividing by zero is undefined. *)
Definition udiv (a b : N) : M N :=
  if decide (b = 0) then undefined else mret (a / b).

Definition read (r : bufref) : M (list sample_t) :=
  match r with
  | Extern v => mret v
  | BufferOf p => b ← deref p; mret (buffer b)
  end.

(** Dispatch of the virtual hooks on the block at [p]. *)
Definition init (p : ptr) : M bool :=
  emit (CallInit p);;
  b ← deref p;
  let r := init_hook p b in
  update p (set_outputSampleRate (init_rate r));;
  update p (set_outputChannels (init_channels r));;
  update p (set_stage (init_stage r));;
  mret (init_ok r).

Definition deinit (p : ptr) : M unit :=
  emit (CallDeinit p);;
  b ← deref p;
  update p (set_stage (deinit_hook p b)).

Definition process (p : ptr) (inBuffer : bufref) : M bool :=
  input ← read inBuffer;
  emit (CallProcess p input);;
  b ← deref p;
  let r := process_hook p b input (buffer b) in
  update p (set_buffer (process_out r));;
  update p (set_stage (process_stage r));;
  mret (process_ok r).

(** ** Member functions *)

(** The constructor [DspBlock::DspBlock]. *)
Definition DspBlock_new (st : Stage) : DspBlock :=
  {| outputSampleRate := DEFAULT_SAMPLE_RATE;
     outputChannels := DEFAULT_CHANNELS;
     inputSampleRate := DEFAULT_SAMPLE_RATE;
     inputChannels := DEFAULT_CHANNELS;
     decimation := 1;
     interpolation := 1;
     isRunning := false;
     consumers := [];
     buffer := [];
     stage := st |}.

Definition setSampleRate (p : ptr) (rate : N) : M unit :=
  b ← deref p;
  if isRunning b then mret tt
  else
    LOG_DEBUG p (SettingSampleRate rate);;
    update p (set_inputSampleRate rate).

Definition setChannels (p : ptr) (channels : N) : M unit :=
  b ← deref p;
  if isRunning b then mret tt
  else
    LOG_DEBUG p (SettingChannels channels);;
    update p (set_inputChannels channels).

(** The iteration over [consumers] from [begin()] to [end()]. *)
Fixpoint for_each (cs : list ptr) (body : ptr → M unit) : M unit :=
  match cs with
  | [] => mret tt
  | c :: cs' => body c;; for_each cs' body
  end.

(** The part of [stop] after the downstream loop. *)
Definition stop_self (p : ptr) : M unit :=
  b ← deref p;
  (if isRunning b then
     LOG_DEBUG p StoppingBlock;;
     update p (set_isRunning false);;
     deinit p
   else mret tt);;
  update p (set_buffer []).

Fixpoint stop (fuel : nat) (p : ptr) : M unit :=
  match fuel with
  | O => starved
  | S n =>
      b ← deref p;
      for_each (consumers b) (stop n);;
      stop_self p
  end.

(** The part of [start] before the downstream loop: defaults, [init], the
    decimation/interpolation rates and their validation. *)
Definition start_self (p : ptr) : M bool :=
  update p (λ b, set_outputSampleRate (inputSampleRate b) b);;
  update p (λ b, set_outputChannels (inputChannels b) b);;
  LOG_DEBUG p StartingBlock;;
  ok ← init p;
  if negb ok then
    LOG_ERROR p FailedToInitialise;;
    mret false
  else
    b ← deref p;
    (if decide (outputSampleRate b ≤ inputSampleRate b) then
       d ← udiv (inputSampleRate b) (outputSampleRate b);
       update p (set_decimation d);;
       update p (set_interpolation 1)
     else
       update p (set_decimation 1);;
       i ← udiv (outputSampleRate b) (inputSampleRate b);
       update p (set_interpolation i));;
    b ← deref p;
    q ← udiv (umul (inputSampleRate b) (interpolation b)) (decimation b);
    if decide (q ≠ outputSampleRate b) then
      LOG_ERROR p NotIntegerRelated;;
      deinit p;;
      mret false
    else
      update p (set_isRunning true);;
      mret true.

(** The downstream loop of [start]; [start_rec] is [start] on a consumer and
    [stop_this] is [this->stop()]. *)
Fixpoint start_downstream (start_rec : ptr → M bool) (stop_this : M unit)
    (p : ptr) (cs : list ptr) : M bool :=
  match cs with
  | [] => mret true
  | c :: cs' =>
      b ← deref p;
      setSampleRate c (outputSampleRate b);;
      b ← deref p;
      setChannels c (outputChannels b);;
      ok ← start_rec c;
      if negb ok then
        LOG_ERROR p DownstreamFailed;;
        stop_this;;
        mret false
      else start_downstream start_rec stop_this p cs'
  end.

Fixpoint start (fuel : nat) (p : ptr) : M bool :=
  match fuel with
  | O => starved
  | S n =>
      ok ← start_self p;
      if negb ok then mret false
      else
        b ← deref p;
        start_downstream (start n) (stop (S n) p) p (consumers b)
  end.

(** The part of [run] before the downstream loop: the running check, the
    resize of the output buffer and [process]. *)
Definition run_self (p : ptr) (inBuffer : bufref) : M bool :=
  b ← deref p;
  if negb (isRunning b) then
    LOG_ERROR p PipelineNotStarted;;
    mret false
  else
    input ← read inBuffer;
    q ← udiv (N.of_nat (length input)) (inputChannels b);
    let inframes := wrap q in
    outframes ← udiv (umul inframes (interpolation b)) (decimation b);
    (if decide (N.of_nat (length (buffer b)) ≠ umul outframes (outputChannels b)) then
       LOG_DEBUG p (ResizingBuffer outframes (outputChannels b));;
       update p (λ b', set_buffer
         (resize (N.to_nat (umul outframes (outputChannels b))) sample_zero (buffer b')) b')
     else mret tt);;
    ok ← process p inBuffer;
    if negb ok then
      LOG_ERROR p PipelineFailed;;
      mret false
    else mret true.

(** The downstream loop of [run]: every consumer reads this block's buffer. *)
Fixpoint run_downstream (run_rec : ptr → bufref → M bool) (p : ptr)
    (cs : list ptr) : M bool :=
  match cs with
  | [] => mret true
  | c :: cs' =>
      ok ← run_rec c (BufferOf p);
      if negb ok then mret false
      else run_downstream run_rec p cs'
  end.

Fixpoint run (fuel : nat) (p : ptr) (inBuffer : bufref) : M bool :=
  match fuel with
  | O => starved
  | S n =>
      ok ← run_self p inBuffer;
      if negb ok then mret false
      else
        b ← deref p;
        run_downstream (run n) p (consumers b)
  end.

Definition connect (fuel : nat) (p block : ptr) : M unit :=
  b ← deref p;
  (if isRunning b then _ ← start fuel block; mret tt else mret tt);;
  b ← deref p;
  if decide (block ∈ consumers b) then
    LOG_ERROR p (AlreadyConnected block)
  else
    update p (λ b', set_consumers (consumers b' ++ [block]) b');;
    LOG_DEBUG p (AddedConsumer block).

Definition disconnect (fuel : nat) (p block : ptr) : M unit :=
  b ← deref p;
  (if isRunning b then stop fuel block else mret tt);;
  update p (λ b', set_consumers (filter (λ c, c ≠ block) (consumers b')) b');;
  LOG_DEBUG p (RemovedConsumer block).

(** The destructor [DspBlock::~DspBlock]; the block then leaves the store. *)
Definition free (p : ptr) : M unit := λ w,
  Done tt (mkWorld (delete p (heap w)) (trace w)).

Definition DspBlock_delete (fuel : nat) (p : ptr) : M unit :=
  b ← deref p;
  (if isRunning b then stop fuel p else mret tt);;
  free p.

(** ** Drivers

    What the code outside the base class can do to a pipeline. *)

Inductive call :=
  | Create (p : ptr) (st : Stage)
  | Destroy (p : ptr)
  | Connect (p block : ptr)
  | Disconnect (p block : ptr)
  | Start (p : ptr)
  | Stop (p : ptr)
  | Run (p : ptr) (input : list sample_t)
  | SetSampleRate (p : ptr) (rate : N)
  | SetChannels (p : ptr) (channels : N).

(** A new block gets a handle that is not in use. *)
Definition create (p : ptr) (st : Stage) : M unit := λ w,
  match heap w !! p with
  | Some _ => Undefined
  | None => store p (DspBlock_new st) w
  end.

Definition perform (fuel : nat) (c : call) : M unit :=
  match c with
  | Create p st => create p st
  | Destroy p => DspBlock_delete fuel p
  | Connect p block => connect fuel p block
  | Disconnect p block => disconnect fuel p block
  | Start p => _ ← start fuel p; mret tt
  | Stop p => stop fuel p
  | Run p input => _ ← run fuel p (Extern input); mret tt
  | SetSampleRate p rate => setSampleRate p rate
  | SetChannels p channels => setChannels p channels
  end.

Fixpoint perform_all (fuel : nat) (cs : list call) : M unit :=
  match cs with
  | [] => mret tt
  | c :: cs' => perform fuel c;; perform_all fuel cs'
  end.

(** ** Propagation of a buffer to the consumers

    [fed n p buf cs w r w'] describes the downstream loop of [run] on block
    [p] over the consumers [cs] from world [w]: each consumer in turn is run
    on the buffer of [p], which holds [buf]; the loop ends with success after
    the last consumer, or with failure in the world the first failing
    consumer left. *)
Inductive fed (n : nat) (p : ptr) (buf : list sample_t) :
    list ptr → world → bool → world → Prop :=
  | fed_done w : fed n p buf [] w true w
  | fed_failed c cs w w' :
      buffer <$> heap w !! p = Some buf →
      run n c (BufferOf p) w = Done false w' →
      fed n p buf (c :: cs) w false w'
  | fed_next c cs w w' r w'' :
      buffer <$> heap w !! p = Some buf →
      run n c (BufferOf p) w = Done true w' →
      fed n p buf cs w' r w'' →
      fed n p buf (c :: cs) w r w''.

(** ** The local part of [start] as functions on one block *)

(** The defaults [start] seeds the outputs with. *)
Definition seeded (b : DspBlock) : DspBlock :=
  set_outputChannels (inputChannels b) (set_outputSampleRate (inputSampleRate b) b).

(** The block after its [init] hook ran on the seeded block. *)
Definition initialised (p : ptr) (b : DspBlock) : DspBlock :=
  let r := init_hook p (seeded b) in
  set_stage (init_stage r)
    (set_outputChannels (init_channels r)
      (set_outputSampleRate (init_rate r) (seeded b))).

(** The decimation and interpolation rates [start] derives. *)
Definition rated (b : DspBlock) : DspBlock :=
  if decide (outputSampleRate b ≤ inputSampleRate b) then
    set_interpolation 1 (set_decimation (inputSampleRate b / outputSampleRate b) b)
  else
    set_interpolation (outputSampleRate b / inputSampleRate b) (set_decimation 1 b).

(** Block [b'] holds the rates [start] derives from [input] and [output]. *)
Definition carries_rates (input output : N) (b' : DspBlock) : Prop :=
  inputSampleRate b' = input ∧ outputSampleRate b' = output
  ∧ decimation b' = (if decide (output ≤ input) then input / output else 1)
  ∧ interpolation b' = (if decide (output ≤ input) then 1 else output / input).

(** The value [start] compares with the output rate. *)
Definition reconstructed (b : DspBlock) : N :=
  umul (inputSampleRate b) (interpolation b) / decimation b.

(** Adding records to the log, and replacing one block. *)
Definition logged (w : world) (es : list event) : world :=
  mkWorld (heap w) (trace w ++ es).

Definition with_block (p : ptr) (b : DspBlock) (w : world) : world :=
  mkWorld (<[p:=b]> (heap w)) (trace w).

(** ** The frame arithmetic of [run] *)

Definition inframes (b : DspBlock) (input : list sample_t) : N :=
  wrap (N.of_nat (length input) / inputChannels b).

Definition outframes (b : DspBlock) (input : list sample_t) : N :=
  umul (inframes b input) (interpolation b) / decimation b.

(** The number of samples [run] wants the output buffer to hold. *)
Definition wanted (b : DspBlock) (input : list sample_t) : N :=
  umul (outframes b input) (outputChannels b).

(** The world after the resize step of [run]. *)
Definition resized (p : ptr) (b : DspBlock) (input : list sample_t) (w : world) : world :=
  if decide (N.of_nat (length (buffer b)) ≠ wanted b input) then
    logged
      (with_block p
        (set_buffer (resize (N.to_nat (wanted b input)) sample_zero (buffer b)) b) w)
      [Log DEBUG p (ResizingBuffer (outframes b input) (outputChannels b))]
  else w.

(** ** Graph predicates used by the statements *)

(** The fields that only [start] and the setters write. *)
Definition config (b : DspBlock) : N * N * N * N * N * N * list ptr :=
  (inputSampleRate b, inputChannels b, outputSampleRate b, outputChannels b,
   decimation b, interpolation b, consumers b).

(** Every consumer is a live block of strictly smaller rank: the graph is
    acyclic and free of dangling pointers. *)
Definition ranked (rank : ptr → nat) (h : gmap ptr DspBlock) : Prop :=
  map_Forall (λ p b,
    Forall (λ c, is_Some (h !! c) ∧ (rank c < rank p)%nat) (consumers b)) h.

(** [q] is [p] or downstream of [p]. *)
Inductive reach (h : gmap ptr DspBlock) : ptr → ptr → Prop :=
  | reach_here p : reach h p p
  | reach_step p b c q :
      h !! p = Some b → c ∈ consumers b → reach h c q → reach h p q.

Definition running (h : gmap ptr DspBlock) (q : ptr) : bool :=
  match h !! q with
  | Some b => isRunning b
  | None => false
  end.

(** Block [q] is live, stopped and holds no buffer. *)
Definition released (h : gmap ptr DspBlock) (q : ptr) : Prop :=
  ∃ b, h !! q = Some b ∧ isRunning b = false ∧ buffer b = [].

(** Pointwise comparison of two stores by a relation on blocks. *)
Definition evolves (keeps : relation DspBlock) (h h' : gmap ptr DspBlock) : Prop :=
  ∀ x, option_Forall2 keeps (h !! x) (h' !! x).

(** The blocks selected by [P] are untouched. *)
Definition frame (P : ptr → Prop) (h h' : gmap ptr DspBlock) : Prop :=
  ∀ x, P x → h' !! x = h !! x.

(** What [stop] may do to a block, what [run] may and what [start] may. *)
Definition keeps_stop (b b' : DspBlock) : Prop :=
  config b' = config b
  ∧ (isRunning b = false → isRunning b' = false)
  ∧ (buffer b = [] → buffer b' = []).

Definition keeps_run (b b' : DspBlock) : Prop :=
  config b' = config b ∧ isRunning b' = isRunning b.

Definition keeps_start (b b' : DspBlock) : Prop :=
  consumers b' = consumers b.

(** What [start] may do to the block it is called on. *)
Definition keeps_inputs (b b' : DspBlock) : Prop :=
  consumers b' = consumers b
  ∧ inputSampleRate b' = inputSampleRate b
  ∧ inputChannels b' = inputChannels b.

(** No consumer list of the store holds a block twice. *)
Definition duplicate_free (h : gmap ptr DspBlock) : Prop :=
  ∀ x b, h !! x = Some b → NoDup (consumers b).

Definition nothing : ptr → Prop := λ _, False.

(** A member function relates the stores before and after: every block
    evolves by [keeps], and on a ranked graph the blocks in [P] are framed. *)
Definition effect (rank : ptr → nat) (keeps : relation DspBlock)
    (P : ptr → Prop) (w w' : world) : Prop :=
  evolves keeps (heap w) (heap w')
  ∧ (ranked rank (heap w) → frame P (heap w) (heap w')).

Definition preserves {A} (R : relation world) (m : M A) : Prop :=
  ∀ w a w', m w = Done a w' → R w w'.

(** The blocks a call on [p] leaves alone, and those its downstream loop
    leaves alone. *)
Definition outside (rank : ptr → nat) (p : ptr) (x : ptr) : Prop :=
  x ≠ p ∧ (rank p ≤ rank x)%nat.

Definition above (rank : ptr → nat) (p : ptr) (x : ptr) : Prop :=
  (rank p ≤ rank x)%nat.

(** ** Predicates of the further properties *)

(** The blocks whose [deinit] hook a log records, and those whose [process]
    hook it records, in call order. *)
Definition deinits (es : list event) : list ptr :=
  omap (λ e, match e with CallDeinit q => Some q | _ => None end) es.

Definition processed (es : list event) : list ptr :=
  omap (λ e, match e with CallProcess q _ => Some q | _ => None end) es.

(** The block an event is about. *)
Definition subject (e : event) : ptr :=
  match e with
  | Log _ self _ => self
  | CallInit self => self
  | CallDeinit self => self
  | CallProcess self _ => self
  end.

(** A call works downstream of [roots] only: no consumer list changes, block
    [x] is left alone unless it is downstream of one of [roots], and every
    record added to the log is about a block downstream of one of them. *)
Definition aside (roots : list ptr) (x : ptr) (w w' : world) : Prop :=
  evolves keeps_start (heap w) (heap w')
  ∧ ((∀ c, c ∈ roots → ¬ reach (heap w) c x) → heap w' !! x = heap w !! x)
  ∧ ∃ es, trace w' = trace w ++ es
      ∧ ∀ e, e ∈ es → ∃ c, c ∈ roots ∧ reach (heap w) c (subject e).

(** Every block of the store satisfies [inv]; two worlds are related by
    [keeping inv] when the second inherits this from the first. *)
Definition holds (inv : DspBlock → Prop) (w : world) : Prop :=
  ∀ p b, heap w !! p = Some b → inv b.

Definition keeping (inv : DspBlock → Prop) (w w' : world) : Prop :=
  holds inv w → holds inv w'.

(** A stopped block holds no buffer. *)
Definition idle_empty (b : DspBlock) : Prop :=
  isRunning b = false → buffer b = [].

(** Neither rate factor is zero and one of them is 1. *)
Definition rates_valid (b : DspBlock) : Prop :=
  decimation b ≠ 0 ∧ interpolation b ≠ 0
  ∧ (decimation b = 1 ∨ interpolation b = 1).

Definition sound (b : DspBlock) : Prop := idle_empty b ∧ rates_valid b.

(** A block as a successful [start] leaves it: running, with rates that are
    not zero and pass the reconstruction check, and with the factors derived
    from them. *)
Definition started (b : DspBlock) : Prop :=
  isRunning b = true
  ∧ inputSampleRate b ≠ 0 ∧ outputSampleRate b ≠ 0
  ∧ rated b = b
  ∧ reconstructed b = outputSampleRate b.

(** What a successful [start] may do to a block: a block that was started
    stays so, and a block that was running stays running on the input
    configuration it had. *)
Definition keeps_started (b b' : DspBlock) : Prop :=
  consumers b' = consumers b
  ∧ (started b → started b')
  ∧ (isRunning b = true →
     isRunning b' = true
     ∧ inputSampleRate b' = inputSampleRate b
     ∧ inputChannels b' = inputChannels b).

(** What [stop] does between two worlds: running flags are only cleared, and
    the log grows by one [StoppingBlock] record and one [deinit] call for
    each block whose flag was cleared. *)
Definition halts (w w' : world) : Prop :=
  evolves keeps_stop (heap w) (heap w')
  ∧ ∃ es, trace w' = trace w ++ es
      ∧ NoDup (deinits es)
      ∧ (∀ q, q ∈ deinits es ↔
           running (heap w) q = true ∧ running (heap w') q = false)
      ∧ Forall (λ e, ∃ q, e = Log DEBUG q StoppingBlock ∨ e = CallDeinit q) es.

(** The block after the resize step of [run]. *)
Definition sized (b : DspBlock) (input : list sample_t) : DspBlock :=
  if decide (N.of_nat (length (buffer b)) ≠ wanted b input) then
    set_buffer (resize (N.to_nat (wanted b input)) sample_zero (buffer b)) b
  else b.

(** The records a successful [start] writes: debug records and [init]
    calls. *)
Definition quiet (e : event) : Prop :=
  match e with
  | Log DEBUG _ _ | CallInit _ => True
  | _ => False
  end.

(** What a successful [start] does between two worlds. *)
Definition boots (w w' : world) : Prop :=
  evolves keeps_started (heap w) (heap w')
  ∧ ∃ es, trace w' = trace w ++ es ∧ Forall quiet es.

(** The order of the [deinit] calls of [stop] between two worlds: each call
    is on a block that was running, when a block has been released none of
    its consumers is running any more, and no [deinit] of a consumer follows
    the [deinit] of its producer. *)
Definition downstream_first (w w' : world) : Prop :=
  evolves keeps_stop (heap w) (heap w')
  ∧ ∃ es, trace w' = trace w ++ es
      ∧ (∀ q, q ∈ deinits es → running (heap w) q = true)
      ∧ (∀ a ba c, a ∈ deinits es → heap w !! a = Some ba → c ∈ consumers ba →
           running (heap w') c = false)
      ∧ (∀ es1 a es2 ba c,
           es = es1 ++ CallDeinit a :: es2 →
           heap w !! a = Some ba → c ∈ consumers ba → c ∉ deinits es2).

(** Consumer [c] runs on the output configuration of its producer [b1]. *)
Definition configured_by (b1 : DspBlock) (c : ptr) (u : world) : Prop :=
  ∃ bc, heap u !! c = Some bc ∧ isRunning bc = true
    ∧ inputSampleRate bc = outputSampleRate b1
    ∧ inputChannels bc = outputChannels b1.

(** Block [c] is live and stopped. *)
Definition idle (c : ptr) (u : world) : Prop :=
  ∃ bc, heap u !! c = Some bc ∧ isRunning bc = false.

(** Event [e] is a [deinit] or a [process] call on block [q]. *)
Definition uses (e : event) (q : ptr) : Prop :=
  e = CallDeinit q ∨ ∃ input, e = CallProcess q input.

(** Every running block has had its [init] called, and in the log every
    [deinit] and every [process] call on a block comes after an [init] call
    on it. *)
Definition init_first (w : world) : Prop :=
  (∀ q b, heap w !! q = Some b → isRunning b = true → CallInit q ∈ trace w)
  ∧ (∀ es1 e es2 q, trace w = es1 ++ e :: es2 → uses e q → CallInit q ∈ es1).

Definition keeping_init_first (w w' : world) : Prop :=
  init_first w → init_first w'.

End Pipeline.

Arguments M : clear implicits.

#[global] Instance ranked_dec {sample_t Stage : Type} rank
    (h : gmap ptr (DspBlock sample_t Stage)) : Decision (ranked rank h).
Proof. unfold ranked. apply _. Defined.

(** * A scripted stage for concrete pipelines

    Samples are numbers.  A stage carries a script for its [init] calls, each
    step rejecting the configuration or accepting it with optional output
    rate and channel overrides; once the script is used up [init] accepts
    without overrides.  [process] copies the input into the output block and
    succeeds unless the stage is marked broken. *)

Inductive init_step :=
  | Reject
  | Accept (rate channels : option N).

Record script := mkScript {
  plan : list init_step;
  broken : bool
}.

Definition scripted_init (p : ptr) (b : DspBlock N script) : init_result script :=
  match plan (stage b) with
  | [] => mkInit true (outputSampleRate b) (outputChannels b) (stage b)
  | Reject :: rest =>
      mkInit false (outputSampleRate b) (outputChannels b)
        (mkScript rest (broken (stage b)))
  | Accept rate channels :: rest =>
      mkInit true (default (outputSampleRate b) rate)
        (default (outputChannels b) channels)
        (mkScript rest (broken (stage b)))
  end.

Definition scripted_process (p : ptr) (b : DspBlock N script)
    (input output : list N) : process_result N script :=
  mkProcess (negb (broken (stage b))) (resize (length output) 0 input) (stage b).

#[global] Instance scripted : Contract N script := {|
  DEFAULT_SAMPLE_RATE := 48000;
  DEFAULT_CHANNELS := 1;
  sample_zero := 0;
  init_hook := scripted_init;
  deinit_hook := λ _ b, stage b;
  process_hook := scripted_process
|}.

(** A block as constructed (48000 Hz, one channel), then wired to [cs]. *)
Definition block (steps : list init_step) (cs : list ptr) : DspBlock N script :=
  set_consumers cs (DspBlock_new (mkScript steps false)).

Definition pipeline (blocks : list (ptr * DspBlock N script)) : world N script :=
  mkWorld (list_to_map blocks) [].

(** Handles are numbered from the source on; the rank counts down. *)
Definition chain_rank (p : ptr) : nat := 2 - p.

(** Source, stage, sink. *)
Definition chain3 : world N script :=
  pipeline [(0%nat, block [] [1%nat]); (1%nat, block [] [2%nat]); (2%nat, block [] [])].

(** The result of a call known to return. *)
Definition final {A} (o : outcome N script A) : world N script :=
  match o with
  | Done _ w => w
  | _ => mkWorld ∅ []
  end.

(** The chain after a successful [start] of its source. *)
Definition chain3_started : world N script := Eval vm_compute in final (start 3 0%nat chain3).

(** The same chain with a stage whose [init] rejects its configuration. *)
Definition failing3 : world N script :=
  pipeline [(0%nat, block [] [1%nat]); (1%nat, block [Reject] [2%nat]);
            (2%nat, block [] [])].

Definition failing3_self : world N script :=
  Eval vm_compute in final (start_self 0%nat failing3).

Definition failing3_final : world N script :=
  Eval vm_compute in final (start 3 0%nat failing3).

(** A single block that decimates 48000 Hz to 8000 Hz, and one that
    interpolates 8000 Hz to 48000 Hz. *)
Definition decimator : world N script :=
  pipeline [(0%nat, block [Accept (Some 8000) None] [])].

Definition decimator_started : world N script :=
  Eval vm_compute in final (start 1 0%nat decimator).

Definition interpolator : world N script :=
  pipeline [(0%nat, set_inputSampleRate 8000 (block [Accept (Some 48000) None] []))].

(** A block fed at 44100 Hz whose stage produces 48000 Hz. *)
Definition mismatched : world N script :=
  pipeline [(0%nat, set_inputSampleRate 44100 (block [Accept (Some 48000) None] []))].

(** A block fed at 44100 Hz whose stage passes the rate through at its first
    [init] and asks for 48000 Hz at its second. *)
Definition retuned : world N script :=
  pipeline [(0%nat, set_inputSampleRate 44100
                      (block [Accept None None; Accept (Some 48000) None] []))].

Definition retuned_started : world N script :=
  Eval vm_compute in final (start 1 0%nat retuned).

Definition retuned_restarted : world N script :=
  Eval vm_compute in final (start 1 0%nat retuned_started).

(** A source with two sinks, the first of them broken. *)
Definition fanout : world N script :=
  pipeline [(0%nat, block [] [1%nat; 2%nat]);
            (1%nat, set_stage (mkScript [] true) (block [] []));
            (2%nat, block [] [])].

Definition fanout_started : world N script :=
  Eval vm_compute in final (start 2 0%nat fanout).

Definition fanout_processed : world N script :=
  Eval vm_compute in final (run_self 0%nat (Extern [7; 8; 9]) fanout_started).

Definition fanout_ran : world N script :=
  Eval vm_compute in final (run 2 0%nat (Extern [7; 8; 9]) fanout_started).







(** The started chain after one block of four samples. *)
Definition chain3_ran : world N script :=
  Eval vm_compute in final (run 3 0%nat (Extern [1; 2; 3; 4]) chain3_started).

(** And after a second block of four samples. *)
Definition chain3_ran_again : world N script :=
  Eval vm_compute in final (run 3 0%nat (Extern [5; 6; 7; 8]) chain3_ran).

(** A running decimator and a stopped block that is not connected yet. *)
Definition loose : world N script :=
  pipeline [(0%nat, block [Accept (Some 8000) None] []); (1%nat, block [] [])].

Definition loose_started : world N script :=
  Eval vm_compute in final (start 1 0%nat loose).

Definition loose_connected : world N script :=
  Eval vm_compute in final (connect 1 0%nat 1%nat loose_started).

(** A chain whose sink accepts its first [init] and rejects the second. *)
Definition relay : world N script :=
  pipeline [(0%nat, block [] [1%nat]); (1%nat, block [] [2%nat]);
            (2%nat, block [Accept None None; Reject] [])].

Definition relay_started : world N script :=
  Eval vm_compute in final (start 3 0%nat relay).

Definition relay_reconnected : world N script :=
  Eval vm_compute in final (connect 3 0%nat 1%nat relay_started).

(** A block fed at 48001 Hz whose stage produces 8000 Hz. *)
Definition inexact : world N script :=
  pipeline [(0%nat, set_inputSampleRate 48001 (block [Accept (Some 8000) None] []))].

(** A stopped source that already feeds block 1. *)
Definition wired : world N script :=
  pipeline [(0%nat, block [] [1%nat]); (1%nat, block [] [])].

(** The chain with its last two blocks stopped again, with the same two
    blocks started on their own, and after a block run through these two. *)
Definition chain3_tail_stopped : world N script :=
  Eval vm_compute in final (stop 2 1%nat chain3_started).

Definition chain3_tail_started : world N script :=
  Eval vm_compute in final (start 2 1%nat chain3).

Definition chain3_tail_ran : world N script :=
  Eval vm_compute in final (run 2 1%nat (Extern [1; 2]) chain3_started).

(** The started chain stopped from its source, and with its stage
    disconnected from the source. *)
Definition chain3_stopped : world N script :=
  Eval vm_compute in final (stop 3 0%nat chain3_started).

Definition chain3_cut : world N script :=
  Eval vm_compute in final (disconnect 3 0%nat 1%nat chain3_started).


(** Three blocks that are not connected. *)
Definition parts : world N script :=
  pipeline [(0%nat, block [] []); (1%nat, block [] []); (2%nat, block [] [])].

(** A source that produces 8000 Hz in stereo, and its sink. *)
Definition tuned : world N script :=
  pipeline [(0%nat, block [Accept (Some 8000) (Some 2)] [1%nat]);
            (1%nat, block [] [])].

Definition tuned_started : world N script :=
  Eval vm_compute in final (start 2 0%nat tuned).

(** A session of the drivers: two blocks are created, connected and started,
    and one block of samples is run through them; then the source is
    stopped. *)
Definition session : list (call (sample_t:=N) (Stage:=script)) :=
  [Create 0%nat (mkScript [] false); Create 1%nat (mkScript [] false);
   Connect 0%nat 1%nat; Start 0%nat; Run 0%nat [1; 2; 3; 4]].

Definition session_world : world N script :=
  Eval vm_compute in final (perform_all 2 session (mkWorld ∅ [])).

Definition session_stopped : world N script :=
  Eval vm_compute in final (perform_all 2 (session ++ [Stop 0%nat]) (mkWorld ∅ [])).

(** A source that passes 48000 Hz through at its first [init] and produces
    8000 Hz at its second, with a sink; started, and started again. *)
Definition shifting : world N script :=
  pipeline [(0%nat, block [Accept None None; Accept (Some 8000) None] [1%nat]);
            (1%nat, block [] [])].

Definition shifting_started : world N script :=
  Eval vm_compute in final (start 2 0%nat shifting).

Definition shifting_restarted : world N script :=
  Eval vm_compute in final (start 2 0%nat shifting_started).

(** * Properties *)

Section Facts.

Context {sample_t Stage : Type} `{!Contract sample_t Stage}.

Local Abbreviation M := (M sample_t Stage).
Local Abbreviation world := (world sample_t Stage).
Local Abbreviation DspBlock := (DspBlock sample_t Stage).
Local Abbreviation effect := (effect (sample_t:=sample_t) (Stage:=Stage)).
Local Abbreviation setSampleRate := (setSampleRate (sample_t:=sample_t) (Stage:=Stage)).
Local Abbreviation setChannels := (setChannels (sample_t:=sample_t) (Stage:=Stage)).

(** ** Inversion of monadic computations *)

Lemma bind_Done {A B} (m : M A) (k : A → M B) w b w'' :
  (m ≫= k) w = Done b w'' ↔ ∃ a w', m w = Done a w' ∧ k a w' = Done b w''.
Proof.
  unfold mbind, M_bind. split.
  - destruct (m w) as [a w'| |]; try discriminate. eauto.
  - intros (a & w' & -> & Hk). exact Hk.
Qed.

Lemma ret_Done {A} (a b : A) (w w' : world) :
  (mret a : M A) w = Done b w' ↔ a = b ∧ w = w'.
Proof. unfold mret, M_ret. split; [intros [= ? ?] | intros [? ?]]; by subst. Qed.

Lemma deref_Done p (w : world) b w' :
  deref p w = Done b w' ↔ heap w !! p = Some b ∧ w' = w.
Proof.
  unfold deref. destruct (heap w !! p) as [b0|].
  - split; [intros [= ? ?] | intros [[= ?] ?]]; by subst.
  - split; [done | intros [? _]; done].
Qed.

Lemma emit_Done e (w : world) u w' :
  emit e w = Done u w' ↔ w' = logged w [e].
Proof. unfold emit. destruct u. split; [intros [= <-] | intros ->]; done. Qed.

Lemma update_Done p f (w : world) u w' :
  update p f w = Done u w' ↔
  ∃ b, heap w !! p = Some b ∧ w' = with_block p (f b) w.
Proof.
  unfold update. rewrite bind_Done. destruct u. split.
  - intros (b & w1 & [Hb ->]%deref_Done & [= <-]). eauto.
  - intros (b & Hb & ->). exists b, w. by rewrite deref_Done.
Qed.

Lemma udiv_Done a b (w : world) q w' :
  udiv a b w = Done q w' ↔ b ≠ 0 ∧ q = a / b ∧ w' = w.
Proof.
  unfold udiv. destruct (decide (b = 0)) as [->|Hb].
  - split; [done | intros [? _]; done].
  - rewrite ret_Done. split; [intros [<- <-]|intros (_ & -> & ->)]; done.
Qed.

(** ** Forward execution *)

Lemma bind_eq {A B} (m : M A) (k : A → M B) w a w' :
  m w = Done a w' → (m ≫= k) w = k a w'.
Proof. unfold mbind, M_bind. by intros ->. Qed.

Lemma deref_eq p (w : world) b : heap w !! p = Some b → deref p w = Done b w.
Proof. unfold deref. by intros ->. Qed.

Lemma update_eq p f (w : world) b :
  heap w !! p = Some b → update p f w = Done tt (with_block p (f b) w).
Proof. intros Hb. unfold update. by rewrite (bind_eq _ _ _ _ _ (deref_eq _ _ _ Hb)). Qed.

Lemma with_block_twice p b b' (w : world) :
  with_block p b' (with_block p b w) = with_block p b' w.
Proof. unfold with_block. simpl. by rewrite insert_insert_eq. Qed.

Lemma with_block_logged p b (w : world) es :
  with_block p b (logged w es) = logged (with_block p b w) es.
Proof. done. Qed.

Lemma logged_logged (w : world) es es' :
  logged (logged w es) es' = logged w (es ++ es').
Proof. unfold logged. simpl. by rewrite <- app_assoc. Qed.

Lemma emit_eq e (w : world) : emit e w = Done tt (logged w [e]).
Proof. done. Qed.

Lemma with_block_id p b (w : world) : heap w !! p = Some b → with_block p b w = w.
Proof. intros Hb. unfold with_block. rewrite insert_id by done. by destruct w. Qed.

Lemma bind_assoc {A B C} (m : M A) (k : A → M B) (k' : B → M C) w :
  ((m ≫= k) ≫= k') w = (m ≫= λ a, k a ≫= k') w.
Proof. unfold mbind, M_bind. by destruct (m w). Qed.

Lemma bind_ret {A B} (a : A) (k : A → M B) w : (mret a ≫= k) w = k a w.
Proof. done. Qed.

Lemma bind_undefined {A B} (m : M A) (k : A → M B) w :
  m w = Undefined → (m ≫= k) w = Undefined.
Proof. unfold mbind, M_bind. by intros ->. Qed.

Lemma udiv_eq a b (w : world) : b ≠ 0 → udiv a b w = Done (a / b) w.
Proof. intros Hb. unfold udiv. by destruct (decide (b = 0)). Qed.

Lemma udiv_zero a (w : world) : udiv a 0 w = Undefined.
Proof. done. Qed.

Ltac lookup_solve :=
  cbn [heap logged with_block];
  first [ eassumption | apply lookup_insert_eq
        | rewrite lookup_insert_ne by done; eassumption ].

Ltac exec_step :=
  match goal with
  | |- ((_ ≫= _) ≫= _) _ = _ => rewrite bind_assoc
  | |- (mret _ ≫= _) _ = _ => rewrite bind_ret
  | |- (deref _ ≫= _) _ = _ =>
      erewrite bind_eq; [|apply deref_eq; lookup_solve]
  | |- (update _ _ ≫= _) _ = _ =>
      erewrite bind_eq; [|apply update_eq; lookup_solve]
  | |- (emit _ ≫= _) _ = _ => erewrite bind_eq; [|apply emit_eq]
  | |- (LOG_DEBUG _ _ ≫= _) _ = _ => erewrite bind_eq; [|apply emit_eq]
  | |- (LOG_ERROR _ _ ≫= _) _ = _ => erewrite bind_eq; [|apply emit_eq]
  | |- (udiv _ _ ≫= _) _ = _ =>
      erewrite bind_eq; [|apply udiv_eq; eassumption]
  | |- deref _ _ = _ => erewrite deref_eq; [|lookup_solve]
  | |- update _ _ _ = _ => erewrite update_eq; [|lookup_solve]
  | |- emit _ _ = _ => rewrite emit_eq
  | |- LOG_DEBUG _ _ _ = _ => unfold LOG_DEBUG; rewrite emit_eq
  | |- LOG_ERROR _ _ _ = _ => unfold LOG_ERROR; rewrite emit_eq
  | |- (let _ := _ in _) _ = _ => cbv zeta
  end.

Ltac exec := repeat exec_step.

Ltac tidy :=
  rewrite ?with_block_logged, ?with_block_twice, ?logged_logged; cbn [app].

(** ** Effects of computations on the store *)

Section Effects.

Variable rank : ptr → nat.
Variable keeps : relation DspBlock.
Context `{!PreOrder keeps}.
Hypothesis keeps_consumers : ∀ b b', keeps b b' → consumers b' = consumers b.

Lemma evolves_refl h : evolves keeps h h.
Proof. intros x. destruct (h !! x); constructor. reflexivity. Qed.

Lemma evolves_trans h1 h2 h3 :
  evolves keeps h1 h2 → evolves keeps h2 h3 → evolves keeps h1 h3.
Proof.
  intros H12 H23 x. specialize (H12 x). specialize (H23 x).
  destruct H12 as [b1 b2 Hb|]; inversion H23; subst; constructor.
  by etrans.
Qed.

Lemma evolves_insert h p b b' :
  h !! p = Some b → keeps b b' → evolves keeps h (<[p:=b']> h).
Proof.
  intros Hp Hk x. destruct (decide (x = p)) as [->|Hne].
  - rewrite lookup_insert_eq, Hp. by constructor.
  - rewrite lookup_insert_ne by done. apply evolves_refl.
Qed.

Lemma evolves_ranked h h' : evolves keeps h h' → ranked rank h → ranked rank h'.
Proof.
  intros Hev Hr x b' Hx.
  pose proof (Hev x) as Hevx. rewrite Hx in Hevx.
  inversion Hevx as [b ? Hk Hb|]; subst.
  rewrite (keeps_consumers _ _ Hk).
  specialize (Hr x b (eq_sym Hb)). simpl in Hr.
  eapply Forall_impl; [exact Hr|]. intros c [[bc Hc] Hlt]. split; [|done].
  pose proof (Hev c) as Hevc. rewrite Hc in Hevc. inversion Hevc; eauto.
Qed.

Lemma effect_refl P w : effect rank keeps P w w.
Proof. split; [apply evolves_refl | intros _ x _; done]. Qed.

Lemma effect_trans P w1 w2 w3 :
  effect rank keeps P w1 w2 → effect rank keeps P w2 w3 →
  effect rank keeps P w1 w3.
Proof.
  intros [He1 Hf1] [He2 Hf2]. split; [by eapply evolves_trans|].
  intros Hr x Hx. rewrite (Hf2 (evolves_ranked _ _ He1 Hr) x Hx). by apply Hf1.
Qed.

Lemma effect_log P (w : world) t : effect rank keeps P w (mkWorld (heap w) t).
Proof. split; [apply evolves_refl | intros _ x _; done]. Qed.

Lemma preserves_ret {A} P (a : A) : preserves (effect rank keeps P) (mret a : M A).
Proof. intros w b w' [_ <-]%ret_Done. apply effect_refl. Qed.

Lemma preserves_bind {A B} P (m : M A) (k : A → M B) :
  preserves (effect rank keeps P) m →
  (∀ a, preserves (effect rank keeps P) (k a)) →
  preserves (effect rank keeps P) (m ≫= k).
Proof.
  intros Hm Hk w b w'' (a & w' & H1 & H2)%bind_Done.
  eapply effect_trans; [by eapply Hm | by eapply Hk].
Qed.

Lemma preserves_deref P p : preserves (effect rank keeps P) (deref p).
Proof. intros w b w' [_ ->]%deref_Done. apply effect_refl. Qed.

Lemma preserves_udiv P a b : preserves (effect rank keeps P) (udiv a b).
Proof. intros w q w' (_ & _ & ->)%udiv_Done. apply effect_refl. Qed.

Lemma preserves_emit P e : preserves (effect rank keeps P) (emit e).
Proof. intros w u w' ->%emit_Done. apply effect_log. Qed.

Lemma preserves_read P r : preserves (effect rank keeps P) (read r).
Proof.
  destruct r as [v|q]; simpl; [apply preserves_ret|].
  apply preserves_bind; [apply preserves_deref | intros; apply preserves_ret].
Qed.

Lemma preserves_update (P : ptr → Prop) p f :
  (∀ b, keeps b (f b)) → ¬ P p →
  preserves (effect rank keeps P) (update p f).
Proof.
  intros Hf HP w u w' (b & Hb & ->)%update_Done. split; simpl.
  - by apply evolves_insert with b.
  - intros _ x Hx. apply lookup_insert_ne. by intros ->.
Qed.

Lemma preserves_for_each P cs (body : ptr → M unit) :
  (∀ c, c ∈ cs → preserves (effect rank keeps P) (body c)) →
  preserves (effect rank keeps P) (for_each cs body).
Proof.
  induction cs as [|c cs IH]; intros Hbody; simpl.
  - apply preserves_ret.
  - apply preserves_bind; [apply Hbody; by left|].
    intros _. apply IH. intros c' Hc'. apply Hbody. by right.
Qed.

End Effects.

Lemma effect_weaken rank (keeps keeps' : relation DspBlock) (P P' : ptr → Prop) w w' :
  (∀ b b', keeps b b' → keeps' b b') → (∀ x, P' x → P x) →
  effect rank keeps P w w' → effect rank keeps' P' w w'.
Proof.
  intros Hk HP [He Hf]. split.
  - intros x. destruct (He x); constructor; auto.
  - intros Hr x Hx. apply Hf; auto.
Qed.

Lemma preserves_weaken {A} (R R' : relation world) (m : M A) :
  (∀ w w', R w w' → R' w w') → preserves R m → preserves R' m.
Proof. intros HR Hm w a w' H. apply HR. by eapply Hm. Qed.

#[local] Instance keeps_stop_preorder : PreOrder (keeps_stop (sample_t:=sample_t) (Stage:=Stage)).
Proof.
  split.
  - intros b. unfold keeps_stop. auto.
  - intros b1 b2 b3 (Hc1 & Hr1 & Hb1) (Hc2 & Hr2 & Hb2).
    unfold keeps_stop. rewrite Hc2, Hc1. auto.
Qed.

#[local] Instance keeps_run_preorder : PreOrder (keeps_run (sample_t:=sample_t) (Stage:=Stage)).
Proof.
  split.
  - intros b. unfold keeps_run. auto.
  - intros b1 b2 b3 [Hc1 Hr1] [Hc2 Hr2].
    unfold keeps_run. rewrite Hc2, Hc1, Hr2, Hr1. auto.
Qed.

#[local] Instance keeps_start_preorder : PreOrder (keeps_start (sample_t:=sample_t) (Stage:=Stage)).
Proof.
  split.
  - intros b. reflexivity.
  - intros b1 b2 b3 H1 H2. unfold keeps_start in *. congruence.
Qed.

#[local] Instance keeps_inputs_preorder :
  PreOrder (keeps_inputs (sample_t:=sample_t) (Stage:=Stage)).
Proof.
  split.
  - intros b. unfold keeps_inputs. auto.
  - intros b1 b2 b3 (Hc1 & Hr1 & Hn1) (Hc2 & Hr2 & Hn2).
    unfold keeps_inputs. rewrite Hc2, Hr2, Hn2. auto.
Qed.

Lemma keeps_inputs_consumers (b b' : DspBlock) :
  keeps_inputs b b' → consumers b' = consumers b.
Proof. by intros [Hc _]. Qed.

Lemma config_consumers (b b' : DspBlock) : config b' = config b → consumers b' = consumers b.
Proof. unfold config. congruence. Qed.

Lemma keeps_stop_consumers (b b' : DspBlock) : keeps_stop b b' → consumers b' = consumers b.
Proof. intros [Hc _]. by apply config_consumers. Qed.

Lemma keeps_run_consumers (b b' : DspBlock) : keeps_run b b' → consumers b' = consumers b.
Proof. intros [Hc _]. by apply config_consumers. Qed.

Lemma keeps_start_consumers (b b' : DspBlock) : keeps_start b b' → consumers b' = consumers b.
Proof. done. Qed.


Lemma preserves_starved {A} (R : relation world) : preserves R (starved : M A).
Proof. intros w a w' H. discriminate H. Qed.

Lemma preserves_undefined {A} (R : relation world) : preserves R (undefined : M A).
Proof. intros w a w' H. discriminate H. Qed.

Create HintDb effects.
#[local] Hint Resolve keeps_stop_consumers keeps_run_consumers keeps_start_consumers
  keeps_inputs_consumers : effects.

Ltac effects_step :=
  match goal with
  | |- preserves _ (mret _) => apply preserves_ret
  | |- preserves _ (_ ≫= _) => apply preserves_bind
  | |- preserves _ (deref _) => apply preserves_deref
  | |- preserves _ (udiv _ _) => apply preserves_udiv
  | |- preserves _ (emit _) => apply preserves_emit
  | |- preserves _ (LOG_DEBUG _ _) => apply preserves_emit
  | |- preserves _ (LOG_ERROR _ _) => apply preserves_emit
  | |- preserves _ (read _) => apply preserves_read
  | |- preserves _ (update _ _) => apply preserves_update
  | |- preserves _ (for_each _ _) => apply preserves_for_each
  | |- preserves _ starved => apply preserves_starved
  | |- preserves _ undefined => apply preserves_undefined
  | |- preserves _ (if ?c then _ else _) => destruct c
  | |- preserves _ (let _ := _ in _) => cbv zeta
  | |- ∀ _, _ => intro
  | |- consumers _ = consumers _ => solve [eauto with effects]
  | |- PreOrder _ => solve [apply _]
  end.

Ltac keeps_solve :=
  unfold keeps_stop, keeps_run, keeps_start, keeps_inputs; simpl;
  repeat split; solve [auto | congruence].

Ltac effects := repeat effects_step; try keeps_solve.

(** *** [stop] *)

Lemma stop_self_effect rank (P : ptr → Prop) p :
  ¬ P p → preserves (effect rank keeps_stop P) (stop_self p).
Proof.
  intros HP. unfold stop_self, deinit.
  effects; done.
Qed.

Lemma stop_evolves rank fuel :
  ∀ p, preserves (effect rank keeps_stop nothing) (stop fuel p).
Proof.
  induction fuel as [|n IH]; intros p; simpl; effects.
  - apply IH.
  - apply stop_self_effect. by intros [].
Qed.

Lemma ranked_consumers rank (h : gmap ptr DspBlock) p b c :
  ranked rank h → h !! p = Some b → c ∈ consumers b →
  is_Some (h !! c) ∧ (rank c < rank p)%nat.
Proof.
  intros Hr Hp Hc. specialize (Hr p b Hp). simpl in Hr.
  rewrite Forall_forall in Hr. by apply Hr.
Qed.

Lemma stop_effect rank fuel :
  ∀ p, preserves (effect rank keeps_stop (outside rank p)) (stop fuel p).
Proof.
  induction fuel as [|n IH]; intros p; [apply preserves_starved|].
  intros w a w' Hrun. split; [by eapply (stop_evolves rank (S n) p)|].
  intros Hr. revert Hrun. simpl.
  intros (b & w1 & [Hb ->]%deref_Done & Hk)%bind_Done.
  assert (preserves (effect rank keeps_stop (outside rank p))
            (for_each (consumers b) (stop n);; stop_self p)) as Hpres.
  { effects.
    - match goal with Hc : _ ∈ consumers b |- _ =>
        destruct (ranked_consumers rank _ p b _ Hr Hb Hc) as [_ Hlt] end.
      eapply preserves_weaken; [|apply IH].
      intros v v'. apply effect_weaken; [done|].
      intros x [Hne Hle]. split; [intros ->|]; lia.
    - apply stop_self_effect. by intros []. }
  by apply (Hpres _ _ _ Hk).
Qed.

Ltac invert_M :=
  repeat match goal with
  | H : (_ ≫= _) _ = Done _ _ |- _ =>
      let H1 := fresh "Hm" in
      apply bind_Done in H; destruct H as (? & ? & H1 & H)
  | H : mret _ _ = Done _ _ |- _ =>
      apply ret_Done in H; destruct H as [? ?]; subst
  | H : deref _ _ = Done _ _ |- _ =>
      apply deref_Done in H; destruct H as [H ?]; subst
  | H : emit _ _ = Done _ _ |- _ => apply emit_Done in H; subst
  | H : LOG_DEBUG _ _ _ = Done _ _ |- _ => apply emit_Done in H; subst
  | H : LOG_ERROR _ _ _ = Done _ _ |- _ => apply emit_Done in H; subst
  | H : update _ _ _ = Done _ _ |- _ =>
      apply update_Done in H; destruct H as (? & H & ?); subst
  | H : udiv _ _ _ = Done _ _ |- _ =>
      apply udiv_Done in H; destruct H as (H & ? & ?); subst
  | H : undefined _ = Done _ _ |- _ => discriminate H
  | H : starved _ = Done _ _ |- _ => discriminate H
  | H : (if ?c then _ else _) _ = Done _ _ |- _ => destruct c eqn:?
  end.

Lemma stop_S n p :
  stop (S n) p = (b ← deref p; for_each (consumers b) (stop n);; stop_self p).
Proof. reflexivity. Qed.

Lemma start_S n p :
  start (S n) p =
  (ok ← start_self p;
   if negb ok then mret false
   else b ← deref p; start_downstream (start n) (stop (S n) p) p (consumers b)).
Proof. reflexivity. Qed.

Lemma run_S n p inBuffer :
  run (S n) p inBuffer =
  (ok ← run_self p inBuffer;
   if negb ok then mret false
   else b ← deref p; run_downstream (run n) p (consumers b)).
Proof. reflexivity. Qed.

Lemma effect_preorder rank (keeps : relation DspBlock) `{!PreOrder keeps} P :
  (∀ b b', keeps b b' → consumers b' = consumers b) →
  PreOrder (effect rank keeps P).
Proof.
  intros Hc. split.
  - intros w. by apply effect_refl.
  - intros w1 w2 w3. by apply effect_trans.
Qed.

(** *** [start] *)

Lemma setSampleRate_effect rank (P : ptr → Prop) c v :
  ¬ P c → preserves (effect rank keeps_start P) (setSampleRate c v).
Proof. intros HP. unfold setSampleRate. effects; done. Qed.

Lemma setChannels_effect rank (P : ptr → Prop) c v :
  ¬ P c → preserves (effect rank keeps_start P) (setChannels c v).
Proof. intros HP. unfold setChannels. effects; done. Qed.

Lemma init_effect rank (P : ptr → Prop) p :
  ¬ P p → preserves (effect rank keeps_start P) (init p).
Proof. intros HP. unfold init. effects; done. Qed.

Lemma deinit_effect rank (P : ptr → Prop) p :
  ¬ P p → preserves (effect rank keeps_start P) (deinit p).
Proof. intros HP. unfold deinit. effects; done. Qed.

Lemma start_self_effect rank (P : ptr → Prop) p :
  ¬ P p → preserves (effect rank keeps_start P) (start_self p).
Proof.
  intros HP. unfold start_self. effects; try done.
  - by apply init_effect.
  - by apply deinit_effect.
Qed.

(** The downstream loop of [start] either visits every consumer, or ends in
    [this->stop()] right after the first consumer that fails to start. *)
Lemma start_downstream_inv (R : relation world) `{!PreOrder R}
    (start_rec : ptr → M bool) (stop_this : M unit) p cs :
  (∀ c v, c ∈ cs → preserves R (setSampleRate c v)) →
  (∀ c v, c ∈ cs → preserves R (setChannels c v)) →
  (∀ c, c ∈ cs → preserves R (start_rec c)) →
  ∀ w r w', start_downstream start_rec stop_this p cs w = Done r w' →
  ∃ w2, R w w2 ∧
    if r then w' = w2
    else ∃ c v, c ∈ cs ∧ start_rec c v = Done false w2 ∧
      stop_this (mkWorld (heap w2) (trace w2 ++ [Log ERROR p DownstreamFailed]))
        = Done tt w'.
Proof.
  induction cs as [|c cs IH]; intros Hrate Hchan Hrec w r w' Hrun; simpl in Hrun.
  - invert_M. by exists w'.
  - apply bind_Done in Hrun as (b1 & w1 & [Hb1 ->]%deref_Done & Hrun).
    apply bind_Done in Hrun as ([] & w2 & Hset1 & Hrun).
    apply bind_Done in Hrun as (b2 & w3 & [Hb2 ->]%deref_Done & Hrun).
    apply bind_Done in Hrun as ([] & w4 & Hset2 & Hrun).
    apply bind_Done in Hrun as (ok & w5 & Hstart & Hrun).
    assert (R w w5) as Hw5.
    { etrans; [eapply Hrate; [by left|done]|].
      etrans; [eapply Hchan; [by left|done]|].
      eapply Hrec; [by left|done]. }
    destruct ok; simpl in Hrun.
    + destruct (IH (λ c' v H', Hrate c' v (list_elem_of_further _ _ _ H'))
                   (λ c' v H', Hchan c' v (list_elem_of_further _ _ _ H'))
                   (λ c' H', Hrec c' (list_elem_of_further _ _ _ H'))
                   w5 r w' Hrun) as (w6 & HR & Hend).
      exists w6. split; [by etrans|].
      destruct r; [done|].
      destruct Hend as (c' & v & Hc' & Hend). exists c', v. split; [by right|done].
    + apply bind_Done in Hrun as ([] & w6 & ->%emit_Done & Hrun).
      apply bind_Done in Hrun as ([] & w7 & Hstop & [<- <-]%ret_Done).
      exists w5. split; [done|]. exists c, w4. split; [by left|]. done.
Qed.

Lemma stop_evolves_start rank fuel p :
  preserves (effect rank keeps_start nothing) (stop fuel p).
Proof.
  eapply preserves_weaken; [|apply (stop_evolves rank fuel p)].
  intros w w'. apply effect_weaken; [|done].
  intros b b' [Hc _]. by apply config_consumers.
Qed.

Lemma start_evolves rank fuel :
  ∀ p, preserves (effect rank keeps_start nothing) (start fuel p).
Proof.
  pose proof (effect_preorder rank keeps_start nothing keeps_start_consumers) as Hpre.
  induction fuel as [|n IH]; intros p; [apply preserves_starved|].
  intros w r w' Hrun. rewrite start_S in Hrun.
  apply bind_Done in Hrun as (ok & w1 & Hself & Hrun).
  apply (start_self_effect rank nothing p) in Hself; [|by intros []].
  destruct ok; cbn [negb] in Hrun; [|invert_M; done].
  apply bind_Done in Hrun as (b & w2 & [Hb ->]%deref_Done & Hrun).
  eapply (start_downstream_inv (effect rank keeps_start nothing)) in Hrun
    as (w3 & Hloop & Hend).
  - etrans; [exact Hself|]. etrans; [exact Hloop|].
    destruct r; [by subst|].
    destruct Hend as (c & v & _ & _ & Hstop).
    etrans; [|eapply stop_evolves_start, Hstop]. apply effect_log.
    apply _.
  - intros c v _. apply setSampleRate_effect. by intros [].
  - intros c v _. apply setChannels_effect. by intros [].
  - intros c _. apply IH.
Qed.

Lemma outside_above rank p c x :
  (rank c < rank p)%nat → above rank p x → outside rank c x.
Proof. unfold above, outside. intros Hlt Hx. split; [intros ->|]; lia. Qed.

Lemma not_above rank p c : (rank c < rank p)%nat → ¬ above rank p c.
Proof. unfold above. lia. Qed.

Lemma not_outside rank p : ¬ outside rank p p.
Proof. by intros [? _]. Qed.

(** Anatomy of a call of [start] on a ranked graph: the local part, then a
    loop that only touches blocks of smaller rank, then, after a failed
    consumer, [this->stop()]. *)
Lemma start_inv_aux rank n
    (IH : ∀ c, preserves (effect rank keeps_start (outside rank c)) (start n c)) p w r w' :
  ranked rank (heap w) →
  start (S n) p w = Done r w' →
  ∃ ok w1, start_self p w = Done ok w1 ∧
    if ok then
      ∃ b w3, heap w1 !! p = Some b ∧
        effect rank keeps_start (above rank p) w1 w3 ∧
        if r then w' = w3
        else ∃ c v, c ∈ consumers b ∧ start n c v = Done false w3 ∧
          stop (S n) p (mkWorld (heap w3) (trace w3 ++ [Log ERROR p DownstreamFailed]))
            = Done tt w'
    else r = false ∧ w' = w1.
Proof.
  intros Hr Hrun. rewrite start_S in Hrun.
  apply bind_Done in Hrun as (ok & w1 & Hself & Hrun).
  exists ok, w1. split; [done|].
  destruct ok; cbn [negb] in Hrun; [|by invert_M].
  apply bind_Done in Hrun as (b & w2 & [Hb ->]%deref_Done & Hrun).
  exists b.
  assert (ranked rank (heap w1)) as Hr1.
  { eapply (evolves_ranked rank keeps_start keeps_start_consumers); [|exact Hr].
    eapply (start_self_effect rank nothing p); [by intros []|done]. }
  pose proof (effect_preorder rank keeps_start (above rank p) keeps_start_consumers).
  eapply (start_downstream_inv (effect rank keeps_start (above rank p))) in Hrun
    as (w3 & Hloop & Hend).
  - exists w3. split; [done|]. split; [done|]. exact Hend.
  - intros c v Hc. apply setSampleRate_effect.
    apply not_above. by eapply ranked_consumers.
  - intros c v Hc. apply setChannels_effect.
    apply not_above. by eapply ranked_consumers.
  - intros c Hc. eapply preserves_weaken; [|apply IH].
    intros v v'. apply effect_weaken; [done|].
    intros x. apply outside_above. by eapply ranked_consumers.
Qed.

Lemma start_effect rank fuel :
  ∀ p, preserves (effect rank keeps_start (outside rank p)) (start fuel p).
Proof.
  induction fuel as [|n IH]; intros p; [apply preserves_starved|].
  intros w r w' Hrun. split; [by eapply (start_evolves rank (S n) p)|].
  intros Hr.
  destruct (start_inv_aux rank n IH p w r w' Hr Hrun) as (ok & w1 & Hself & Hrest).
  pose proof (effect_preorder rank keeps_start (outside rank p) keeps_start_consumers).
  assert (effect rank keeps_start (outside rank p) w w') as [_ Hf]; [|by apply Hf].
  etrans; [eapply (start_self_effect rank _ p), Hself; apply not_outside|].
  destruct ok; [|by destruct Hrest as [_ ->]].
  destruct Hrest as (b & w3 & Hb & Hloop & Hend).
  etrans; [eapply effect_weaken, Hloop; [done|by intros x []]|].
  destruct r; [by subst|].
  destruct Hend as (c & v & _ & _ & Hstop).
  etrans; [apply effect_log; apply _|].
  eapply effect_weaken, (stop_effect rank (S n) p), Hstop; [|done].
  intros b1 b2 [Hc _]. by apply config_consumers.
Qed.

Lemma start_inv rank n p w r w' :
  ranked rank (heap w) →
  start (S n) p w = Done r w' →
  ∃ ok w1, start_self p w = Done ok w1 ∧
    if ok then
      ∃ b w3, heap w1 !! p = Some b ∧
        effect rank keeps_start (above rank p) w1 w3 ∧
        if r then w' = w3
        else ∃ c v, c ∈ consumers b ∧ start n c v = Done false w3 ∧
          stop (S n) p (mkWorld (heap w3) (trace w3 ++ [Log ERROR p DownstreamFailed]))
            = Done tt w'
    else r = false ∧ w' = w1.
Proof. apply start_inv_aux. apply start_effect. Qed.

(** *** [run] *)

Lemma process_effect rank (P : ptr → Prop) p inBuffer :
  ¬ P p → preserves (effect rank keeps_run P) (process p inBuffer).
Proof. intros HP. unfold process. effects; done. Qed.

Lemma run_self_effect rank (P : ptr → Prop) p inBuffer :
  ¬ P p → preserves (effect rank keeps_run P) (run_self p inBuffer).
Proof.
  intros HP. unfold run_self. effects; try done.
  all: by apply process_effect.
Qed.

Lemma preserves_run_downstream rank (P : ptr → Prop)
    (run_rec : ptr → bufref sample_t → M bool) p cs :
  (∀ c, c ∈ cs → preserves (effect rank keeps_run P) (run_rec c (BufferOf p))) →
  preserves (effect rank keeps_run P) (run_downstream run_rec p cs).
Proof.
  induction cs as [|c cs IH]; intros Hrec; simpl; effects.
  - apply Hrec. by left.
  - apply IH. intros c' Hc'. apply Hrec. by right.
Qed.

Lemma run_evolves rank fuel :
  ∀ p inBuffer, preserves (effect rank keeps_run nothing) (run fuel p inBuffer).
Proof.
  induction fuel as [|n IH]; intros p inBuffer; [apply preserves_starved|].
  rewrite run_S. effects.
  - apply run_self_effect. by intros [].
  - apply preserves_run_downstream. intros c _. apply IH.
Qed.

Lemma run_effect rank fuel :
  ∀ p inBuffer,
    preserves (effect rank keeps_run (outside rank p)) (run fuel p inBuffer).
Proof.
  induction fuel as [|n IH]; intros p inBuffer; [apply preserves_starved|].
  intros w r w' Hrun. split; [by eapply (run_evolves rank (S n) p)|].
  intros Hr. rewrite run_S in Hrun.
  apply bind_Done in Hrun as (ok & w1 & Hself & Hrun).
  pose proof (effect_preorder rank keeps_run (outside rank p) keeps_run_consumers).
  assert (effect rank keeps_run (outside rank p) w w') as [_ Hf]; [|by apply Hf].
  assert (effect rank keeps_run (outside rank p) w w1) as Hw1.
  { eapply (run_self_effect rank _ p), Hself. apply not_outside. }
  etrans; [exact Hw1|].
  destruct ok; cbn [negb] in Hrun; [|by invert_M].
  apply bind_Done in Hrun as (b & w2 & [Hb ->]%deref_Done & Hrun).
  assert (ranked rank (heap w1)) as Hr1.
  { eapply (evolves_ranked rank keeps_run keeps_run_consumers); [|exact Hr].
    apply Hw1. }
  revert Hrun. apply preserves_run_downstream.
  intros c Hc. eapply preserves_weaken; [|apply IH].
  intros v v'. apply effect_weaken; [done|].
  intros x [Hne Hle]. apply (outside_above rank p); [|done].
  by eapply ranked_consumers.
Qed.

(** ** The local part of [start] *)

Lemma init_eq p (w : world) b :
  heap w !! p = Some b →
  let r := init_hook p b in
  init p w =
  Done (init_ok r)
    (logged (with_block p
      (set_stage (init_stage r)
        (set_outputChannels (init_channels r)
          (set_outputSampleRate (init_rate r) b))) w) [CallInit p]).
Proof.
  intros Hb r. unfold init. exec. unfold mret, M_ret. by tidy.
Qed.

Lemma deinit_eq p (w : world) b :
  heap w !! p = Some b →
  deinit p w =
  Done tt (logged (with_block p (set_stage (deinit_hook p b) b) w) [CallDeinit p]).
Proof. intros Hb. unfold deinit. exec. by tidy. Qed.

Lemma start_self_seed p (w : world) b :
  heap w !! p = Some b →
  start_self p w =
  (if negb (init_ok (init_hook p (seeded b))) then
     LOG_ERROR p FailedToInitialise;; mret false
   else
     b ← deref p;
     (if decide (outputSampleRate b ≤ inputSampleRate b) then
        d ← udiv (inputSampleRate b) (outputSampleRate b);
        update p (set_decimation d);;
        update p (set_interpolation 1)
      else
        update p (set_decimation 1);;
        i ← udiv (outputSampleRate b) (inputSampleRate b);
        update p (set_interpolation i));;
     b ← deref p;
     q ← udiv (umul (inputSampleRate b) (interpolation b)) (decimation b);
     if decide (q ≠ outputSampleRate b) then
       LOG_ERROR p NotIntegerRelated;;
       deinit p;;
       mret false
     else
       update p (set_isRunning true);;
       mret true)
    (logged (with_block p (initialised p b) w) [Log DEBUG p StartingBlock; CallInit p]).
Proof.
  intros Hb. unfold start_self. exec.
  erewrite bind_eq; [|apply init_eq; lookup_solve].
  by tidy.
Qed.

Lemma start_self_init_fails p (w : world) b :
  heap w !! p = Some b →
  init_ok (init_hook p (seeded b)) = false →
  start_self p w =
  Done false (logged (with_block p (initialised p b) w)
    [Log DEBUG p StartingBlock; CallInit p; Log ERROR p FailedToInitialise]).
Proof.
  intros Hb Hok. rewrite (start_self_seed p w b Hb), Hok. cbn [negb].
  exec. unfold mret, M_ret. by tidy.
Qed.

Lemma start_self_undefined p (w : world) b :
  heap w !! p = Some b →
  init_ok (init_hook p (seeded b)) = true →
  inputSampleRate b = 0 ∨ init_rate (init_hook p (seeded b)) = 0 →
  start_self p w = Undefined.
Proof.
  intros Hb Hok Hzero. rewrite (start_self_seed p w b Hb), Hok. cbn [negb].
  exec. cbn [inputSampleRate outputSampleRate initialised seeded
    set_stage set_outputChannels set_outputSampleRate].
  set (out := init_rate _) in *.
  destruct (decide (out ≤ inputSampleRate b)) as [Hle|Hgt].
  - assert (out = 0) as -> by (destruct Hzero; lia).
    rewrite bind_assoc. by rewrite (bind_undefined _ _ _ (udiv_zero _ _)).
  - assert (inputSampleRate b = 0) as -> by (destruct Hzero; lia).
    exec. by rewrite (bind_undefined _ _ _ (udiv_zero _ _)).
Qed.

Lemma rated_decimation_pos (b : DspBlock) :
  inputSampleRate b ≠ 0 → outputSampleRate b ≠ 0 → decimation (rated b) ≠ 0.
Proof.
  intros Hin Hout. unfold rated.
  destruct (decide (outputSampleRate b ≤ inputSampleRate b)) as [Hle|Hgt]; simpl; [|done].
  intros Hz. apply N.div_small_iff in Hz; lia.
Qed.

Lemma start_self_rated p (w : world) b :
  heap w !! p = Some b →
  init_ok (init_hook p (seeded b)) = true →
  inputSampleRate b ≠ 0 →
  init_rate (init_hook p (seeded b)) ≠ 0 →
  let b2 := rated (initialised p b) in
  start_self p w =
  if decide (reconstructed b2 ≠ outputSampleRate b2) then
    Done false (logged (with_block p (set_stage (deinit_hook p b2) b2) w)
      [Log DEBUG p StartingBlock; CallInit p;
       Log ERROR p NotIntegerRelated; CallDeinit p])
  else
    Done true (logged (with_block p (set_isRunning true b2) w)
      [Log DEBUG p StartingBlock; CallInit p]).
Proof.
  intros Hb Hok Hin Hout b2.
  pose proof (rated_decimation_pos (initialised p b) Hin Hout) as Hdec.
  fold b2 in Hdec.
  rewrite (start_self_seed p w b Hb), Hok. cbn [negb].
  exec. unfold rated in b2.
  destruct (decide (outputSampleRate (initialised p b) ≤ inputSampleRate (initialised p b))).
  - exec. tidy. fold b2. exec. unfold reconstructed.
    destruct (decide (_ ≠ _)).
    + exec. erewrite bind_eq; [|apply deinit_eq; lookup_solve].
      unfold mret, M_ret. by tidy.
    + exec. unfold mret, M_ret. by tidy.
  - exec. tidy. fold b2. exec. unfold reconstructed.
    destruct (decide (_ ≠ _)).
    + exec. erewrite bind_eq; [|apply deinit_eq; lookup_solve].
      unfold mret, M_ret. by tidy.
    + exec. unfold mret, M_ret. by tidy.
Qed.

(** ** Reachability and released blocks *)

Lemma evolves_lookup (keeps : relation DspBlock) (h h' : gmap ptr DspBlock) x b :
  evolves keeps h h' → h !! x = Some b → ∃ b', h' !! x = Some b' ∧ keeps b b'.
Proof. intros He Hx. specialize (He x). rewrite Hx in He. inversion He; eauto. Qed.

Lemma evolves_lookup_inv (keeps : relation DspBlock) (h h' : gmap ptr DspBlock) x b' :
  evolves keeps h h' → h' !! x = Some b' → ∃ b, h !! x = Some b ∧ keeps b b'.
Proof. intros He Hx. specialize (He x). rewrite Hx in He. inversion He; eauto. Qed.

Lemma reach_evolves (keeps : relation DspBlock) (h h' : gmap ptr DspBlock) p q :
  (∀ b b', keeps b b' → consumers b' = consumers b) →
  evolves keeps h h' → reach h p q ↔ reach h' p q.
Proof.
  intros Hc He. split.
  - induction 1 as [p|p b c q Hp Hin _ IH]; [constructor|].
    destruct (evolves_lookup _ _ _ _ _ He Hp) as (b' & Hp' & Hk).
    eapply reach_step; [exact Hp'| |exact IH]. by rewrite (Hc _ _ Hk).
  - induction 1 as [p|p b' c q Hp Hin _ IH]; [constructor|].
    destruct (evolves_lookup_inv _ _ _ _ _ He Hp) as (b & Hp' & Hk).
    eapply reach_step; [exact Hp'| |exact IH]. by rewrite <- (Hc _ _ Hk).
Qed.

Lemma released_evolves (h h' : gmap ptr DspBlock) q :
  evolves keeps_stop h h' → released h q → released h' q.
Proof.
  intros He (b & Hq & Hrun & Hbuf).
  destruct (evolves_lookup _ _ _ _ _ He Hq) as (b' & Hq' & _ & Hr & Hb).
  exists b'. auto.
Qed.

Lemma released_not_running (h : gmap ptr DspBlock) q :
  released h q → running h q = false.
Proof. intros (b & Hq & Hrun & _). unfold running. by rewrite Hq. Qed.

(** ** [stop] *)

Lemma stop_self_eq p (w : world) b :
  heap w !! p = Some b →
  stop_self p w =
  Done tt
    (if isRunning b then
       logged
         (with_block p
           (set_buffer []
             (set_stage (deinit_hook p (set_isRunning false b)) (set_isRunning false b))) w)
         [Log DEBUG p StoppingBlock; CallDeinit p]
     else with_block p (set_buffer [] b) w).
Proof.
  intros Hb. unfold stop_self. exec. destruct (isRunning b).
  - exec. erewrite bind_eq; [|apply deinit_eq; lookup_solve]. exec. by tidy.
  - by exec.
Qed.

Lemma stop_self_released p (w : world) u w' :
  stop_self p w = Done u w' → released (heap w') p.
Proof.
  intros Hs. assert (∃ b, heap w !! p = Some b) as [b Hb].
  { unfold stop_self in Hs. apply bind_Done in Hs as (b & ? & [? ?]%deref_Done & _). eauto. }
  rewrite (stop_self_eq p w b Hb) in Hs.
  destruct (isRunning b) eqn:Hrun; injection Hs; intros <-;
    cbn [heap logged with_block];
    (eexists; split; [apply lookup_insert_eq|done]).
Qed.

(** After [stop] the whole downstream subtree is stopped and unbuffered. *)
Lemma stop_releases fuel :
  ∀ p w u w', stop fuel p w = Done u w' →
    ∀ q, reach (heap w') p q → released (heap w') q.
Proof.
  induction fuel as [|n IH]; intros p w u w' Hrun; [discriminate Hrun|].
  rewrite stop_S in Hrun.
  apply bind_Done in Hrun as (b & w0 & [Hb ->]%deref_Done & Hrun).
  apply bind_Done in Hrun as ([] & w1 & Hloop & Hself).
  assert (∀ done v v1, for_each done (stop n) v = Done tt v1 →
    ∀ c q, c ∈ done → reach (heap v1) c q → released (heap v1) q) as Hdone.
  { clear -IH. intros done.
    induction done as [|c cs IHcs]; intros w w1 Hloop c' q Hc' Hq;
      [by apply elem_of_nil in Hc'|].
    simpl in Hloop. apply bind_Done in Hloop as ([] & w2 & Hc & Hloop).
    pose proof (preserves_for_each (λ _, 0%nat) keeps_stop keeps_stop_consumers nothing cs (stop n)
      (λ c _, stop_evolves (λ _, 0%nat) n c) _ _ _ Hloop) as [He _].
    apply elem_of_cons in Hc' as [->|Hc'].
    - apply (reach_evolves _ _ _ _ _ keeps_stop_consumers He) in Hq.
      eapply released_evolves; [exact He|]. by eapply IH.
    - eapply (IHcs w2); eauto. }
  pose proof (stop_self_effect (λ _, 0%nat) nothing p (λ H, H) _ _ _ Hself) as [He _].
  intros q Hq. inversion Hq as [|? b' c ? Hp' Hc' Hq']; subst.
  - by eapply stop_self_released.
  - eapply released_evolves; [exact He|].
    destruct (evolves_lookup_inv _ _ _ _ _ He Hp') as (b1 & Hb1 & Hk).
    pose proof (preserves_for_each (λ _, 0%nat) keeps_stop keeps_stop_consumers nothing _ (stop n)
      (λ c _, stop_evolves (λ _, 0%nat) n c) _ _ _ Hloop) as [He0 _].
    destruct (evolves_lookup _ _ _ _ _ He0 Hb) as (b1' & Hb1' & Hk0).
    assert (b1' = b1) as -> by congruence.
    eapply (Hdone _ _ _ Hloop c).
    + rewrite <- (keeps_stop_consumers _ _ Hk0),
        <- (keeps_stop_consumers _ _ Hk). done.
    + by apply (reach_evolves _ _ _ _ _ keeps_stop_consumers He).
Qed.








#[local] Instance anything_preorder : PreOrder (λ _ _ : world, True).
Proof. by split. Qed.

(** C1: when the local part of [start] succeeded and [start] still returns
    failure, some consumer failed to start, the block called its own [stop]
    right after that, and in the final store the block and every block
    downstream of it are not running. *)
Theorem start_failure_stops_subtree n p (w w1 w' : world) :
  start_self p w = Done true w1 →
  start (S n) p w = Done false w' →
  (∃ b c v v', heap w1 !! p = Some b ∧ c ∈ consumers b
     ∧ start n c v = Done false v'
     ∧ stop (S n) p (logged v' [Log ERROR p DownstreamFailed]) = Done tt w')
  ∧ ∀ q, reach (heap w') p q → running (heap w') q = false.
Proof.
  intros Hself Hrun. rewrite start_S in Hrun.
  rewrite (bind_eq _ _ _ _ _ Hself) in Hrun. cbn [negb] in Hrun.
  apply bind_Done in Hrun as (b & ? & [Hb ->]%deref_Done & Hrun).
  apply (start_downstream_inv (λ _ _, True)) in Hrun
    as (w3 & _ & c & v & Hc & Hfail & Hstop); [|done..].
  split; [by exists b, c, v, w3|].
  intros q Hq. apply released_not_running. by eapply stop_releases.
Qed.

(** ** The local part of [run] *)

Lemma process_eq p inBuffer (w : world) b input :
  heap w !! p = Some b →
  read inBuffer w = Done input w →
  let r := process_hook p b input (buffer b) in
  process p inBuffer w =
  Done (process_ok r)
    (logged (with_block p (set_stage (process_stage r) (set_buffer (process_out r) b)) w)
       [CallProcess p input]).
Proof.
  intros Hb Hin r. unfold process. rewrite (bind_eq _ _ _ _ _ Hin).
  exec. unfold mret, M_ret. by tidy.
Qed.

Lemma run_self_stopped p inBuffer (w : world) b :
  heap w !! p = Some b → isRunning b = false →
  run_self p inBuffer w = Done false (logged w [Log ERROR p PipelineNotStarted]).
Proof. intros Hb Hoff. unfold run_self. exec. rewrite Hoff. cbn [negb]. by exec. Qed.

Lemma run_self_resize p inBuffer (w : world) b input :
  heap w !! p = Some b → isRunning b = true →
  read inBuffer w = Done input w →
  inputChannels b ≠ 0 → decimation b ≠ 0 →
  run_self p inBuffer w =
  (ok ← process p inBuffer;
   if negb ok then LOG_ERROR p PipelineFailed;; mret false else mret true)
    (resized p b input w).
Proof.
  intros Hb Hon Hin Hch Hdec. unfold run_self. exec. rewrite Hon. cbn [negb].
  rewrite (bind_eq _ _ _ _ _ Hin). exec. unfold resized, wanted, outframes, inframes.
  destruct (decide (_ ≠ _)); by exec.
Qed.

Lemma run_self_undefined p input (w : world) b :
  heap w !! p = Some b → isRunning b = true → inputChannels b = 0 →
  run_self p (Extern input) w = Undefined.
Proof.
  intros Hb Hon Hch. unfold run_self. exec. rewrite Hon, Hch. cbn [negb read].
  rewrite bind_ret. by rewrite (bind_undefined _ _ _ (udiv_zero _ _)).
Qed.

Lemma rated_fields (b : DspBlock) :
  inputSampleRate (rated b) = inputSampleRate b
  ∧ outputSampleRate (rated b) = outputSampleRate b
  ∧ inputChannels (rated b) = inputChannels b
  ∧ outputChannels (rated b) = outputChannels b
  ∧ isRunning (rated b) = isRunning b
  ∧ consumers (rated b) = consumers b
  ∧ buffer (rated b) = buffer b.
Proof.
  unfold rated.
  by destruct (decide (outputSampleRate b ≤ inputSampleRate b)).
Qed.

Lemma rated_rates (b : DspBlock) :
  decimation (rated b) =
    (if decide (outputSampleRate b ≤ inputSampleRate b)
     then inputSampleRate b / outputSampleRate b else 1)
  ∧ interpolation (rated b) =
    (if decide (outputSampleRate b ≤ inputSampleRate b)
     then 1 else outputSampleRate b / inputSampleRate b).
Proof.
  unfold rated.
  by destruct (decide (outputSampleRate b ≤ inputSampleRate b)).
Qed.

Lemma start_self_defined p (w : world) b :
  heap w !! p = Some b →
  init_ok (init_hook p (seeded b)) = true →
  inputSampleRate b ≠ 0 → init_rate (init_hook p (seeded b)) ≠ 0 →
  ∃ ok w1 b1, start_self p w = Done ok w1 ∧ heap w1 !! p = Some b1
    ∧ config b1 = config (rated (initialised p b))
    ∧ isRunning b1 = (ok || isRunning b)
    ∧ buffer b1 = buffer b
    ∧ (ok = true ↔
       reconstructed (rated (initialised p b))
       = outputSampleRate (rated (initialised p b))).
Proof.
  intros Hb Hok Hin Hout.
  pose proof (start_self_rated p w b Hb Hok Hin Hout) as Heq. cbv zeta in Heq.
  destruct (rated_fields (initialised p b)) as (_ & _ & _ & _ & Hrun & _ & Hbuf).
  destruct (decide (_ ≠ _)) as [Hne|Heq'].
  - eexists false, _, _. split; [exact Heq|].
    split; [apply lookup_insert_eq|]. by repeat split.
  - eexists true, _, _. split; [exact Heq|].
    split; [apply lookup_insert_eq|]. repeat split; try done.
    intros _. by apply dec_stable.
Qed.

Lemma resized_lookup p (b : DspBlock) input (w : world) :
  heap w !! p = Some b →
  ∃ b1, heap (resized p b input w) !! p = Some b1
    ∧ config b1 = config b ∧ isRunning b1 = isRunning b ∧ stage b1 = stage b
    ∧ N.of_nat (length (buffer b1)) = wanted b input.
Proof.
  intros Hb. unfold resized.
  destruct (decide (N.of_nat (length (buffer b)) ≠ wanted b input)) as [Hne|Heq].
  - eexists. split; [apply lookup_insert_eq|]. repeat split.
    cbn [buffer set_buffer]. rewrite length_resize. apply N2Nat.id.
  - exists b. repeat split; [done|]. by apply dec_stable.
Qed.


Lemma read_after (keeps : relation DspBlock) inBuffer (w w' : world) input :
  evolves keeps (heap w) (heap w') →
  read inBuffer w = Done input w →
  ∃ input', read inBuffer w' = Done input' w'.
Proof.
  intros He. destruct inBuffer as [v|q]; simpl; [by eexists|].
  intros (bq & ? & [Hq ->]%deref_Done & _)%bind_Done.
  destruct (evolves_lookup _ _ _ _ _ He Hq) as (bq' & Hq' & _).
  exists (buffer bq'). by rewrite (bind_eq _ _ _ _ _ (deref_eq _ _ _ Hq')).
Qed.

Lemma resized_evolves p (b : DspBlock) input (w : world) :
  heap w !! p = Some b → evolves keeps_run (heap w) (heap (resized p b input w)).
Proof.
  intros Hb. unfold resized.
  destruct (decide (N.of_nat (length (buffer b)) ≠ wanted b input)).
  - cbn [heap logged with_block]. by apply (evolves_insert keeps_run _ _ b).
  - apply (evolves_refl keeps_run).
Qed.

Lemma run_self_returns p inBuffer (w : world) b input :
  heap w !! p = Some b → isRunning b = true →
  read inBuffer w = Done input w →
  inputChannels b ≠ 0 → decimation b ≠ 0 →
  ∃ ok w1, run_self p inBuffer w = Done ok w1.
Proof.
  intros Hb Hon Hin Hch Hdec.
  rewrite (run_self_resize p inBuffer w b input Hb Hon Hin Hch Hdec).
  destruct (resized_lookup p b input w Hb) as (b1 & Hb1 & _).
  destruct (read_after keeps_run inBuffer w _ input (resized_evolves p b input w Hb) Hin)
    as [input' Hin'].
  rewrite (bind_eq _ _ _ _ _ (process_eq p inBuffer _ b1 input' Hb1 Hin')).
  destruct (negb _); [|by eexists _, _].
  unfold LOG_ERROR. rewrite (bind_eq _ _ _ _ _ (emit_eq _ _)). by eexists _, _.
Qed.

(** C10: with an accepting [init], the local part of [start] returns exactly
    when the input rate and the output rate left by [init] are both positive,
    and divides by zero otherwise; after a successful local start the local
    part of [run] returns exactly when the input channel count is positive,
    and divides by zero otherwise.  Nothing in between tests these values. *)
Theorem divisions_defined_iff_positive p (w : world) b :
  heap w !! p = Some b →
  init_ok (init_hook p (seeded b)) = true →
  ((∃ ok w1, start_self p w = Done ok w1) ↔
     0 < inputSampleRate b ∧ 0 < init_rate (init_hook p (seeded b)))
  ∧ (inputSampleRate b = 0 ∨ init_rate (init_hook p (seeded b)) = 0 →
     start_self p w = Undefined)
  ∧ (∀ w1 input, start_self p w = Done true w1 →
       ((∃ ok w2, run_self p (Extern input) w1 = Done ok w2) ↔ 0 < inputChannels b)
       ∧ (inputChannels b = 0 → run_self p (Extern input) w1 = Undefined)).
Proof.
  intros Hb Hok.
  assert (inputSampleRate b ≠ 0 → init_rate (init_hook p (seeded b)) ≠ 0 →
    ∃ ok w1 b1, start_self p w = Done ok w1 ∧ heap w1 !! p = Some b1
      ∧ inputChannels b1 = inputChannels b ∧ decimation b1 ≠ 0
      ∧ isRunning b1 = (ok || isRunning b)) as Hdefined.
  { intros Hin Hout.
    destruct (start_self_defined p w b Hb Hok Hin Hout)
      as (ok & w1 & b1 & Heq & Hb1 & Hcfg & Hrun & _).
    exists ok, w1, b1. do 2 (split; [done|]).
    unfold config in Hcfg. injection Hcfg; intros _ _ Hd _ _ Hc _.
    rewrite Hc, Hd. split; [|split; [|done]].
    - by destruct (rated_fields (initialised p b)) as (_ & _ & -> & _).
    - by apply rated_decimation_pos. }
  pose proof (start_self_undefined p w b Hb Hok) as Hundefined.
  split; [|split; [done|]].
  - split.
    + intros (ok & w1 & Heq).
      destruct (decide (inputSampleRate b = 0)) as [Hin0|Hin];
        [by rewrite (Hundefined (or_introl Hin0)) in Heq|].
      destruct (decide (init_rate (init_hook p (seeded b)) = 0)) as [Hout0|Hout];
        [by rewrite (Hundefined (or_intror Hout0)) in Heq|].
      lia.
    + intros [Hin Hout].
      destruct Hdefined as (ok & w1 & _ & Heq & _); [lia..|]. by exists ok, w1.
  - intros w1 input Hself.
    destruct (decide (inputSampleRate b = 0)) as [Hin0|Hin];
      [by rewrite (Hundefined (or_introl Hin0)) in Hself|].
    destruct (decide (init_rate (init_hook p (seeded b)) = 0)) as [Hout0|Hout];
      [by rewrite (Hundefined (or_intror Hout0)) in Hself|].
    destruct (Hdefined Hin Hout) as (ok & w1' & b1 & Heq & Hb1 & Hch & Hdec & Hrun).
    rewrite Heq in Hself. injection Hself; intros -> ->. cbn [orb] in Hrun.
    assert (inputChannels b = 0 → run_self p (Extern input) w1 = Undefined) as Hzero.
    { intros Hz. apply (run_self_undefined p input w1 b1 Hb1); congruence. }
    split; [|done]. split.
    + intros (ok & w2 & Heq2).
      destruct (decide (inputChannels b = 0)) as [Hz|Hnz]; [|lia].
      by rewrite (Hzero Hz) in Heq2.
    + intros Hpos.
      apply (run_self_returns p (Extern input) w1 b1 input); try done.
      rewrite Hch. lia.
Qed.

(** ** The rates [start] leaves behind *)

Lemma start_keeps_own_config rank n p (w : world) b r w' :
  ranked rank (heap w) → heap w !! p = Some b →
  init_ok (init_hook p (seeded b)) = true →
  start (S n) p w = Done r w' →
  ∃ b', heap w' !! p = Some b' ∧ config b' = config (rated (initialised p b)).
Proof.
  intros Hr Hb Hok Hrun.
  destruct (start_inv rank n p w r w' Hr Hrun) as (ok & w1 & Hself & Hrest).
  destruct (decide (inputSampleRate b = 0)) as [Hin0|Hin];
    [by rewrite (start_self_undefined p w b Hb Hok (or_introl Hin0)) in Hself|].
  destruct (decide (init_rate (init_hook p (seeded b)) = 0)) as [Hout0|Hout];
    [by rewrite (start_self_undefined p w b Hb Hok (or_intror Hout0)) in Hself|].
  destruct (start_self_defined p w b Hb Hok Hin Hout)
    as (ok' & w1' & b1 & Heq & Hb1 & Hcfg & _).
  rewrite Heq in Hself. injection Hself; intros -> ->.
  destruct ok; [|destruct Hrest as [_ ->]; eauto].
  destruct Hrest as (b1' & w3 & _ & [He Hf] & Hend).
  assert (ranked rank (heap w1)) as Hr1.
  { eapply (evolves_ranked rank keeps_start keeps_start_consumers); [|exact Hr].
    eapply (start_self_effect rank nothing p); [by intros []|exact Heq]. }
  assert (heap w3 !! p = Some b1) as Hb3.
  { rewrite (Hf Hr1 p); [done|]. unfold above. lia. }
  destruct r; [subst w'; eauto|].
  destruct Hend as (c & v & _ & _ & Hstop).
  pose proof (stop_evolves rank (S n) p _ _ _ Hstop) as [Hes _].
  destruct (evolves_lookup _ _ _ _ _ Hes Hb3) as (b' & Hb' & Hc' & _).
  exists b'. split; [done|]. congruence.
Qed.

Lemma config_carries_rates p (b b' : DspBlock) :
  config b' = config (rated (initialised p b)) →
  carries_rates (inputSampleRate b) (init_rate (init_hook p (seeded b))) b'.
Proof.
  intros Hcfg. unfold config in Hcfg. injection Hcfg; intros _ Hi Hd _ Hout _ Hin.
  destruct (rated_fields (initialised p b)) as (Hrin & Hrout & _).
  destruct (rated_rates (initialised p b)) as [Hdec Hint].
  unfold carries_rates. rewrite Hin, Hout, Hd, Hi, Hrin, Hrout, Hdec, Hint. done.
Qed.

(** C2: when [init] accepts, [start] leaves in the block the decimation and
    interpolation computed from the input rate and the output rate set by
    [init]: input / output and 1 when the input rate is at least the output
    rate, 1 and output / input otherwise.  The local part of [start] returns
    with these values when both rates are positive, and they are still there
    whenever [start] returns.  48000 to 8000 gives 6 and 1; 8000 to 48000
    gives 1 and 6. *)
Theorem start_computes_rates rank n p (w : world) b :
  ranked rank (heap w) → heap w !! p = Some b →
  init_ok (init_hook p (seeded b)) = true →
  let input := inputSampleRate b in
  let output := init_rate (init_hook p (seeded b)) in
  (0 < input → 0 < output →
     ∃ ok w1 b1, start_self p w = Done ok w1 ∧ heap w1 !! p = Some b1
       ∧ carries_rates input output b1)
  ∧ (∀ r w', start (S n) p w = Done r w' →
       ∃ b', heap w' !! p = Some b' ∧ carries_rates input output b'
         ∧ (input = 48000 → output = 8000 →
            decimation b' = 6 ∧ interpolation b' = 1)
         ∧ (input = 8000 → output = 48000 →
            decimation b' = 1 ∧ interpolation b' = 6)).
Proof.
  intros Hr Hb Hok input output. split.
  - intros Hin Hout.
    destruct (start_self_defined p w b Hb Hok) as (ok & w1 & b1 & Heq & Hb1 & Hcfg & _);
      [fold input; lia|fold output; lia|].
    exists ok, w1, b1. do 2 (split; [done|]). by apply config_carries_rates.
  - intros r w' Hrun.
    destruct (start_keeps_own_config rank n p w b r w' Hr Hb Hok Hrun)
      as (b' & Hb' & Hcfg).
    exists b'. split; [done|].
    pose proof (config_carries_rates p b b' Hcfg) as Hrates. fold input output in Hrates.
    split; [done|]. destruct Hrates as (_ & _ & Hd & Hi).
    clearbody input output.
    split; intros -> ->; rewrite Hd, Hi; by vm_compute.
Qed.

(** ** The integer-ratio check *)

(** C3, as the code has it: when [init] accepts and the rates are not zero, a
    failed reconstruction makes [start] return failure right after calling
    [deinit], with the running flag left as it was; when the reconstruction
    succeeds, [start] fails only because a consumer failed to start, and a
    block without consumers starts.  44100 to 48000 is such a failed
    reconstruction. *)
Theorem start_checks_integer_ratio n p (w : world) b :
  heap w !! p = Some b →
  init_ok (init_hook p (seeded b)) = true →
  inputSampleRate b ≠ 0 → init_rate (init_hook p (seeded b)) ≠ 0 →
  let b2 := rated (initialised p b) in
  (reconstructed b2 ≠ outputSampleRate b2 →
     start (S n) p w =
     Done false
       (logged (with_block p (set_stage (deinit_hook p b2) b2) w)
          [Log DEBUG p StartingBlock; CallInit p;
           Log ERROR p NotIntegerRelated; CallDeinit p])
     ∧ isRunning (set_stage (deinit_hook p b2) b2) = isRunning b)
  ∧ (reconstructed b2 = outputSampleRate b2 →
       (∀ w', start (S n) p w = Done false w' →
          ∃ c v v', c ∈ consumers b ∧ start n c v = Done false v')
       ∧ (consumers b = [] →
          start (S n) p w =
          Done true
            (logged (with_block p (set_isRunning true b2) w)
               [Log DEBUG p StartingBlock; CallInit p])))
  ∧ (inputSampleRate b = 44100 → init_rate (init_hook p (seeded b)) = 48000 →
       reconstructed b2 ≠ outputSampleRate b2).
Proof.
  intros Hb Hok Hin Hout b2.
  pose proof (start_self_rated p w b Hb Hok Hin Hout) as Hself. cbv zeta in Hself.
  fold b2 in Hself.
  destruct (rated_fields (initialised p b)) as (Hrin & Hrout & _ & _ & Hrun & Hcs & _).
  fold b2 in Hrin, Hrout, Hrun, Hcs.
  split; [|split].
  - intros Hne. destruct (decide (reconstructed b2 ≠ outputSampleRate b2)); [|done].
    split; [|exact Hrun]. rewrite start_S, (bind_eq _ _ _ _ _ Hself). done.
  - intros Heq. destruct (decide (reconstructed b2 ≠ outputSampleRate b2)); [done|].
    split.
    + intros w' Hrun'. rewrite start_S, (bind_eq _ _ _ _ _ Hself) in Hrun'.
      cbn [negb] in Hrun'.
      apply bind_Done in Hrun' as (b1 & ? & [Hb1 ->]%deref_Done & Hrun').
      cbn [heap logged with_block] in Hb1. rewrite lookup_insert_eq in Hb1.
      injection Hb1; intros <-.
      apply (start_downstream_inv (λ _ _, True)) in Hrun'
        as (w3 & _ & c & v & Hc & Hfail & _); [|done..].
      exists c, v, w3. split; [|done].
      cbn [consumers set_isRunning] in Hc. rewrite Hcs in Hc. exact Hc.
    + intros Hnil. rewrite start_S, (bind_eq _ _ _ _ _ Hself). cbn [negb].
      exec. cbn [consumers set_isRunning]. rewrite Hcs.
      change (consumers (initialised p b)) with (consumers b). by rewrite Hnil.
  - intros H44 H48. unfold reconstructed. rewrite Hrout, Hrin.
    destruct (rated_rates (initialised p b)) as [Hd Hi]. fold b2 in Hd, Hi.
    rewrite Hd, Hi.
    change (inputSampleRate (initialised p b)) with (inputSampleRate b).
    change (outputSampleRate (initialised p b)) with (init_rate (init_hook p (seeded b))).
    rewrite H44, H48. by vm_compute.
Qed.

(** ** [run] *)

(** C8: [run] on a block that is not running returns failure and leaves the
    store as it was: no resize, no call of [process], no consumer run.  The
    error record in the log is all it adds. *)
Theorem run_rejected_when_stopped n p inBuffer (w : world) b :
  heap w !! p = Some b → isRunning b = false →
  run (S n) p inBuffer w = Done false (logged w [Log ERROR p PipelineNotStarted]).
Proof.
  intros Hb Hoff.
  by rewrite run_S, (bind_eq _ _ _ _ _ (run_self_stopped p inBuffer w b Hb Hoff)).
Qed.

Section Sized.

(** The contract of [process]: the output block keeps the size the base
    class gave it. *)
Hypothesis process_keeps_size : ∀ q (bq : DspBlock) input output,
  length (process_out (process_hook q bq input output)) = length output.

Lemma run_self_sized p inBuffer (w : world) b input ok w1 :
  heap w !! p = Some b → isRunning b = true →
  read inBuffer w = Done input w →
  inputChannels b ≠ 0 → decimation b ≠ 0 →
  run_self p inBuffer w = Done ok w1 →
  ∃ b1, heap w1 !! p = Some b1 ∧ config b1 = config b ∧ isRunning b1 = true
    ∧ N.of_nat (length (buffer b1)) = wanted b input.
Proof.
  intros Hb Hon Hin Hch Hdec Hrun.
  rewrite (run_self_resize p inBuffer w b input Hb Hon Hin Hch Hdec) in Hrun.
  destruct (resized_lookup p b input w Hb) as (b1 & Hb1 & Hcfg & Hrun1 & _ & Hlen).
  destruct (read_after keeps_run inBuffer w _ input (resized_evolves p b input w Hb) Hin)
    as [input' Hin'].
  rewrite (bind_eq _ _ _ _ _ (process_eq p inBuffer _ b1 input' Hb1 Hin')) in Hrun.
  assert (∃ t, w1 = logged (with_block p
     (set_stage (process_stage (process_hook p b1 input' (buffer b1)))
       (set_buffer (process_out (process_hook p b1 input' (buffer b1))) b1))
     (resized p b input w)) t) as [t ->].
  { destruct (negb _); invert_M; rewrite ?logged_logged; by eexists. }
  eexists. split; [apply lookup_insert_eq|].
  cbn [buffer set_stage set_buffer isRunning]. repeat split; [done|congruence|].
  by rewrite process_keeps_size.
Qed.



End Sized.

Lemma fed_run_downstream n p buf cs (w : world) r w' :
  fed n p buf cs w r w' → run_downstream (run n) p cs w = Done r w'.
Proof.
  induction 1 as [w|c cs w w' _ Hc|c cs w w' r w'' _ Hc _ IH]; simpl.
  - done.
  - by rewrite (bind_eq _ _ _ _ _ Hc).
  - by rewrite (bind_eq _ _ _ _ _ Hc).
Qed.

Lemma run_downstream_fed rank n p b1 cs :
  ∀ (w : world) r w',
    ranked rank (heap w) → heap w !! p = Some b1 →
    (∀ c, c ∈ cs → (rank c < rank p)%nat) →
    run_downstream (run n) p cs w = Done r w' →
    fed n p (buffer b1) cs w r w'.
Proof.
  induction cs as [|c cs IH]; intros w r w' Hr Hb Hlt Hrun; simpl in Hrun.
  - invert_M. constructor.
  - apply bind_Done in Hrun as (ok & w2 & Hc & Hrun).
    assert (buffer <$> heap w !! p = Some (buffer b1)) as Hbuf by by rewrite Hb.
    destruct ok; cbn [negb] in Hrun; [|invert_M; by apply fed_failed].
    pose proof (run_effect rank n c _ _ _ _ Hc) as [He Hf].
    eapply fed_next; [done|exact Hc|]. apply IH; try done.
    + by eapply (evolves_ranked rank keeps_run keeps_run_consumers).
    + rewrite (Hf Hr p); [done|]. assert (rank c < rank p)%nat by (apply Hlt; by left).
      split; [intros ->|]; lia.
    + intros c' Hc'. apply Hlt. by right.
Qed.

(** C5: once the local part of [run] succeeded, [run] hands the buffer it
    just produced to each consumer in list order, and returns the failure of
    the first consumer that fails, in the world that consumer left: the later
    consumers are not run and the earlier ones are not undone. *)
Theorem run_feeds_consumers_in_order rank n p inBuffer (w w1 : world) b1 r w' :
  ranked rank (heap w) →
  run_self p inBuffer w = Done true w1 →
  heap w1 !! p = Some b1 →
  run (S n) p inBuffer w = Done r w' ↔ fed n p (buffer b1) (consumers b1) w1 r w'.
Proof.
  intros Hr Hself Hb1. rewrite run_S, (bind_eq _ _ _ _ _ Hself). cbn [negb].
  rewrite (bind_eq _ _ _ _ _ (deref_eq _ _ _ Hb1)).
  split; [|apply fed_run_downstream].
  assert (ranked rank (heap w1)) as Hr1.
  { eapply (evolves_ranked rank keeps_run keeps_run_consumers); [|exact Hr].
    eapply (run_self_effect rank nothing p); [by intros []|exact Hself]. }
  apply (run_downstream_fed rank); try done.
  intros c Hc. by eapply ranked_consumers.
Qed.

(** ** [connect] and [disconnect] *)

Lemma connect_inv fuel p t (w : world) u w' :
  connect fuel p t w = Done u w' →
  ∃ b w1 b1,
    heap w !! p = Some b
    ∧ (if isRunning b then ∃ r, start fuel t w = Done r w1 else w1 = w)
    ∧ heap w1 !! p = Some b1
    ∧ w' =
      if decide (t ∈ consumers b1) then logged w1 [Log ERROR p (AlreadyConnected t)]
      else logged (with_block p (set_consumers (consumers b1 ++ [t]) b1) w1)
             [Log DEBUG p (AddedConsumer t)].
Proof.
  unfold connect. intros Hrun.
  apply bind_Done in Hrun as (b & ? & [Hb ->]%deref_Done & Hrun).
  apply bind_Done in Hrun as ([] & w1 & Hstart & Hrun).
  apply bind_Done in Hrun as (b1 & ? & [Hb1 ->]%deref_Done & Hrun).
  exists b, w1, b1. split; [done|]. split.
  - destruct (isRunning b); invert_M; eauto.
  - clear Hstart. split; [done|]. destruct (decide (t ∈ consumers b1)).
    + by invert_M.
    + invert_M.
      match goal with H : heap w1 !! p = Some ?x |- _ =>
        assert (x = b1) as -> by congruence end.
      done.
Qed.

Lemma connect_eq fuel p t (w w1 : world) b b1 :
  heap w !! p = Some b →
  (if isRunning b then ∃ r, start fuel t w = Done r w1 else w1 = w) →
  heap w1 !! p = Some b1 →
  connect fuel p t w =
  Done tt
    (if decide (t ∈ consumers b1) then logged w1 [Log ERROR p (AlreadyConnected t)]
     else logged (with_block p (set_consumers (consumers b1 ++ [t]) b1) w1)
            [Log DEBUG p (AddedConsumer t)]).
Proof.
  intros Hb Hstart Hb1. unfold connect. exec.
  assert ((if isRunning b then start fuel t ≫= λ _, mret tt else mret tt) w
          = Done tt w1) as Hfirst.
  { destruct (isRunning b); [|by subst].
    destruct Hstart as [r Hstart]. by rewrite (bind_eq _ _ _ _ _ Hstart). }
  rewrite (bind_eq _ _ _ _ _ Hfirst). exec.
  destruct (decide (t ∈ consumers b1)); by exec.
Qed.

Lemma connect_iff fuel p t (w : world) b w' :
  heap w !! p = Some b →
  connect fuel p t w = Done tt w' ↔
  ∃ w1 b1,
    (if isRunning b then ∃ r, start fuel t w = Done r w1 else w1 = w)
    ∧ heap w1 !! p = Some b1
    ∧ w' =
      if decide (t ∈ consumers b1) then logged w1 [Log ERROR p (AlreadyConnected t)]
      else logged (with_block p (set_consumers (consumers b1 ++ [t]) b1) w1)
             [Log DEBUG p (AddedConsumer t)].
Proof.
  intros Hb. split.
  - intros (b0 & w1 & b1 & Hb0 & Hstart & Hb1 & ->)%connect_inv.
    assert (b0 = b) as -> by congruence. by exists w1, b1.
  - intros (w1 & b1 & Hstart & Hb1 & ->). by apply (connect_eq fuel p t w w1 b b1).
Qed.

Lemma connect_present fuel p t (w : world) u w' b :
  heap w !! p = Some b → t ∈ consumers b →
  connect fuel p t w = Done u w' →
  ∃ w1, (if isRunning b then ∃ r, start fuel t w = Done r w1 else w1 = w)
    ∧ evolves keeps_start (heap w) (heap w1)
    ∧ w' = logged w1 [Log ERROR p (AlreadyConnected t)].
Proof.
  intros Hb Ht (b0 & w1 & b1 & Hb0 & Hstart & Hb1 & ->)%connect_inv.
  assert (b0 = b) as -> by congruence.
  assert (evolves keeps_start (heap w) (heap w1)) as He.
  { destruct (isRunning b).
    - destruct Hstart as [r Hstart].
      eapply (start_evolves (λ _, 0%nat) fuel t), Hstart.
    - subst w1. apply (evolves_refl keeps_start). }
  destruct (evolves_lookup _ _ _ _ _ He Hb) as (b1' & Hb1' & Hk).
  assert (b1' = b1) as -> by congruence.
  destruct (decide (t ∈ consumers b1)) as [_|Hnot]; [|by rewrite Hk in Hnot].
  by exists w1.
Qed.

Lemma duplicate_free_evolves (keeps : relation DspBlock) (h h' : gmap ptr DspBlock) :
  (∀ b b', keeps b b' → consumers b' = consumers b) →
  evolves keeps h h' → duplicate_free h → duplicate_free h'.
Proof.
  intros Hc He Hnd x b' Hx.
  destruct (evolves_lookup_inv _ _ _ _ _ He Hx) as (b & Hb & Hk).
  rewrite (Hc _ _ Hk). by eapply Hnd.
Qed.

Lemma connect_duplicate_free fuel p t (w : world) u w' :
  connect fuel p t w = Done u w' →
  duplicate_free (heap w) → duplicate_free (heap w').
Proof.
  intros (b & w1 & b1 & Hb & Hstart & Hb1 & ->)%connect_inv Hnd.
  assert (duplicate_free (heap w1)) as Hnd1.
  { destruct (isRunning b); [|by subst].
    destruct Hstart as [r Hstart].
    apply (duplicate_free_evolves keeps_start (heap w) (heap w1)
      keeps_start_consumers); [|exact Hnd].
    eapply (start_evolves (λ _, 0%nat) fuel t), Hstart. }
  destruct (decide (t ∈ consumers b1)) as [Hin|Hnot]; [done|].
  intros x bx Hx. cbn [heap logged with_block] in Hx.
  destruct (decide (x = p)) as [->|Hne].
  - rewrite lookup_insert_eq in Hx. injection Hx; intros <-.
    cbn [consumers set_consumers]. apply NoDup_app. split; [by eapply Hnd1|].
    split; [|apply NoDup_singleton].
    intros y Hy ->%list_elem_of_singleton. done.
  - rewrite lookup_insert_ne in Hx by done. by eapply Hnd1.
Qed.

Lemma disconnect_duplicate_free fuel p t (w : world) u w' :
  disconnect fuel p t w = Done u w' →
  duplicate_free (heap w) → duplicate_free (heap w').
Proof.
  unfold disconnect. intros Hrun Hnd.
  apply bind_Done in Hrun as (b & ? & [Hb ->]%deref_Done & Hrun).
  apply bind_Done in Hrun as ([] & w1 & Hstop & Hrun).
  assert (duplicate_free (heap w1)) as Hnd1.
  { destruct (isRunning b); [|by invert_M].
    apply (duplicate_free_evolves keeps_stop (heap w) (heap w1)
      keeps_stop_consumers); [|exact Hnd].
    eapply (stop_evolves (λ _, 0%nat) fuel t), Hstop. }
  clear Hstop. invert_M. intros q bq Hq. cbn [heap logged with_block] in Hq.
  destruct (decide (q = p)) as [->|Hne].
  - rewrite lookup_insert_eq in Hq. injection Hq; intros <-.
    cbn [consumers set_consumers]. apply NoDup_filter. by eapply Hnd1.
  - rewrite lookup_insert_ne in Hq by done. by eapply Hnd1.
Qed.

Lemma create_duplicate_free p st (w : world) u w' :
  create p st w = Done u w' → duplicate_free (heap w) → duplicate_free (heap w').
Proof.
  unfold create, store. destruct (heap w !! p) eqn:Hp; [done|].
  intros Heq Hnd q bq Hq. injection Heq; intros <- _. cbn [heap] in Hq.
  destruct (decide (q = p)) as [->|Hne].
  - rewrite lookup_insert_eq in Hq. injection Hq; intros <-. cbn. constructor.
  - rewrite lookup_insert_ne in Hq by done. exact (Hnd _ _ Hq).
Qed.

Lemma delete_duplicate_free fuel p (w : world) u w' :
  DspBlock_delete fuel p w = Done u w' →
  duplicate_free (heap w) → duplicate_free (heap w').
Proof.
  unfold DspBlock_delete. intros Hrun Hnd.
  apply bind_Done in Hrun as (b & ? & [Hb ->]%deref_Done & Hrun).
  apply bind_Done in Hrun as ([] & w1 & Hstop & Hrun).
  assert (duplicate_free (heap w1)) as Hnd1.
  { destruct (isRunning b); [|by invert_M].
    apply (duplicate_free_evolves keeps_stop (heap w) (heap w1)
      keeps_stop_consumers); [|exact Hnd].
    eapply (stop_evolves (λ _, 0%nat) fuel p), Hstop. }
  unfold free in Hrun. injection Hrun; intros <- _. intros q bq Hq. cbn [heap] in Hq.
  apply lookup_delete_Some in Hq as [_ Hq]. exact (Hnd1 _ _ Hq).
Qed.

Lemma perform_duplicate_free fuel c (w : world) u w' :
  perform fuel c w = Done u w' → duplicate_free (heap w) → duplicate_free (heap w').
Proof.
  destruct c as [p st|p|p t|p t|p|p|p input|p rate|p channels]; simpl; intros Hrun.
  - by eapply create_duplicate_free.
  - by eapply delete_duplicate_free.
  - by eapply connect_duplicate_free.
  - by eapply disconnect_duplicate_free.
  - apply bind_Done in Hrun as (r & w1 & Hstart & [_ <-]%ret_Done).
    apply (duplicate_free_evolves keeps_start _ _ keeps_start_consumers).
    eapply (start_evolves (λ _, 0%nat) fuel p), Hstart.
  - apply (duplicate_free_evolves keeps_stop _ _ keeps_stop_consumers).
    eapply (stop_evolves (λ _, 0%nat) fuel p), Hrun.
  - apply bind_Done in Hrun as (r & w1 & Hr & [_ <-]%ret_Done).
    apply (duplicate_free_evolves keeps_run _ _ keeps_run_consumers).
    eapply (run_evolves (λ _, 0%nat) fuel p), Hr.
  - apply (duplicate_free_evolves keeps_start _ _ keeps_start_consumers).
    eapply (setSampleRate_effect (λ _, 0%nat) nothing p rate), Hrun. by intros [].
  - apply (duplicate_free_evolves keeps_start _ _ keeps_start_consumers).
    eapply (setChannels_effect (λ _, 0%nat) nothing p channels), Hrun. by intros [].
Qed.

Lemma perform_all_duplicate_free fuel cs :
  ∀ (w : world) u w',
    perform_all fuel cs w = Done u w' →
    duplicate_free (heap w) → duplicate_free (heap w').
Proof.
  induction cs as [|c cs IH]; intros w u w' Hrun Hnd; simpl in Hrun.
  - by invert_M.
  - apply bind_Done in Hrun as ([] & w1 & Hc & Hrun).
    eapply IH; [exact Hrun|]. by eapply perform_duplicate_free.
Qed.

(** C4, as the code has it: [connect] of a block that is already a consumer
    changes no consumer list.  On a stopped block it returns having changed
    nothing but the log; on a running block it runs [start] on the target once
    more and then finds the target among the consumers.  [connect] keeps
    consumer lists free of duplicates and leaves the target connected, so no
    pipeline built by the drivers from nothing ever holds a block twice in a
    consumer list. *)
Theorem connect_is_idempotent_and_duplicate_free fuel p t (w : world) b :
  heap w !! p = Some b →
  (t ∈ consumers b → isRunning b = false →
     connect fuel p t w = Done tt (logged w [Log ERROR p (AlreadyConnected t)]))
  ∧ (t ∈ consumers b → isRunning b = true →
     ∀ w', connect fuel p t w = Done tt w' ↔
       ∃ r w1, start fuel t w = Done r w1
         ∧ w' = logged w1 [Log ERROR p (AlreadyConnected t)])
  ∧ (∀ u w', connect fuel p t w = Done u w' →
       (t ∈ consumers b →
          ∀ x, consumers <$> heap w' !! x = consumers <$> heap w !! x)
       ∧ (duplicate_free (heap w) →
          duplicate_free (heap w')
          ∧ ∃ b', heap w' !! p = Some b' ∧ t ∈ consumers b'))
  ∧ (∀ fuel' calls v, perform_all fuel' calls (mkWorld ∅ []) = Done tt v →
       duplicate_free (heap v)).
Proof.
  intros Hb. split; [|split; [|split]].
  - intros Ht Hoff.
    rewrite (connect_eq fuel p t w w b b Hb); [|by rewrite Hoff|done].
    by destruct (decide (t ∈ consumers b)).
  - intros Ht Hon w'. split.
    + intros Hrun.
      destruct (connect_present fuel p t w tt w' b Hb Ht Hrun) as (w1 & Hstart & _ & ->).
      rewrite Hon in Hstart. destruct Hstart as [r Hstart]. by exists r, w1.
    + intros (r & w1 & Hstart & ->).
      pose proof (start_evolves (λ _, 0%nat) fuel t _ _ _ Hstart) as [He _].
      destruct (evolves_lookup _ _ _ _ _ He Hb) as (b1 & Hb1 & Hk).
      rewrite (connect_eq fuel p t w w1 b b1 Hb); [|rewrite Hon; by exists r|done].
      destruct (decide (t ∈ consumers b1)) as [_|Hnot]; [done|by rewrite Hk in Hnot].
  - intros u w' Hrun. split.
    + intros Ht.
      destruct (connect_present fuel p t w u w' b Hb Ht Hrun) as (w1 & _ & He & ->).
      intros x. cbn [heap logged]. destruct (He x) as [bx bx' Hk|]; [|done].
      simpl. by rewrite Hk.
    + intros Hnd. split; [by eapply connect_duplicate_free|].
      apply connect_inv in Hrun as (b0 & w1 & b1 & _ & _ & Hb1 & ->).
      destruct (decide (t ∈ consumers b1)) as [Hin|Hnot].
      * exists b1. by split.
      * eexists. split; [apply lookup_insert_eq|].
        cbn [consumers set_consumers]. apply elem_of_app. right. by left.
  - intros fuel' calls v Hcalls.
    eapply perform_all_duplicate_free; [exact Hcalls|].
    intros x bx Hx. cbn [heap] in Hx. by rewrite lookup_empty in Hx.
Qed.

Lemma start_self_inputs rank (P : ptr → Prop) p :
  ¬ P p → preserves (effect rank keeps_inputs P) (start_self p).
Proof. intros HP. unfold start_self, init, deinit. effects; done. Qed.

Lemma start_keeps_inputs rank fuel t (w : world) bt r w1 :
  ranked rank (heap w) → heap w !! t = Some bt →
  start fuel t w = Done r w1 →
  ∃ bt1, heap w1 !! t = Some bt1
    ∧ inputSampleRate bt1 = inputSampleRate bt
    ∧ inputChannels bt1 = inputChannels bt.
Proof.
  intros Hr Hbt Hstart. destruct fuel as [|n]; [discriminate Hstart|].
  destruct (start_inv rank n t w r w1 Hr Hstart) as (ok & w0 & Hself & Hrest).
  pose proof (start_self_inputs rank nothing t (λ H, H) _ _ _ Hself) as [He _].
  destruct (evolves_lookup _ _ _ _ _ He Hbt) as (bt0 & Hbt0 & _ & Hrate & Hch).
  destruct ok; [|destruct Hrest as [_ ->]; eauto].
  destruct Hrest as (b0 & w3 & _ & [_ Hf] & Hend).
  assert (ranked rank (heap w0)) as Hr0.
  { by eapply (evolves_ranked rank keeps_inputs keeps_inputs_consumers). }
  assert (heap w3 !! t = Some bt0) as Hbt3.
  { rewrite (Hf Hr0 t); [done|]. unfold above. lia. }
  destruct r; [subst w1; eauto|].
  destruct Hend as (c & v & _ & _ & Hstop).
  pose proof (stop_evolves rank (S n) t _ _ _ Hstop) as [Hes _].
  destruct (evolves_lookup _ _ _ _ _ Hes Hbt3) as (bt1 & Hbt1 & Hcfg & _).
  exists bt1. split; [done|].
  unfold config in Hcfg. injection Hcfg; intros _ _ _ _ _ Hc Hi. split; congruence.
Qed.

(** C9: [connect] on a running block starts the target first, with the input
    rate and channel count the target already has, and only then looks the
    target up among the consumers: it returns exactly when that [start]
    returns, and the target's input configuration is the same after [connect]
    as before. *)
Theorem connect_starts_target_unconfigured rank fuel p t (w : world) b bt :
  ranked rank (heap w) →
  heap w !! p = Some b → isRunning b = true →
  heap w !! t = Some bt →
  ∀ w', connect fuel p t w = Done tt w' ↔
    ∃ r w1 b1, start fuel t w = Done r w1 ∧ heap w1 !! p = Some b1
      ∧ w' =
        (if decide (t ∈ consumers b1)
         then logged w1 [Log ERROR p (AlreadyConnected t)]
         else logged (with_block p (set_consumers (consumers b1 ++ [t]) b1) w1)
                [Log DEBUG p (AddedConsumer t)])
      ∧ ∃ bt', heap w' !! t = Some bt'
          ∧ inputSampleRate bt' = inputSampleRate bt
          ∧ inputChannels bt' = inputChannels bt.
Proof.
  intros Hr Hb Hon Hbt w'. rewrite (connect_iff fuel p t w b w' Hb), Hon. split.
  - intros (w1 & b1 & [r Hstart] & Hb1 & Hw').
    exists r, w1, b1. do 3 (split; [done|]).
    destruct (start_keeps_inputs rank fuel t w bt r w1 Hr Hbt Hstart)
      as (bt1 & Hbt1 & Hrate & Hch).
    subst w'. destruct (decide (t ∈ consumers b1)); [by exists bt1|].
    cbn [heap logged with_block].
    destruct (decide (t = p)) as [->|Hne].
    + assert (bt1 = b1) as -> by congruence.
      eexists. split; [apply lookup_insert_eq|]. done.
    + exists bt1. by rewrite lookup_insert_ne.
  - intros (r & w1 & b1 & Hstart & Hb1 & Hw' & _). exists w1, b1.
    split; [by exists r|]. by split.
Qed.

(** * Further properties of the member functions *)

(** ** Computations that keep a preorder on worlds *)

Section Steps.

Variable R : relation world.
Context `{!PreOrder R}.
Hypothesis R_log : ∀ w sev self msg, R w (logged w [Log sev self msg]).

Lemma steps_ret {A} (a : A) : preserves R (mret a : M A).
Proof. intros w b w' [_ <-]%ret_Done. reflexivity. Qed.

Lemma steps_bind {A B} (m : M A) (k : A → M B) :
  preserves R m → (∀ a, preserves R (k a)) → preserves R (m ≫= k).
Proof.
  intros Hm Hk w b w'' (a & w' & H1 & H2)%bind_Done.
  etrans; [by eapply Hm | by eapply Hk].
Qed.

Lemma steps_deref p : preserves R (deref p).
Proof. intros w b w' [_ ->]%deref_Done. reflexivity. Qed.

Lemma steps_log sev self msg : preserves R (emit (Log sev self msg)).
Proof. intros w u w' ->%emit_Done. apply R_log. Qed.

Lemma steps_update p f :
  (∀ w b, heap w !! p = Some b → R w (with_block p (f b) w)) →
  preserves R (update p f).
Proof. intros Hf w u w' (b & Hb & ->)%update_Done. by apply Hf. Qed.

Lemma steps_for_each cs (body : ptr → M unit) :
  (∀ c, c ∈ cs → preserves R (body c)) → preserves R (for_each cs body).
Proof.
  induction cs as [|c cs IH]; intros Hbody; simpl.
  - apply steps_ret.
  - apply steps_bind; [apply Hbody; by left|].
    intros _. apply IH. intros c' Hc'. apply Hbody. by right.
Qed.

Lemma steps_run_downstream (run_rec : ptr → bufref sample_t → M bool) p cs :
  (∀ c, c ∈ cs → preserves R (run_rec c (BufferOf p))) →
  preserves R (run_downstream run_rec p cs).
Proof.
  induction cs as [|c cs IH]; intros Hrec; simpl.
  - apply steps_ret.
  - apply steps_bind; [apply Hrec; by left|].
    intros ok. destruct ok; cbn [negb]; [|apply steps_ret].
    apply IH. intros c' Hc'. apply Hrec. by right.
Qed.

(** The recursive member functions keep what their local parts keep. *)

Hypothesis R_stop_self : ∀ p, preserves R (stop_self p).

Lemma stop_steps fuel : ∀ p, preserves R (stop fuel p).
Proof.
  induction fuel as [|n IH]; intros p; [apply preserves_starved|].
  rewrite stop_S. apply steps_bind; [apply steps_deref|]. intros b.
  apply steps_bind; [|intros _; apply R_stop_self].
  apply steps_for_each. intros c _. apply IH.
Qed.

Hypothesis R_start_self : ∀ p, preserves R (start_self p).
Hypothesis R_setSampleRate : ∀ c v, preserves R (setSampleRate c v).
Hypothesis R_setChannels : ∀ c v, preserves R (setChannels c v).

Lemma start_steps fuel : ∀ p, preserves R (start fuel p).
Proof.
  induction fuel as [|n IH]; intros p; [apply preserves_starved|].
  intros w r w' Hrun. rewrite start_S in Hrun.
  apply bind_Done in Hrun as (ok & w1 & Hself & Hrun).
  etrans; [by eapply R_start_self|].
  destruct ok; cbn [negb] in Hrun; [|by invert_M].
  apply bind_Done in Hrun as (b & ? & [Hb ->]%deref_Done & Hrun).
  apply (start_downstream_inv R) in Hrun as (w2 & Hloop & Hend); [|done..].
  etrans; [exact Hloop|]. destruct r; [by subst|].
  destruct Hend as (c & v & _ & _ & Hstop).
  etrans; [apply (R_log w2 ERROR p DownstreamFailed)|].
  eapply stop_steps, Hstop.
Qed.

Hypothesis R_run_self : ∀ p inBuffer, preserves R (run_self p inBuffer).

Lemma run_steps fuel : ∀ p inBuffer, preserves R (run fuel p inBuffer).
Proof.
  induction fuel as [|n IH]; intros p inBuffer; [apply preserves_starved|].
  rewrite run_S. apply steps_bind; [apply R_run_self|].
  intros ok. destruct ok; cbn [negb]; [|apply steps_ret].
  apply steps_bind; [apply steps_deref|]. intros b.
  apply steps_run_downstream. intros c _. apply IH.
Qed.

(** And so do the drivers, given the allocation steps and the two updates of
    a consumer list. *)

Hypothesis R_create : ∀ p st, preserves R (create p st).
Hypothesis R_free : ∀ p, preserves R (free p).
Hypothesis R_consumers : ∀ p (f : list ptr → list ptr),
  preserves R (update p (λ b', set_consumers (f (consumers b')) b')).

Lemma connect_steps fuel p t : preserves R (connect fuel p t).
Proof.
  unfold connect. apply steps_bind; [apply steps_deref|]. intros b.
  apply steps_bind.
  { destruct (isRunning b); [|apply steps_ret].
    apply steps_bind; [apply start_steps|]. intros _. apply steps_ret. }
  intros _. apply steps_bind; [apply steps_deref|]. intros b1.
  destruct (decide (t ∈ consumers b1)); [apply steps_log|].
  apply steps_bind; [|intros _; apply steps_log].
  apply (R_consumers p (λ cs, cs ++ [t])).
Qed.

Lemma disconnect_steps fuel p t : preserves R (disconnect fuel p t).
Proof.
  unfold disconnect. apply steps_bind; [apply steps_deref|]. intros b.
  apply steps_bind.
  { destruct (isRunning b); [apply stop_steps|apply steps_ret]. }
  intros _. apply steps_bind; [|intros _; apply steps_log].
  apply (R_consumers p (filter (λ c, c ≠ t))).
Qed.

Lemma delete_steps fuel p : preserves R (DspBlock_delete fuel p).
Proof.
  unfold DspBlock_delete. apply steps_bind; [apply steps_deref|]. intros b.
  apply steps_bind; [|intros _; apply R_free].
  destruct (isRunning b); [apply stop_steps|apply steps_ret].
Qed.

Lemma perform_steps fuel c : preserves R (perform fuel c).
Proof.
  destruct c as [p st|p|p t|p t|p|p|p input|p rate|p channels]; simpl.
  - apply R_create.
  - apply delete_steps.
  - apply connect_steps.
  - apply disconnect_steps.
  - apply steps_bind; [apply start_steps|]. intros _. apply steps_ret.
  - apply stop_steps.
  - apply steps_bind; [apply run_steps|]. intros _. apply steps_ret.
  - apply R_setSampleRate.
  - apply R_setChannels.
Qed.

Lemma perform_all_steps fuel cs : preserves R (perform_all fuel cs).
Proof.
  induction cs as [|c cs IH]; simpl; [apply steps_ret|].
  apply steps_bind; [apply perform_steps|]. intros _. apply IH.
Qed.

End Steps.

(** ** What the local parts do, case by case *)

Lemma start_self_cases p (w : world) ok w1 :
  start_self p w = Done ok w1 →
  ∃ b, heap w !! p = Some b ∧
    let b2 := rated (initialised p b) in
    (init_ok (init_hook p (seeded b)) = false ∧ ok = false
     ∧ w1 = logged (with_block p (initialised p b) w)
              [Log DEBUG p StartingBlock; CallInit p; Log ERROR p FailedToInitialise])
    ∨ (init_ok (init_hook p (seeded b)) = true
       ∧ inputSampleRate b ≠ 0 ∧ init_rate (init_hook p (seeded b)) ≠ 0
       ∧ ((reconstructed b2 ≠ outputSampleRate b2 ∧ ok = false
           ∧ w1 = logged (with_block p (set_stage (deinit_hook p b2) b2) w)
                    [Log DEBUG p StartingBlock; CallInit p;
                     Log ERROR p NotIntegerRelated; CallDeinit p])
          ∨ (reconstructed b2 = outputSampleRate b2 ∧ ok = true
             ∧ w1 = logged (with_block p (set_isRunning true b2) w)
                      [Log DEBUG p StartingBlock; CallInit p]))).
Proof.
  intros Hrun.
  assert (∃ b, heap w !! p = Some b) as [b Hb].
  { unfold start_self in Hrun.
    apply bind_Done in Hrun as (? & ? & (b & Hb & _)%update_Done & _). eauto. }
  exists b. split; [done|]. cbv zeta.
  destruct (init_ok (init_hook p (seeded b))) eqn:Hok.
  - right. split; [done|].
    destruct (decide (inputSampleRate b = 0)) as [Hin0|Hin];
      [by rewrite (start_self_undefined p w b Hb Hok (or_introl Hin0)) in Hrun|].
    destruct (decide (init_rate (init_hook p (seeded b)) = 0)) as [Hout0|Hout];
      [by rewrite (start_self_undefined p w b Hb Hok (or_intror Hout0)) in Hrun|].
    split; [done|]. split; [done|].
    rewrite (start_self_rated p w b Hb Hok Hin Hout) in Hrun. cbv zeta in Hrun.
    destruct (decide (_ ≠ _)) as [Hne|Heq]; injection Hrun; intros <- <-.
    + by left.
    + right. split; [by apply dec_stable|done].
  - left. rewrite (start_self_init_fails p w b Hb Hok) in Hrun.
    injection Hrun; intros <- <-. done.
Qed.

Lemma stop_self_cases p (w : world) u w' :
  stop_self p w = Done u w' →
  ∃ b, heap w !! p = Some b ∧
    w' =
    if isRunning b then
      logged
        (with_block p
          (set_buffer []
            (set_stage (deinit_hook p (set_isRunning false b)) (set_isRunning false b))) w)
        [Log DEBUG p StoppingBlock; CallDeinit p]
    else with_block p (set_buffer [] b) w.
Proof.
  intros Hrun.
  assert (∃ b, heap w !! p = Some b) as [b Hb].
  { unfold stop_self in Hrun.
    apply bind_Done in Hrun as (b & ? & [? ?]%deref_Done & _). eauto. }
  exists b. split; [done|]. rewrite (stop_self_eq p w b Hb) in Hrun.
  by injection Hrun.
Qed.

Lemma setSampleRate_cases p rate (w : world) u w' :
  setSampleRate p rate w = Done u w' →
  ∃ b, heap w !! p = Some b ∧
    w' = if isRunning b then w
         else logged (with_block p (set_inputSampleRate rate b) w)
                [Log DEBUG p (SettingSampleRate rate)].
Proof.
  unfold setSampleRate. intros Hrun.
  apply bind_Done in Hrun as (b & ? & [Hb ->]%deref_Done & Hrun).
  exists b. split; [done|]. destruct (isRunning b); [by invert_M|].
  apply bind_Done in Hrun as ([] & ? & ->%emit_Done & (b0 & Hb0 & ->)%update_Done).
  cbn [heap logged] in Hb0. by assert (b0 = b) as -> by congruence.
Qed.

Lemma setChannels_cases p channels (w : world) u w' :
  setChannels p channels w = Done u w' →
  ∃ b, heap w !! p = Some b ∧
    w' = if isRunning b then w
         else logged (with_block p (set_inputChannels channels b) w)
                [Log DEBUG p (SettingChannels channels)].
Proof.
  unfold setChannels. intros Hrun.
  apply bind_Done in Hrun as (b & ? & [Hb ->]%deref_Done & Hrun).
  exists b. split; [done|]. destruct (isRunning b); [by invert_M|].
  apply bind_Done in Hrun as ([] & ? & ->%emit_Done & (b0 & Hb0 & ->)%update_Done).
  cbn [heap logged] in Hb0. by assert (b0 = b) as -> by congruence.
Qed.

(** A running block after the local part of [run]: the block [b1] left by the
    resize step, then the output and the stage state of [process]. *)
Lemma run_self_cases p inBuffer (w : world) ok w1 :
  run_self p inBuffer w = Done ok w1 →
  ∃ b, heap w !! p = Some b ∧
    ((isRunning b = false ∧ ok = false
      ∧ w1 = logged w [Log ERROR p PipelineNotStarted])
     ∨ (isRunning b = true ∧ inputChannels b ≠ 0 ∧ decimation b ≠ 0
        ∧ ∃ input input' b1,
            read inBuffer w = Done input w
            ∧ read inBuffer (resized p b input w) = Done input' (resized p b input w)
            ∧ heap (resized p b input w) !! p = Some b1
            ∧ config b1 = config b ∧ isRunning b1 = true
            ∧ let r := process_hook p b1 input' (buffer b1) in
              ok = process_ok r
              ∧ w1 = logged
                  (with_block p
                    (set_stage (process_stage r) (set_buffer (process_out r) b1))
                    (resized p b input w))
                  (CallProcess p input'
                   :: if process_ok r then [] else [Log ERROR p PipelineFailed]))).
Proof.
  intros Hrun.
  assert (∃ b, heap w !! p = Some b) as [b Hb].
  { unfold run_self in Hrun.
    apply bind_Done in Hrun as (b & ? & [? ?]%deref_Done & _). eauto. }
  exists b. split; [done|].
  destruct (isRunning b) eqn:Hon.
  - right. split; [done|].
    assert (∃ input, read inBuffer w = Done input w
              ∧ inputChannels b ≠ 0 ∧ decimation b ≠ 0) as (input & Hin & Hch & Hdec).
    { unfold run_self in Hrun.
      rewrite (bind_eq _ _ _ _ _ (deref_eq _ _ _ Hb)), Hon in Hrun. cbn [negb] in Hrun.
      apply bind_Done in Hrun as (input & w0 & Hin & Hrun).
      assert (w0 = w) as ->.
      { destruct inBuffer; simpl in Hin; invert_M; done. }
      apply bind_Done in Hrun as (? & ? & (Hch & _ & ->)%udiv_Done & Hrun).
      apply bind_Done in Hrun as (? & ? & (Hdec & _ & ->)%udiv_Done & Hrun).
      by exists input. }
    split; [done|]. split; [done|].
    rewrite (run_self_resize p inBuffer w b input Hb Hon Hin Hch Hdec) in Hrun.
    destruct (resized_lookup p b input w Hb) as (b1 & Hb1 & Hcfg & Hon1 & _).
    destruct (read_after keeps_run inBuffer w _ input (resized_evolves p b input w Hb) Hin)
      as [input' Hin'].
    exists input, input', b1. do 4 (split; [done|]). split; [congruence|].
    rewrite (bind_eq _ _ _ _ _ (process_eq p inBuffer _ b1 input' Hb1 Hin')) in Hrun.
    cbv zeta. destruct (process_ok _); cbn [negb] in Hrun.
    + invert_M. done.
    + invert_M. by rewrite logged_logged.
  - left. rewrite (run_self_stopped p inBuffer w b Hb Hon) in Hrun.
    by injection Hrun; intros <- <-.
Qed.

(** ** Invariants of every store the drivers build *)

#[local] Instance keeping_preorder (inv : DspBlock → Prop) : PreOrder (keeping inv).
Proof.
  split; [intros w H; exact H|]. intros w1 w2 w3 H12 H23 H. by apply H23, H12.
Qed.

Lemma keeping_log (inv : DspBlock → Prop) (w : world) es : keeping inv w (logged w es).
Proof. by intros H. Qed.

Lemma keeping_block (inv : DspBlock → Prop) p b b' (w : world) es :
  heap w !! p = Some b → (inv b → inv b') →
  keeping inv w (logged (with_block p b' w) es).
Proof.
  intros Hb Hinv Hw q bq Hq. cbn [heap logged with_block] in Hq.
  destruct (decide (q = p)) as [->|Hne].
  - rewrite lookup_insert_eq in Hq. injection Hq; intros <-. apply Hinv. by eapply Hw.
  - rewrite lookup_insert_ne in Hq by done. by eapply Hw.
Qed.

Lemma keeping_block_silent (inv : DspBlock → Prop) p b b' (w : world) :
  heap w !! p = Some b → (inv b → inv b') → keeping inv w (with_block p b' w).
Proof.
  intros Hb Hinv. pose proof (keeping_block inv p b b' w [] Hb Hinv) as H.
  unfold logged in H. cbn [trace with_block] in H. by rewrite app_nil_r in H.
Qed.

Lemma rates_valid_rated (b : DspBlock) :
  inputSampleRate b ≠ 0 → outputSampleRate b ≠ 0 → rates_valid (rated b).
Proof.
  intros Hin Hout. unfold rates_valid.
  pose proof (rated_decimation_pos b Hin Hout) as Hdec.
  destruct (rated_rates b) as [Hd Hi]. rewrite Hi.
  split; [done|].
  destruct (decide (outputSampleRate b ≤ inputSampleRate b)) as [Hle|Hgt].
  - split; [done|by right].
  - split; [|left; by rewrite Hd].
    intros Hz. apply N.div_small_iff in Hz; lia.
Qed.

Lemma sound_rated p (b : DspBlock) :
  inputSampleRate b ≠ 0 → init_rate (init_hook p (seeded b)) ≠ 0 →
  sound b → sound (rated (initialised p b)).
Proof.
  intros Hin Hout [Hidle _]. split.
  - destruct (rated_fields (initialised p b)) as (_ & _ & _ & _ & Hrun & _ & Hbuf).
    unfold idle_empty. rewrite Hrun, Hbuf. exact Hidle.
  - by apply rates_valid_rated.
Qed.

Lemma start_self_sound p : preserves (keeping sound) (start_self p).
Proof.
  intros w ok w1 Hrun.
  destruct (start_self_cases p w ok w1 Hrun)
    as (b & Hb & [(_ & _ & ->)|(_ & Hin & Hout & [(_ & _ & ->)|(_ & _ & ->)])]);
    apply (keeping_block sound p b); try done.
  - intros Hs. by apply (sound_rated p b Hin Hout) in Hs.
  - intros Hs. apply (sound_rated p b Hin Hout) in Hs as [_ Hr]. by split.
Qed.

Lemma stop_self_sound p : preserves (keeping sound) (stop_self p).
Proof.
  intros w u w' Hrun. destruct (stop_self_cases p w u w' Hrun) as (b & Hb & ->).
  destruct (isRunning b).
  - apply (keeping_block sound p b); [done|]. by intros [_ Hr].
  - apply (keeping_block_silent sound p b); [done|]. by intros [_ Hr].
Qed.

Lemma resized_sound p (b : DspBlock) input (w : world) :
  heap w !! p = Some b → isRunning b = true →
  keeping sound w (resized p b input w).
Proof.
  intros Hb Hon. unfold resized. destruct (decide (_ ≠ _)); [|done].
  apply (keeping_block sound p b); [done|]. intros [_ Hr]. split; [|done].
  unfold idle_empty. cbn [isRunning set_buffer]. congruence.
Qed.

Lemma run_self_sound p inBuffer : preserves (keeping sound) (run_self p inBuffer).
Proof.
  intros w ok w1 Hrun.
  destruct (run_self_cases p inBuffer w ok w1 Hrun)
    as (b & Hb & [(_ & _ & ->)|(Hon & _ & _ & input & input' & b1 & _ & _ & Hb1
                                 & Hcfg & Hon1 & _ & ->)]);
    [apply keeping_log|].
  etrans; [by apply resized_sound|].
  apply (keeping_block sound p b1); [done|]. intros [_ Hr]. split; [|done].
  unfold idle_empty. cbn [isRunning set_buffer set_stage]. congruence.
Qed.

Lemma setSampleRate_sound p rate : preserves (keeping sound) (setSampleRate p rate).
Proof.
  intros w u w' Hrun. destruct (setSampleRate_cases p rate w u w' Hrun) as (b & Hb & ->).
  destruct (isRunning b); [done|]. by apply (keeping_block sound p b).
Qed.

Lemma setChannels_sound p channels : preserves (keeping sound) (setChannels p channels).
Proof.
  intros w u w' Hrun. destruct (setChannels_cases p channels w u w' Hrun) as (b & Hb & ->).
  destruct (isRunning b); [done|]. by apply (keeping_block sound p b).
Qed.

Lemma create_sound p st : preserves (keeping sound) (create p st).
Proof.
  intros w u w'. unfold create, store. destruct (heap w !! p) eqn:Hp; [done|].
  intros Heq Hw q bq Hq. injection Heq; intros <- _. cbn [heap] in Hq.
  destruct (decide (q = p)) as [->|Hne].
  - rewrite lookup_insert_eq in Hq. injection Hq; intros <-.
    split; [done|]. unfold rates_valid. cbn. auto.
  - rewrite lookup_insert_ne in Hq by done. by eapply Hw.
Qed.

Lemma free_keeping (inv : DspBlock → Prop) p : preserves (keeping inv) (free p).
Proof.
  intros w u w' Heq Hw q bq Hq. injection Heq; intros <- _. cbn [heap] in Hq.
  apply lookup_delete_Some in Hq as [_ Hq]. by eapply Hw.
Qed.

Lemma consumers_sound p (f : list ptr → list ptr) :
  preserves (keeping sound)
    (update p (λ b' : DspBlock, set_consumers (f (consumers b')) b')).
Proof.
  apply steps_update. intros w b Hb. by apply (keeping_block_silent sound p b).
Qed.

Lemma perform_all_sound fuel calls : preserves (keeping sound) (perform_all fuel calls).
Proof.
  apply perform_all_steps.
  - apply _.
  - intros w sev self msg. apply keeping_log.
  - apply stop_self_sound.
  - apply start_self_sound.
  - apply setSampleRate_sound.
  - apply setChannels_sound.
  - apply run_self_sound.
  - apply create_sound.
  - apply free_keeping.
  - apply consumers_sound.
Qed.

Lemma holds_nothing (inv : DspBlock → Prop) : holds inv (mkWorld ∅ []).
Proof. intros q bq Hq. cbn [heap] in Hq. by rewrite lookup_empty in Hq. Qed.

(** X1: In every store the drivers build from nothing, a block that is not
    running holds no buffer: the constructor starts with none, only [run] on
    a running block allocates, and [stop], the only function that clears the
    running flag, releases the buffer. *)
Theorem stopped_block_holds_no_buffer fuel calls (w : world) p b :
  perform_all fuel calls (mkWorld ∅ []) = Done tt w →
  heap w !! p = Some b → isRunning b = false → buffer b = [].
Proof.
  intros Hrun Hb.
  pose proof (perform_all_sound fuel calls _ _ _ Hrun (holds_nothing sound)) as Hw.
  by destruct (Hw p b Hb) as [Hidle _].
Qed.

(** X2: In every store the drivers build from nothing, neither [_decimation] nor
    [_interpolation] is ever zero and one of them is 1.  So the division by
    [_decimation] in [run] is always defined: on a running block the local
    part of [run] returns exactly when the input channel count is not zero. *)
Theorem rate_factors_never_zero fuel calls (w : world) p b :
  perform_all fuel calls (mkWorld ∅ []) = Done tt w →
  heap w !! p = Some b →
  decimation b ≠ 0 ∧ interpolation b ≠ 0
  ∧ (decimation b = 1 ∨ interpolation b = 1)
  ∧ (isRunning b = true →
     ∀ input, (∃ ok w1, run_self p (Extern input) w = Done ok w1)
              ↔ inputChannels b ≠ 0).
Proof.
  intros Hrun Hb.
  pose proof (perform_all_sound fuel calls _ _ _ Hrun (holds_nothing sound)) as Hw.
  destruct (Hw p b Hb) as [_ (Hd & Hi & Hone)].
  do 3 (split; [done|]). intros Hon input. split.
  - intros (ok & w1 & Hself) Hz.
    by rewrite (run_self_undefined p input w b Hb Hon Hz) in Hself.
  - intros Hch. by apply (run_self_returns p (Extern input) w b input).
Qed.

(** ** Locality: only blocks downstream are touched *)

#[local] Instance aside_preorder roots x :
  PreOrder (aside (sample_t:=sample_t) (Stage:=Stage) roots x).
Proof.
  split.
  - intros w. split; [apply (evolves_refl keeps_start)|]. split; [done|].
    exists []. split; [by rewrite app_nil_r|]. intros e He. by apply elem_of_nil in He.
  - intros w1 w2 w3 (He1 & Hf1 & es1 & Ht1 & Hs1) (He2 & Hf2 & es2 & Ht2 & Hs2).
    split; [by eapply (evolves_trans keeps_start)|]. split.
    + intros Hun. rewrite Hf2, Hf1; [done|done|].
      intros c Hc Hreach. apply (Hun c Hc).
      by apply (reach_evolves keeps_start (heap w1) (heap w2) c x keeps_start_consumers He1).
    + exists (es1 ++ es2). split; [by rewrite Ht2, Ht1, app_assoc|].
      intros e [He|He]%elem_of_app; [by apply Hs1|].
      destruct (Hs2 e He) as (c & Hc & Hreach). exists c. split; [done|].
      by apply (reach_evolves keeps_start (heap w1) (heap w2) c _ keeps_start_consumers He1).
Qed.

Lemma aside_log roots x (w : world) es :
  Forall (λ e, subject e ∈ roots) es → aside roots x w (logged w es).
Proof.
  intros Hes. split; [apply (evolves_refl keeps_start)|]. split; [done|].
  exists es. split; [done|]. intros e He.
  rewrite Forall_forall in Hes. exists (subject e). split; [by apply Hes|constructor].
Qed.

Lemma aside_mono roots roots' x (w w' : world) :
  (∀ c, c ∈ roots → c ∈ roots') → aside roots x w w' → aside roots' x w w'.
Proof.
  intros Hsub (He & Hf & es & Ht & Hs). split; [done|]. split.
  - intros Hun. apply Hf. auto.
  - exists es. split; [done|]. intros e Hin.
    destruct (Hs e Hin) as (c & Hc & Hreach). exists c. auto.
Qed.

Lemma aside_single c roots x (w w' : world) :
  c ∈ roots → aside [c] x w w' → aside roots x w w'.
Proof. intros Hc. apply aside_mono. by intros ? ->%list_elem_of_singleton. Qed.

Lemma aside_step p b roots x (w w' : world) :
  heap w !! p = Some b → (∀ c, c ∈ roots → c ∈ consumers b) →
  aside roots x w w' → aside [p] x w w'.
Proof.
  intros Hb Hsub (He & Hf & es & Ht & Hs). split; [done|]. split.
  - intros Hun. apply Hf.
    intros c Hc Hreach. apply (Hun p); [by left|].
    eapply reach_step; [exact Hb|by apply Hsub|exact Hreach].
  - exists es. split; [done|]. intros e Hin.
    destruct (Hs e Hin) as (c & Hc & Hreach). exists p. split; [by left|].
    eapply reach_step; [exact Hb|by apply Hsub|exact Hreach].
Qed.

Lemma aside_block p b b' x (w : world) es :
  heap w !! p = Some b → consumers b' = consumers b →
  Forall (λ e, subject e = p) es →
  aside [p] x w (logged (with_block p b' w) es).
Proof.
  intros Hb Hc Hes. split; [|split]; cbn [heap logged with_block trace].
  - by apply (evolves_insert keeps_start _ _ b).
  - intros Hun. apply lookup_insert_ne. intros ->.
    apply (Hun x); [by left|constructor].
  - exists es. split; [done|]. intros e He. rewrite Forall_forall in Hes.
    exists p. split; [by left|]. rewrite (Hes e He). constructor.
Qed.

Lemma aside_block_silent p b b' x (w : world) :
  heap w !! p = Some b → consumers b' = consumers b →
  aside [p] x w (with_block p b' w).
Proof.
  intros Hb Hc. pose proof (aside_block p b b' x w [] Hb Hc ltac:(constructor)) as H.
  unfold logged in H. cbn [trace with_block] in H. by rewrite app_nil_r in H.
Qed.

Ltac about_self := repeat constructor.

Lemma start_self_aside p x : preserves (aside [p] x) (start_self p).
Proof.
  intros w ok w1 Hrun.
  destruct (start_self_cases p w ok w1 Hrun)
    as (b & Hb & [(_ & _ & ->)|(_ & Hin & Hout & [(_ & _ & ->)|(_ & _ & ->)])]);
    apply (aside_block p b); try done; try about_self.
  all: cbn [consumers set_stage set_isRunning];
    by destruct (rated_fields (initialised p b)) as (_ & _ & _ & _ & _ & -> & _).
Qed.

Lemma stop_self_aside p x : preserves (aside [p] x) (stop_self p).
Proof.
  intros w u w' Hrun. destruct (stop_self_cases p w u w' Hrun) as (b & Hb & ->).
  destruct (isRunning b);
    [apply (aside_block p b); [done|done|about_self]|by apply (aside_block_silent p b)].
Qed.

Lemma run_self_aside p inBuffer x : preserves (aside [p] x) (run_self p inBuffer).
Proof.
  intros w ok w1 Hrun.
  destruct (run_self_cases p inBuffer w ok w1 Hrun)
    as (b & Hb & [(_ & _ & ->)|(Hon & _ & _ & input & input' & b1 & _ & _ & Hb1
                                 & Hcfg & Hon1 & _ & ->)]).
  { apply aside_log. about_self. }
  trans (resized p b input w).
  - unfold resized. destruct (decide (_ ≠ _)); [|reflexivity].
    apply (aside_block p b); [done|done|about_self].
  - apply (aside_block p b1); [done|done|].
    destruct (process_ok _); about_self.
Qed.

Lemma setSampleRate_aside p rate x : preserves (aside [p] x) (setSampleRate p rate).
Proof.
  intros w u w' Hrun. destruct (setSampleRate_cases p rate w u w' Hrun) as (b & Hb & ->).
  destruct (isRunning b); [reflexivity|]. apply (aside_block p b); [done|done|about_self].
Qed.

Lemma setChannels_aside p channels x : preserves (aside [p] x) (setChannels p channels).
Proof.
  intros w u w' Hrun. destruct (setChannels_cases p channels w u w' Hrun) as (b & Hb & ->).
  destruct (isRunning b); [reflexivity|]. apply (aside_block p b); [done|done|about_self].
Qed.

Lemma stop_aside fuel x : ∀ p, preserves (aside [p] x) (stop fuel p).
Proof.
  induction fuel as [|n IH]; intros p; [apply preserves_starved|].
  intros w u w' Hrun. rewrite stop_S in Hrun.
  apply bind_Done in Hrun as (b & ? & [Hb ->]%deref_Done & Hrun).
  apply bind_Done in Hrun as ([] & w1 & Hloop & Hself).
  etrans; [|by eapply stop_self_aside].
  apply (aside_step p b (consumers b)); [done|done|].
  revert Hloop. apply steps_for_each; [apply _|]. intros c Hc.
  eapply preserves_weaken; [|apply IH]. intros v v'. by apply aside_single.
Qed.

Lemma start_aside fuel x : ∀ p, preserves (aside [p] x) (start fuel p).
Proof.
  induction fuel as [|n IH]; intros p; [apply preserves_starved|].
  intros w r w' Hrun. rewrite start_S in Hrun.
  apply bind_Done in Hrun as (ok & w1 & Hself & Hrun).
  etrans; [by eapply start_self_aside|].
  destruct ok; cbn [negb] in Hrun; [|by invert_M].
  apply bind_Done in Hrun as (b1 & ? & [Hb1 ->]%deref_Done & Hrun).
  apply (start_downstream_inv (aside (consumers b1) x)) in Hrun as (w2 & Hloop & Hend).
  - etrans; [by eapply (aside_step p b1 (consumers b1)), Hloop|].
    destruct r; [by subst|]. destruct Hend as (c & v & _ & _ & Hstop).
    etrans; [apply (aside_log [p] x w2 [Log ERROR p DownstreamFailed]); about_self|].
    eapply stop_aside, Hstop.
  - intros c v Hc. eapply preserves_weaken; [|apply setSampleRate_aside].
    intros v1 v2. by apply aside_single.
  - intros c v Hc. eapply preserves_weaken; [|apply setChannels_aside].
    intros v1 v2. by apply aside_single.
  - intros c Hc. eapply preserves_weaken; [|apply IH].
    intros v1 v2. by apply aside_single.
Qed.

Lemma run_aside fuel x : ∀ p inBuffer, preserves (aside [p] x) (run fuel p inBuffer).
Proof.
  induction fuel as [|n IH]; intros p inBuffer; [apply preserves_starved|].
  intros w r w' Hrun. rewrite run_S in Hrun.
  apply bind_Done in Hrun as (ok & w1 & Hself & Hrun).
  etrans; [by eapply run_self_aside|].
  destruct ok; cbn [negb] in Hrun; [|by invert_M].
  apply bind_Done in Hrun as (b1 & ? & [Hb1 ->]%deref_Done & Hrun).
  apply (aside_step p b1 (consumers b1)); [done|done|].
  revert Hrun. apply steps_run_downstream; [apply _|]. intros c Hc.
  eapply preserves_weaken; [|apply IH]. intros v v'. by apply aside_single.
Qed.

Lemma aside_alone p x (w w' : world) :
  aside [p] x w w' →
  (¬ reach (heap w) p x → heap w' !! x = heap w !! x)
  ∧ ∃ es, trace w' = trace w ++ es ∧ ∀ e, e ∈ es → reach (heap w) p (subject e).
Proof.
  intros (_ & Hf & es & Ht & Hs). split.
  - intros Hx. apply Hf. by intros c ->%list_elem_of_singleton.
  - exists es. split; [done|]. intros e He.
    by destruct (Hs e He) as (c & ->%list_elem_of_singleton & Hreach).
Qed.

(** X3: [stop] works downstream only, whatever the shape of the graph: a block
    that is neither the block it is called on nor downstream of it is left as
    it was, and every record added to the log is about a downstream block.
    In the blocks it visits it changes the running flag, the buffer and the
    state of the stage only, never the rates, the channel counts or the
    consumer list. *)
Theorem stop_touches_only_downstream fuel p (w : world) u w' :
  stop fuel p w = Done u w' →
  (∀ x, ¬ reach (heap w) p x → heap w' !! x = heap w !! x)
  ∧ (∀ x bx, heap w !! x = Some bx →
       ∃ bx', heap w' !! x = Some bx' ∧ config bx' = config bx)
  ∧ ∃ es, trace w' = trace w ++ es ∧ ∀ e, e ∈ es → reach (heap w) p (subject e).
Proof.
  intros Hrun. split; [|split].
  - intros x. by apply (aside_alone p x w w' (stop_aside fuel x p w u w' Hrun)).
  - intros x bx Hx.
    pose proof (stop_evolves (λ _, 0%nat) fuel p w u w' Hrun) as [He _].
    destruct (evolves_lookup _ _ _ _ _ He Hx) as (bx' & Hx' & Hcfg & _). eauto.
  - by apply (aside_alone p p w w' (stop_aside fuel p p w u w' Hrun)).
Qed.

(** X4: [start], failed or not, works downstream only: a block that is neither
    the block it is called on nor downstream of it is left as it was, no
    consumer list changes, and every record added to the log is about a
    downstream block. *)
Theorem start_touches_only_downstream fuel p (w : world) r w' :
  start fuel p w = Done r w' →
  (∀ x, ¬ reach (heap w) p x → heap w' !! x = heap w !! x)
  ∧ (∀ x, consumers <$> heap w' !! x = consumers <$> heap w !! x)
  ∧ ∃ es, trace w' = trace w ++ es ∧ ∀ e, e ∈ es → reach (heap w) p (subject e).
Proof.
  intros Hrun. split; [|split].
  - intros x. by apply (aside_alone p x w w' (start_aside fuel x p w r w' Hrun)).
  - intros x. destruct (start_aside fuel x p w r w' Hrun) as [He _].
    destruct (He x) as [bx bx' Hk|]; [|done]. simpl. by rewrite Hk.
  - by apply (aside_alone p p w w' (start_aside fuel p p w r w' Hrun)).
Qed.

(** X5: [run] works downstream only: a block that is neither the block it is
    called on nor downstream of it is left as it was, and every record added
    to the log is about a downstream block.  In the blocks it visits it
    changes the buffer and the state of the stage only, never the
    configuration, the consumer list or the running flag. *)
Theorem run_touches_only_downstream fuel p inBuffer (w : world) r w' :
  run fuel p inBuffer w = Done r w' →
  (∀ x, ¬ reach (heap w) p x → heap w' !! x = heap w !! x)
  ∧ (∀ x bx, heap w !! x = Some bx →
       ∃ bx', heap w' !! x = Some bx' ∧ config bx' = config bx
         ∧ isRunning bx' = isRunning bx)
  ∧ ∃ es, trace w' = trace w ++ es ∧ ∀ e, e ∈ es → reach (heap w) p (subject e).
Proof.
  intros Hrun. split; [|split].
  - intros x. by apply (aside_alone p x w w' (run_aside fuel x p inBuffer w r w' Hrun)).
  - intros x bx Hx.
    pose proof (run_evolves (λ _, 0%nat) fuel p inBuffer w r w' Hrun) as [He _].
    destruct (evolves_lookup _ _ _ _ _ He Hx) as (bx' & Hx' & Hcfg & Hon). eauto.
  - by apply (aside_alone p p w w' (run_aside fuel p p inBuffer w r w' Hrun)).
Qed.

(** ** A successful [start] *)

#[local] Instance keeps_started_preorder :
  PreOrder (keeps_started (sample_t:=sample_t) (Stage:=Stage)).
Proof.
  split.
  - intros b. unfold keeps_started. auto.
  - intros b1 b2 b3 (Hc1 & Hs1 & Hr1) (Hc2 & Hs2 & Hr2).
    split; [congruence|]. split; [auto|]. intros Hon.
    destruct (Hr1 Hon) as (Hon2 & Hrate1 & Hch1).
    destruct (Hr2 Hon2) as (Hon3 & Hrate2 & Hch2).
    split; [done|]. split; congruence.
Qed.

Lemma keeps_started_consumers (b b' : DspBlock) :
  keeps_started b b' → consumers b' = consumers b.
Proof. by intros [Hc _]. Qed.

#[local] Instance boots_preorder : PreOrder (boots (sample_t:=sample_t) (Stage:=Stage)).
Proof.
  split.
  - intros w. split; [apply (evolves_refl keeps_started)|].
    exists []. split; [by rewrite app_nil_r|constructor].
  - intros w1 w2 w3 (He1 & es1 & Ht1 & Hq1) (He2 & es2 & Ht2 & Hq2).
    split; [by eapply (evolves_trans keeps_started)|].
    exists (es1 ++ es2). split; [by rewrite Ht2, Ht1, app_assoc|by apply Forall_app].
Qed.

Lemma boots_block p b b' (w : world) es :
  heap w !! p = Some b → keeps_started b b' → Forall quiet es →
  boots w (logged (with_block p b' w) es).
Proof.
  intros Hb Hk Hes. split; [by apply (evolves_insert keeps_started _ _ b)|].
  by exists es.
Qed.

Lemma rated_rated (b : DspBlock) : rated (rated b) = rated b.
Proof.
  unfold rated.
  destruct (decide (outputSampleRate b ≤ inputSampleRate b)) as [Hle|Hgt]; simpl;
    destruct (decide _); done.
Qed.

Lemma rated_set_isRunning v (b : DspBlock) :
  rated (set_isRunning v b) = set_isRunning v (rated b).
Proof.
  unfold rated. simpl.
  by destruct (decide (outputSampleRate b ≤ inputSampleRate b)).
Qed.

Lemma started_after p (b : DspBlock) :
  inputSampleRate b ≠ 0 → init_rate (init_hook p (seeded b)) ≠ 0 →
  reconstructed (rated (initialised p b)) = outputSampleRate (rated (initialised p b)) →
  started (set_isRunning true (rated (initialised p b))).
Proof.
  intros Hin Hout Hrec.
  destruct (rated_fields (initialised p b)) as (Hrin & Hrout & _).
  unfold started. rewrite rated_set_isRunning, rated_rated.
  cbn [isRunning inputSampleRate outputSampleRate set_isRunning].
  rewrite Hrin, Hrout. repeat split; try done.
  rewrite <- Hrout. exact Hrec.
Qed.

Lemma start_self_true p (w w1 : world) :
  start_self p w = Done true w1 →
  boots w w1
  ∧ (∃ b1, heap w1 !! p = Some b1 ∧ started b1)
  ∧ trace w1 = trace w ++ [Log DEBUG p StartingBlock; CallInit p].
Proof.
  intros Hrun.
  destruct (start_self_cases p w true w1 Hrun)
    as (b & Hb & [(_ & [=] & _)|(_ & Hin & Hout & [(_ & [=] & _)|(Hrec & _ & ->)])]).
  pose proof (started_after p b Hin Hout Hrec) as Hst. split; [|split; [|done]].
  - apply (boots_block p b); [done| |by repeat constructor].
    destruct (rated_fields (initialised p b)) as (Hrin & _ & Hrch & _ & _ & Hrcs & _).
    split; [|split; [done|]].
    + cbn [consumers set_isRunning]. by rewrite Hrcs.
    + intros _. cbn [isRunning inputSampleRate inputChannels set_isRunning].
      by rewrite Hrin, Hrch.
  - eexists. split; [apply lookup_insert_eq|done].
Qed.

Lemma setSampleRate_boots c v : preserves boots (setSampleRate c v).
Proof.
  intros w u w' Hrun. destruct (setSampleRate_cases c v w u w' Hrun) as (b & Hb & ->).
  destruct (isRunning b) eqn:Hoff; [reflexivity|].
  apply (boots_block c b); [done| |by repeat constructor]. split; [done|].
  split; [intros [Hon _]|intros Hon]; congruence.
Qed.

Lemma setChannels_boots c v : preserves boots (setChannels c v).
Proof.
  intros w u w' Hrun. destruct (setChannels_cases c v w u w' Hrun) as (b & Hb & ->).
  destruct (isRunning b) eqn:Hoff; [reflexivity|].
  apply (boots_block c b); [done| |by repeat constructor]. split; [done|].
  split; [intros [Hon _]|intros Hon]; congruence.
Qed.

(** The downstream loop of [start] when it succeeds, from a world [v]
    reached from [w0]: every consumer was started with success, and what held
    of a consumer after its own start still holds at the end if later steps
    preserve it. *)
Lemma start_downstream_true (R : relation world) `{!PreOrder R} (Q : ptr → world → Prop)
    (start_rec : ptr → M bool) (stop_this : M unit) p w0 :
  (∀ c v, preserves R (setSampleRate c v)) →
  (∀ c v, preserves R (setChannels c v)) →
  (∀ c v v', R w0 v → start_rec c v = Done true v' → R v v' ∧ Q c v') →
  (∀ c v v', Q c v → R v v' → Q c v') →
  ∀ cs v w', R w0 v →
    start_downstream start_rec stop_this p cs v = Done true w' →
    R v w' ∧ ∀ c, c ∈ cs → Q c w'.
Proof.
  intros Hrate Hchan Hrec Hstable.
  induction cs as [|c cs IH]; intros w w' Hw Hrun; simpl in Hrun.
  - invert_M. split; [reflexivity|]. intros c Hc. by apply elem_of_nil in Hc.
  - apply bind_Done in Hrun as (b1 & ? & [Hb1 ->]%deref_Done & Hrun).
    apply bind_Done in Hrun as ([] & w2 & Hset1 & Hrun).
    apply bind_Done in Hrun as (b2 & ? & [Hb2 ->]%deref_Done & Hrun).
    apply bind_Done in Hrun as ([] & w4 & Hset2 & Hrun).
    apply bind_Done in Hrun as (ok & w5 & Hstart & Hrun).
    destruct ok; cbn [negb] in Hrun; [|by invert_M].
    assert (R w w4) as Hw4.
    { etrans; [by eapply Hrate|]. by eapply Hchan. }
    destruct (Hrec c w4 w5) as [HR HQ]; [by etrans|done|].
    destruct (IH w5 w') as [HR' HQ']; [by do 2 (etrans; [|done])|done|].
    split; [by do 2 (etrans; [done|])|].
    intros c' [->|Hc']%elem_of_cons; [by eapply Hstable|by apply HQ'].
Qed.

Lemma start_true_started fuel :
  ∀ p (w w' : world), start fuel p w = Done true w' →
    boots w w'
    ∧ ∀ q, reach (heap w') p q →
        (∃ b, heap w' !! q = Some b ∧ started b)
        ∧ ∃ es, trace w' = trace w ++ es ∧ CallInit q ∈ es.
Proof.
  induction fuel as [|n IH]; intros p w w' Hrun; [discriminate Hrun|].
  rewrite start_S in Hrun.
  apply bind_Done in Hrun as (ok & w1 & Hself & Hrun).
  destruct ok; cbn [negb] in Hrun; [|by invert_M].
  destruct (start_self_true p w w1 Hself) as (Hb1 & (bp & Hbp & Hst) & Ht1).
  apply bind_Done in Hrun as (b1 & ? & [Hb1' ->]%deref_Done & Hrun).
  assert (b1 = bp) as -> by congruence.
  apply (start_downstream_true boots
    (λ c v, ∀ q, reach (heap v) c q →
       (∃ b, heap v !! q = Some b ∧ started b)
       ∧ ∃ es, trace v = trace w ++ es ∧ CallInit q ∈ es) _ _ _ w1)
    in Hrun as [Hb2 Hsub]; [| | | | |reflexivity].
  - split; [by etrans|].
    destruct Hb2 as (He2 & es2 & Ht2 & _).
    destruct (evolves_lookup _ _ _ _ _ He2 Hbp) as (bp' & Hbp' & Hcs & Hkeep & _).
    intros q Hq. inversion Hq as [|? b' c ? Hp' Hc' Hq']; subst.
    + split; [exists bp'; auto|].
      eexists. split; [by rewrite Ht2, Ht1, <- app_assoc|].
      apply elem_of_app. left. right. by left.
    + apply (Hsub c); [|done]. assert (b' = bp') as -> by congruence.
      by rewrite <- Hcs.
  - apply setSampleRate_boots.
  - apply setChannels_boots.
  - intros c v v' (_ & es0 & Ht0 & _) Hstart.
    destruct (IH c v v' Hstart) as [Hb Hall]. split; [done|].
    intros q Hq. destruct (Hall q Hq) as [Hs (es & Ht & Hin)]. split; [done|].
    eexists. split; [by rewrite Ht, Ht0, Ht1, <- !app_assoc|].
    rewrite !elem_of_app. auto.
  - intros c v v' HQ (He & es' & Ht' & _) q Hq.
    apply (reach_evolves keeps_started (heap v) (heap v') c q
      keeps_started_consumers He) in Hq.
    destruct (HQ q Hq) as [(b & Hb & Hs) (es & Ht & Hin)].
    destruct (evolves_lookup _ _ _ _ _ He Hb) as (b' & Hb' & _ & Hkeep & _).
    split; [eauto|]. eexists. split; [by rewrite Ht', Ht, <- app_assoc|].
    rewrite elem_of_app. auto.
Qed.

(** X6: When [start] returns success, the block and every block downstream of it
    are running, each with rates that are not zero, with the decimation and
    interpolation derived from these rates, none of them zero, and with the
    reconstruction check satisfied. *)
Theorem start_success_runs_subtree fuel p (w w' : world) q :
  start fuel p w = Done true w' → reach (heap w) p q →
  ∃ b, heap w' !! q = Some b
    ∧ isRunning b = true
    ∧ inputSampleRate b ≠ 0 ∧ outputSampleRate b ≠ 0
    ∧ carries_rates (inputSampleRate b) (outputSampleRate b) b
    ∧ decimation b ≠ 0 ∧ interpolation b ≠ 0
    ∧ reconstructed b = outputSampleRate b.
Proof.
  intros Hrun Hq. destruct (start_true_started fuel p w w' Hrun) as [[He _] Hall].
  apply (reach_evolves keeps_started (heap w) (heap w') p q
    keeps_started_consumers He) in Hq.
  destruct (Hall q Hq) as [(b & Hb & Hon & Hin & Hout & Hrated & Hrec) _].
  exists b. do 4 (split; [done|]).
  destruct (rated_rates b) as [Hd Hi]. rewrite Hrated in Hd, Hi.
  destruct (rates_valid_rated b Hin Hout) as (Hd0 & Hi0 & _). rewrite Hrated in Hd0, Hi0.
  by repeat split.
Qed.

(** X7: A successful [start] calls [init] on the block and on every block
    downstream of it, whether or not that block was running already, and
    calls no [deinit] and no [process]: besides the [init] calls it writes
    debug records only.  So a second [start] on a running pipeline
    initialises every stage once more without a [deinit] in between. *)
Theorem start_success_initialises_all fuel p (w w' : world) :
  start fuel p w = Done true w' →
  ∃ es, trace w' = trace w ++ es
    ∧ (∀ q, reach (heap w) p q → CallInit q ∈ es)
    ∧ Forall (λ e, (∃ q, e = CallInit q) ∨ ∃ q msg, e = Log DEBUG q msg) es.
Proof.
  intros Hrun.
  destruct (start_true_started fuel p w w' Hrun) as [(He & es & Ht & Hquiet) Hall].
  exists es. split; [done|]. split.
  - intros q Hq.
    apply (reach_evolves keeps_started (heap w) (heap w') p q
      keeps_started_consumers He) in Hq.
    destruct (Hall q Hq) as [_ (es' & Ht' & Hin)].
    assert (es' = es) as -> by (rewrite Ht in Ht'; by apply app_inv_head in Ht').
    done.
  - eapply Forall_impl; [exact Hquiet|].
    intros [[] q msg|q|q|q input] Hq; try done; eauto.
Qed.

(** X8: A successful [start] never reconfigures a block that was already
    running: such a block, wherever it is, is still running afterwards with
    the input rate and channel count it had, whatever output configuration
    its producer has now.  The configuration handed down by [start] reaches
    stopped consumers only. *)
Theorem start_keeps_running_inputs fuel p (w w' : world) q b :
  start fuel p w = Done true w' →
  heap w !! q = Some b → isRunning b = true →
  ∃ b', heap w' !! q = Some b' ∧ isRunning b' = true
    ∧ inputSampleRate b' = inputSampleRate b
    ∧ inputChannels b' = inputChannels b.
Proof.
  intros Hrun Hq Hon. destruct (start_true_started fuel p w w' Hrun) as [[He _] _].
  destruct (evolves_lookup _ _ _ _ _ He Hq) as (b' & Hq' & _ & _ & Hkeep).
  exists b'. split; [done|]. by apply Hkeep.
Qed.

(** X9: Once [start] has returned success, [setSampleRate] and [setChannels] on
    the block or on any block downstream of it do nothing at all: they return
    without a log record and leave the store as it is. *)
Theorem setters_ignored_after_start fuel p (w w' : world) q rate channels :
  start fuel p w = Done true w' → reach (heap w) p q →
  setSampleRate q rate w' = Done tt w' ∧ setChannels q channels w' = Done tt w'.
Proof.
  intros Hrun Hq. destruct (start_true_started fuel p w w' Hrun) as [[He _] Hall].
  apply (reach_evolves keeps_started (heap w) (heap w') p q
    keeps_started_consumers He) in Hq.
  destruct (Hall q Hq) as [(b & Hb & Hon & _) _].
  unfold setSampleRate, setChannels.
  rewrite !(bind_eq _ _ _ _ _ (deref_eq _ _ _ Hb)), Hon. done.
Qed.

(** ** A successful [run] *)

Lemma running_evolves_run (h h' : gmap ptr DspBlock) q :
  evolves keeps_run h h' → running h' q = running h q.
Proof.
  intros He. unfold running. destruct (He q) as [b b' [_ Hon]|]; done.
Qed.

Lemma processed_app (es es' : list (event sample_t)) :
  processed (es ++ es') = processed es ++ processed es'.
Proof. apply omap_app. Qed.

Lemma run_true_running fuel :
  ∀ p inBuffer (w w' : world), run fuel p inBuffer w = Done true w' →
    ∃ es, trace w' = trace w ++ es
      ∧ ∀ q, reach (heap w) p q → running (heap w) q = true ∧ q ∈ processed es.
Proof.
  induction fuel as [|n IH]; intros p inBuffer w w' Hrun; [discriminate Hrun|].
  rewrite run_S in Hrun.
  apply bind_Done in Hrun as (ok & w1 & Hself & Hrun).
  destruct ok; cbn [negb] in Hrun; [|by invert_M].
  pose proof (run_self_effect (λ _, 0%nat) nothing p inBuffer (λ H, H) _ _ _ Hself)
    as [He1 _].
  destruct (run_self_cases p inBuffer w true w1 Hself)
    as (b & Hb & [(_ & [=] & _)|(Hon & _ & _ & input & input' & b1 & _ & _ & Hb1
                                  & Hcfg & Hon1 & _ & Hw1)]).
  assert (∃ es1, trace w1 = trace w ++ es1 ∧ p ∈ processed es1) as (es1 & Ht1 & Hp1).
  { subst w1. unfold resized. destruct (decide (_ ≠ _)); cbn [trace logged with_block].
    - eexists. split; [by rewrite <- app_assoc|]. cbn. by left.
    - eexists. split; [done|]. cbn. by left. }
  apply bind_Done in Hrun as (bp & ? & [Hbp ->]%deref_Done & Hrun).
  assert (∀ cs (v v' : world), run_downstream (run n) p cs v = Done true v' →
    evolves keeps_run (heap v) (heap v')
    ∧ ∃ es, trace v' = trace v ++ es
        ∧ ∀ c q, c ∈ cs → reach (heap v) c q →
            running (heap v) q = true ∧ q ∈ processed es) as Hloop.
  { clear -IH. induction cs as [|c cs IHcs]; intros v v' Hrun; simpl in Hrun.
    - invert_M. split; [apply (evolves_refl keeps_run)|].
      exists []. split; [by rewrite app_nil_r|]. intros c q Hc. by apply elem_of_nil in Hc.
    - apply bind_Done in Hrun as (ok & v2 & Hc & Hrun).
      destruct ok; cbn [negb] in Hrun; [|by invert_M].
      pose proof (run_evolves (λ _, 0%nat) n c (BufferOf p) v true v2 Hc) as [He _].
      destruct (IH c (BufferOf p) v v2 Hc) as (es1 & Ht1 & Hq1).
      destruct (IHcs v2 v' Hrun) as (He' & es2 & Ht2 & Hq2).
      split; [by eapply (evolves_trans keeps_run)|].
      exists (es1 ++ es2). split; [by rewrite Ht2, Ht1, app_assoc|].
      intros c' q [->|Hc']%elem_of_cons Hq; rewrite processed_app, elem_of_app.
      + destruct (Hq1 q Hq). auto.
      + apply (reach_evolves keeps_run (heap v) (heap v2) c' q
          keeps_run_consumers He) in Hq.
        destruct (Hq2 c' q Hc' Hq) as [Hon Hin].
        rewrite (running_evolves_run _ _ q He) in Hon. auto. }
  destruct (Hloop (consumers bp) w1 w' Hrun) as (He2 & es2 & Ht2 & Hq2).
  exists (es1 ++ es2). split; [by rewrite Ht2, Ht1, app_assoc|].
  clear Hw1. intros q Hq. rewrite processed_app, elem_of_app.
  inversion Hq as [|? b' c ? Hp' Hc' Hq']; subst.
  - split; [|by left]. unfold running. by rewrite Hb.
  - assert (b' = b) as -> by congruence.
    destruct (evolves_lookup _ _ _ _ _ He1 Hb) as (bp' & Hbp' & Hk).
    assert (bp' = bp) as -> by congruence.
    apply (reach_evolves keeps_run (heap w) (heap w1) c _ keeps_run_consumers He1) in Hq'.
    destruct (Hq2 c q) as [Hrunning Hin]; [|done|].
    { by rewrite (keeps_run_consumers _ _ Hk). }
    rewrite (running_evolves_run _ _ _ He1) in Hrunning. auto.
Qed.

(** X10: When [run] returns success, the block and every block downstream of it
    were running and had their [process] hook called during this [run]: one
    stopped block anywhere downstream makes [run] return failure. *)
Theorem run_success_means_all_running fuel p inBuffer (w w' : world) :
  run fuel p inBuffer w = Done true w' →
  ∃ es, trace w' = trace w ++ es
    ∧ ∀ q, reach (heap w) p q →
        running (heap w) q = true ∧ ∃ input, CallProcess q input ∈ es.
Proof.
  intros Hrun. destruct (run_true_running fuel p inBuffer w w' Hrun) as (es & Ht & Hall).
  exists es. split; [done|]. intros q Hq. destruct (Hall q Hq) as [Hon Hin].
  split; [done|]. unfold processed in Hin.
  apply list_elem_of_omap in Hin as (e & He & Heq).
  destruct e; try discriminate. injection Heq; intros ->. eauto.
Qed.

(** ** The [deinit] calls of [stop] *)

Lemma deinits_app (es es' : list (event sample_t)) :
  deinits (es ++ es') = deinits es ++ deinits es'.
Proof. apply omap_app. Qed.

Lemma running_stop_mono (h h' : gmap ptr DspBlock) q :
  evolves keeps_stop h h' → running h q = false → running h' q = false.
Proof.
  intros He. unfold running. destruct (He q) as [b b' (_ & Hon & _)|]; auto.
Qed.

#[local] Instance halts_preorder : PreOrder (halts (sample_t:=sample_t) (Stage:=Stage)).
Proof.
  split.
  - intros w. split; [apply (evolves_refl keeps_stop)|].
    exists []. split; [by rewrite app_nil_r|]. split; [constructor|].
    split; [|constructor]. intros q. cbn. split; [by intros ?%elem_of_nil|].
    intros [-> [=]].
  - intros w1 w2 w3 (He1 & es1 & Ht1 & Hnd1 & Hiff1 & Hsh1)
      (He2 & es2 & Ht2 & Hnd2 & Hiff2 & Hsh2).
    split; [by eapply (evolves_trans keeps_stop)|].
    exists (es1 ++ es2). split; [by rewrite Ht2, Ht1, app_assoc|].
    rewrite deinits_app. split; [|split; [|by apply Forall_app]].
    + apply NoDup_app. split; [done|]. split; [|done].
      intros q [_ Hoff]%Hiff1 [Hon _]%Hiff2. congruence.
    + intros q. rewrite elem_of_app, Hiff1, Hiff2. split.
      * intros [[Hon Hoff]|[Hon Hoff]].
        -- split; [done|]. by apply (running_stop_mono _ _ q He2).
        -- split; [|done]. destruct (running (heap w1) q) eqn:Hq; [done|].
           by rewrite (running_stop_mono _ _ q He1 Hq) in Hon.
      * intros [Hon Hoff]. destruct (running (heap w2) q); auto.
Qed.

Lemma running_with_block p b (w : world) q :
  running (heap (with_block p b w)) q
  = if decide (q = p) then isRunning b else running (heap w) q.
Proof.
  unfold running. cbn [heap with_block]. destruct (decide (q = p)) as [->|Hne].
  - by rewrite lookup_insert_eq.
  - by rewrite lookup_insert_ne.
Qed.

Lemma stop_self_halts p : preserves halts (stop_self p).
Proof.
  intros w u w' Hrun.
  pose proof (stop_self_effect (λ _, 0%nat) nothing p (λ H, H) _ _ _ Hrun) as [He _].
  split; [done|]. clear He.
  destruct (stop_self_cases p w u w' Hrun) as (b & Hb & ->).
  destruct (isRunning b) eqn:Hon.
  - exists [Log DEBUG p StoppingBlock; CallDeinit p]. split; [done|].
    change (deinits [Log DEBUG p StoppingBlock; CallDeinit p]) with [p].
    split; [apply NoDup_singleton|].
    split; [|repeat constructor; eauto].
    intros q. cbn [heap logged]. rewrite running_with_block, list_elem_of_singleton.
    destruct (decide (q = p)) as [->|Hne].
    + unfold running. rewrite Hb. done.
    + split; [done|]. intros [-> [=]].
  - exists []. split; [by rewrite app_nil_r|]. split; [constructor|].
    split; [|constructor]. intros q. rewrite running_with_block. cbn.
    split; [by intros ?%elem_of_nil|].
    destruct (decide (q = p)) as [->|Hne].
    + unfold running. rewrite Hb. intros [? _]. congruence.
    + intros [-> [=]].
Qed.

Lemma stop_halts fuel p : preserves halts (stop fuel p).
Proof. apply stop_steps; [apply _|apply stop_self_halts]. Qed.

(** X11: [stop] calls [deinit] exactly once for each block that was running among
    the block it is called on and those downstream of it, and for no other
    block; besides these calls it only logs the blocks it stops, so it never
    calls [init] or [process]. *)
Theorem stop_deinits_running_blocks_once fuel p (w : world) u w' :
  stop fuel p w = Done u w' →
  ∃ es, trace w' = trace w ++ es
    ∧ NoDup (deinits es)
    ∧ (∀ q, CallDeinit q ∈ es ↔ reach (heap w) p q ∧ running (heap w) q = true)
    ∧ Forall (λ e, ∃ q, e = Log DEBUG q StoppingBlock ∨ e = CallDeinit q) es.
Proof.
  intros Hrun.
  destruct (stop_halts fuel p w u w' Hrun) as (He & es & Ht & Hnd & Hiff & Hsh).
  destruct (aside_alone p p w w' (stop_aside fuel p p w u w' Hrun))
    as (_ & es' & Ht' & Hsub).
  assert (es' = es) as -> by (rewrite Ht in Ht'; by apply app_inv_head in Ht').
  assert (∀ q, CallDeinit q ∈ es ↔ q ∈ deinits es) as Hin.
  { intros q. unfold deinits. rewrite list_elem_of_omap. split.
    - intros Hq. by exists (CallDeinit q).
    - intros (e & He' & Heq). destruct e; try discriminate.
      by injection Heq; intros ->. }
  exists es. do 2 (split; [done|]). split; [|done].
  intros q. rewrite Hin, Hiff. split.
  - intros [Hon Hoff]. split; [|done].
    apply (Hsub (CallDeinit q)), Hin, Hiff. done.
  - intros [Hq Hon]. split; [done|].
    apply released_not_running. eapply stop_releases; [exact Hrun|].
    by apply (reach_evolves keeps_stop (heap w) (heap w') p q keeps_stop_consumers He).
Qed.

(** ** [disconnect] *)

Lemma disconnect_cases fuel p t (w : world) u w' :
  disconnect fuel p t w = Done u w' →
  ∃ b w1 b1, heap w !! p = Some b
    ∧ (if isRunning b then stop fuel t w = Done tt w1 else w1 = w)
    ∧ heap w1 !! p = Some b1
    ∧ w' = logged
        (with_block p (set_consumers (filter (λ c, c ≠ t) (consumers b1)) b1) w1)
        [Log DEBUG p (RemovedConsumer t)].
Proof.
  unfold disconnect. intros Hrun.
  apply bind_Done in Hrun as (b & ? & [Hb ->]%deref_Done & Hrun).
  apply bind_Done in Hrun as ([] & w1 & Hstop & Hrun).
  apply bind_Done in Hrun as ([] & w2 & (b1 & Hb1 & ->)%update_Done & ->%emit_Done).
  exists b, w1, b1. split; [done|]. split; [|done].
  destruct (isRunning b); [done|by invert_M].
Qed.

Lemma released_with_block p b (w : world) q :
  released (heap w) q → (q = p → isRunning b = false ∧ buffer b = []) →
  released (heap (with_block p b w)) q.
Proof.
  intros (bq & Hq & Hoff & Hbuf) Hp. cbn [heap with_block].
  destruct (decide (q = p)) as [->|Hne].
  - exists b. rewrite lookup_insert_eq. destruct Hp; done.
  - exists bq. by rewrite lookup_insert_ne.
Qed.

Lemma disconnect_consumers fuel p t (w : world) b u w' :
  heap w !! p = Some b →
  disconnect fuel p t w = Done u w' →
  ∃ b', heap w' !! p = Some b'
    ∧ consumers b' = filter (λ c, c ≠ t) (consumers b).
Proof.
  intros Hb (b0 & w1 & b1 & Hb0 & Hstop & Hb1 & ->)%disconnect_cases.
  assert (b0 = b) as -> by congruence.
  assert (evolves keeps_stop (heap w) (heap w1)) as He.
  { destruct (isRunning b); [|subst w1; apply (evolves_refl keeps_stop)].
    eapply (stop_evolves (λ _, 0%nat) fuel t), Hstop. }
  destruct (evolves_lookup _ _ _ _ _ He Hb) as (b1' & Hb1' & Hk).
  assert (b1' = b1) as -> by congruence.
  eexists. split; [apply lookup_insert_eq|]. cbn [consumers set_consumers].
  by rewrite (keeps_stop_consumers _ _ Hk).
Qed.

(** X12: [disconnect] removes every occurrence of the target from the consumer
    list and keeps the other consumers in their order, whether or not the
    target was connected.  On a stopped block nothing else changes; on a
    running block the target and everything downstream of it is stopped
    first, even when the target was not among the consumers. *)
Theorem disconnect_detaches_and_stops fuel p t (w : world) b u w' :
  heap w !! p = Some b →
  disconnect fuel p t w = Done u w' →
  (∃ b', heap w' !! p = Some b'
     ∧ consumers b' = filter (λ c, c ≠ t) (consumers b)
     ∧ t ∉ consumers b')
  ∧ (∀ x bx, x ≠ p → heap w !! x = Some bx →
       ∃ bx', heap w' !! x = Some bx' ∧ consumers bx' = consumers bx)
  ∧ (isRunning b = false →
     w' = logged
       (with_block p (set_consumers (filter (λ c, c ≠ t) (consumers b)) b) w)
       [Log DEBUG p (RemovedConsumer t)])
  ∧ (isRunning b = true → ∀ q, reach (heap w) t q → released (heap w') q).
Proof.
  intros Hb (b0 & w1 & b1 & Hb0 & Hstop & Hb1 & ->)%disconnect_cases.
  assert (b0 = b) as -> by congruence.
  assert (evolves keeps_stop (heap w) (heap w1)) as He.
  { destruct (isRunning b); [|subst w1; apply (evolves_refl keeps_stop)].
    eapply (stop_evolves (λ _, 0%nat) fuel t), Hstop. }
  destruct (evolves_lookup _ _ _ _ _ He Hb) as (b1' & Hb1' & Hk).
  assert (b1' = b1) as -> by congruence.
  pose proof (keeps_stop_consumers _ _ Hk) as Hcs.
  split; [|split; [|split]].
  - eexists. split; [apply lookup_insert_eq|]. cbn [consumers set_consumers].
    rewrite Hcs. split; [done|]. intros [Hne _]%list_elem_of_filter. by apply Hne.
  - intros x bx Hne Hx. cbn [heap logged with_block]. rewrite lookup_insert_ne by done.
    destruct (evolves_lookup _ _ _ _ _ He Hx) as (bx' & Hx' & Hkx).
    exists bx'. split; [done|]. by apply keeps_stop_consumers.
  - intros Hoff. rewrite Hoff in Hstop. subst w1.
    by assert (b1 = b) as -> by congruence.
  - intros Hon q Hq. rewrite Hon in Hstop. cbn [heap logged].
    apply (reach_evolves keeps_stop (heap w) (heap w1) t q keeps_stop_consumers He) in Hq.
    pose proof (stop_releases fuel t w tt w1 Hstop q Hq) as Hrel.
    apply released_with_block; [done|]. intros ->.
    destruct Hrel as (bp & Hbp & Hoff & Hbuf).
    by assert (bp = b1) as -> by congruence.
Qed.

Lemma set_consumers_id (b : DspBlock) cs :
  set_consumers (consumers b) (set_consumers cs b) = b.
Proof. by destruct b. Qed.

Lemma filter_out_appended t (cs : list ptr) :
  t ∉ cs → filter (λ c, c ≠ t) (cs ++ [t]) = cs.
Proof.
  intros Ht. rewrite filter_app.
  assert (filter (λ c, c ≠ t) [t] = []) as ->.
  { rewrite filter_cons, decide_False by (intros Hne; by apply Hne). done. }
  rewrite app_nil_r. induction cs as [|c cs IH]; [done|].
  apply not_elem_of_cons in Ht as [Hne Ht].
  rewrite filter_cons, decide_True by done. by rewrite IH.
Qed.

(** X13: Connecting a block that is not yet a consumer and disconnecting it again
    restores the consumer list.  On a stopped block the store is back to what
    it was and only the log tells: two records. *)
Theorem connect_disconnect_round_trip fuel p t (w : world) b :
  heap w !! p = Some b → t ∉ consumers b →
  (isRunning b = false →
   (connect fuel p t;; disconnect fuel p t) w
   = Done tt (logged w [Log DEBUG p (AddedConsumer t); Log DEBUG p (RemovedConsumer t)]))
  ∧ ∀ u w', (connect fuel p t;; disconnect fuel p t) w = Done u w' →
      ∃ b', heap w' !! p = Some b' ∧ consumers b' = consumers b.
Proof.
  intros Hb Ht. split.
  - intros Hoff.
    erewrite bind_eq; [|apply (connect_eq fuel p t w w b b Hb); [by rewrite Hoff|done]].
    rewrite decide_False by done.
    unfold disconnect. exec. cbn [isRunning set_consumers]. rewrite Hoff. exec.
    cbn [consumers set_consumers]. tidy.
    rewrite (filter_out_appended t _ Ht), set_consumers_id.
    by rewrite (with_block_id _ _ _ Hb).
  - intros u w' (? & w1 & Hcon & Hdis)%bind_Done.
    apply connect_inv in Hcon as (b0 & v1 & b1 & Hb0 & Hstart & Hb1 & ->).
    assert (b0 = b) as -> by congruence.
    assert (consumers b1 = consumers b) as Hcs1.
    { destruct (isRunning b).
      - destruct Hstart as [r Hstart].
        pose proof (start_evolves (λ _, 0%nat) fuel t _ _ _ Hstart) as [He _].
        destruct (evolves_lookup _ _ _ _ _ He Hb) as (b1' & Hb1' & Hk). congruence.
      - subst v1. congruence. }
    destruct (decide (t ∈ consumers b1)) as [Hin|_]; [by rewrite Hcs1 in Hin|].
    eapply disconnect_consumers in Hdis as (b' & Hb' & Hcs'); [|apply lookup_insert_eq].
    exists b'. split; [done|]. rewrite Hcs'. cbn [consumers set_consumers].
    rewrite Hcs1. by apply filter_out_appended.
Qed.

(** ** Which rate pairs [start] accepts *)

Lemma reconstructed_interpolating (b : DspBlock) :
  0 < inputSampleRate b → inputSampleRate b < outputSampleRate b →
  outputSampleRate b < UINT_MODULUS →
  reconstructed (rated b) = outputSampleRate (rated b)
  ↔ (inputSampleRate b | outputSampleRate b).
Proof.
  intros Hin Hlt Hfit.
  destruct (rated_fields b) as (Hrin & Hrout & _).
  destruct (rated_rates b) as [Hd Hi].
  unfold reconstructed. rewrite Hrin, Hrout, Hd, Hi.
  rewrite !decide_False by lia. rewrite N.div_1_r.
  set (i := inputSampleRate b) in *. set (o := outputSampleRate b) in *.
  assert (i * (o / i) ≤ o) as Hle by (apply N.Div0.mul_div_le).
  unfold umul, wrap. rewrite N.mod_small by lia.
  rewrite <- (N.Lcm0.mod_divide o i), <- (N.Div0.div_exact o i).
  split; intros H; symmetry; exact H.
Qed.

Lemma reconstructed_decimating (b : DspBlock) :
  0 < outputSampleRate b → outputSampleRate b ≤ inputSampleRate b →
  inputSampleRate b < UINT_MODULUS →
  (outputSampleRate b | inputSampleRate b) →
  reconstructed (rated b) = outputSampleRate (rated b).
Proof.
  intros Hout Hle Hfit [k Hk].
  destruct (rated_fields b) as (Hrin & Hrout & _).
  destruct (rated_rates b) as [Hd Hi].
  unfold reconstructed. rewrite Hrin, Hrout, Hd, Hi.
  rewrite !decide_True by lia.
  set (i := inputSampleRate b) in *. set (o := outputSampleRate b) in *.
  unfold umul, wrap. rewrite N.mul_1_r, N.mod_small by lia.
  rewrite Hk, N.div_mul by lia.
  rewrite N.mul_comm, N.div_mul; [done|]. intros ->. lia.
Qed.

Lemma start_self_accepts p (w : world) b :
  heap w !! p = Some b →
  init_ok (init_hook p (seeded b)) = true →
  inputSampleRate b ≠ 0 → init_rate (init_hook p (seeded b)) ≠ 0 →
  (∃ w1, start_self p w = Done true w1)
  ↔ reconstructed (rated (initialised p b)) = outputSampleRate (rated (initialised p b)).
Proof.
  intros Hb Hok Hin Hout.
  rewrite (start_self_rated p w b Hb Hok Hin Hout). cbv zeta.
  destruct (decide (_ ≠ _)) as [Hne|Heq].
  - split; [by intros [w1 [=]]|done].
  - apply dec_stable in Heq. split; [done|]. intros _. by eexists.
Qed.

(** X14: With an accepting [init] and rates that fit 32 bits, the local part of
    [start] succeeds when the output rate set by [init] divides the input
    rate; in particular it always does for a block whose [init] leaves the
    output rate at the default [start] seeded it with, the input rate.  When
    the output rate is the larger one, it succeeds if and only if the input
    rate divides it. *)
Theorem start_accepts_integer_ratios p (w : world) b :
  heap w !! p = Some b →
  init_ok (init_hook p (seeded b)) = true →
  let input := inputSampleRate b in
  let output := init_rate (init_hook p (seeded b)) in
  0 < input → input < UINT_MODULUS → 0 < output → output < UINT_MODULUS →
  (output ≤ input → (output | input) → ∃ w1, start_self p w = Done true w1)
  ∧ (output = input → ∃ w1, start_self p w = Done true w1)
  ∧ (input < output → (∃ w1, start_self p w = Done true w1) ↔ (input | output)).
Proof.
  intros Hb Hok input output Hin Hinfit Hout Houtfit.
  assert (inputSampleRate (initialised p b) = input) as Hi by done.
  assert (outputSampleRate (initialised p b) = output) as Ho by done.
  pose proof (start_self_accepts p w b Hb Hok) as Hacc.
  fold input output in Hacc.
  assert (output ≤ input → (output | input) → ∃ w1, start_self p w = Done true w1) as Hdec.
  { intros Hle Hdiv. apply Hacc; [lia..|].
    apply reconstructed_decimating; rewrite ?Hi, ?Ho; done. }
  split; [done|]. split.
  - intros Heq. apply Hdec; [lia|]. by rewrite Heq.
  - intros Hlt. rewrite Hacc by lia.
    rewrite reconstructed_interpolating; rewrite ?Hi, ?Ho; done.
Qed.

(** ** A failing [process] *)

Lemma resized_sized p (b : DspBlock) input (w : world) :
  heap w !! p = Some b →
  heap (resized p b input w) !! p = Some (sized b input).
Proof.
  intros Hb. unfold resized, sized. destruct (decide (_ ≠ _)); [|done].
  apply lookup_insert_eq.
Qed.

(** X15: When the [process] hook of a running block fails, [run] returns failure
    at once: the buffer has been resized and [process] has been called, an
    error is logged, and no consumer is run, so no other block changes. *)
Theorem run_stops_at_failing_process n p input (w : world) b :
  heap w !! p = Some b → isRunning b = true →
  inputChannels b ≠ 0 → decimation b ≠ 0 →
  let b1 := sized b input in
  let r := process_hook p b1 input (buffer b1) in
  process_ok r = false →
  run (S n) p (Extern input) w
  = Done false
      (logged
        (with_block p (set_stage (process_stage r) (set_buffer (process_out r) b1))
          (resized p b input w))
        [CallProcess p input; Log ERROR p PipelineFailed])
  ∧ ∀ x, x ≠ p →
      heap (with_block p (set_stage (process_stage r) (set_buffer (process_out r) b1))
             (resized p b input w)) !! x = heap w !! x.
Proof.
  intros Hb Hon Hch Hdec b1 r Hfail. split.
  - rewrite run_S.
    rewrite (bind_eq _ _ _ false
      (logged
        (with_block p (set_stage (process_stage r) (set_buffer (process_out r) b1))
          (resized p b input w))
        [CallProcess p input; Log ERROR p PipelineFailed])); [done|].
    rewrite (run_self_resize p (Extern input) w b input Hb Hon eq_refl Hch Hdec).
    rewrite (bind_eq _ _ _ _ _
      (process_eq p (Extern input) _ b1 input (resized_sized p b input w Hb) eq_refl)).
    cbv zeta. fold r. rewrite Hfail. cbn [negb]. exec. by tidy.
  - intros x Hne. cbn [heap with_block]. rewrite lookup_insert_ne by done.
    unfold resized. destruct (decide (_ ≠ _)); [|done].
    cbn [heap logged with_block]. by rewrite lookup_insert_ne.
Qed.

(** ** The destructor *)





(** ** A failing [init] *)

(** X18: When [init] rejects the configuration, [start] returns failure at once:
    it logs the error, calls no [deinit], visits no consumer and leaves the
    running flag as it was, so a running block whose second [init] fails
    stays running.  The output rate and channel count are what [init] left. *)
Theorem start_init_failure n p (w : world) b :
  heap w !! p = Some b →
  init_ok (init_hook p (seeded b)) = false →
  start (S n) p w
  = Done false
      (logged (with_block p (initialised p b) w)
        [Log DEBUG p StartingBlock; CallInit p; Log ERROR p FailedToInitialise])
  ∧ isRunning (initialised p b) = isRunning b
  ∧ buffer (initialised p b) = buffer b
  ∧ (decimation (initialised p b), interpolation (initialised p b))
    = (decimation b, interpolation b)
  ∧ outputSampleRate (initialised p b) = init_rate (init_hook p (seeded b))
  ∧ outputChannels (initialised p b) = init_channels (init_hook p (seeded b)).
Proof.
  intros Hb Hok. split; [|done].
  by rewrite start_S, (bind_eq _ _ _ _ _ (start_self_init_fails p w b Hb Hok)).
Qed.

(** ** Connection order *)

(** X19: Connecting blocks one after the other to a stopped block appends them to
    its consumer list in the order of the calls, which is the order [start],
    [stop] and [run] visit them in; nothing else in the store changes. *)
Theorem connect_appends_in_order fuel p ts :
  ∀ (w : world) b,
    heap w !! p = Some b → isRunning b = false →
    NoDup ts → (∀ t, t ∈ ts → t ∉ consumers b) →
    ∃ w', for_each ts (connect fuel p) w = Done tt w'
      ∧ heap w' = <[p:=set_consumers (consumers b ++ ts) b]> (heap w)
      ∧ trace w' = trace w ++ ((λ t, Log DEBUG p (AddedConsumer t)) <$> ts).
Proof.
  induction ts as [|t ts IH]; intros w b Hb Hoff Hnd Hnew.
  - exists w. split; [done|]. rewrite !app_nil_r. split; [|done].
    destruct b. by rewrite insert_id.
  - apply NoDup_cons in Hnd as [Ht Hnd].
    pose proof (connect_eq fuel p t w w b b Hb) as Hcon.
    rewrite Hoff in Hcon. specialize (Hcon eq_refl Hb).
    rewrite decide_False in Hcon by (apply Hnew; by left).
    destruct (IH (logged (with_block p (set_consumers (consumers b ++ [t]) b) w)
                    [Log DEBUG p (AddedConsumer t)])
                 (set_consumers (consumers b ++ [t]) b))
      as (w' & Hrest & Hheap & Htrace); [apply lookup_insert_eq|done|done| |].
    { intros t' Ht'. cbn [consumers set_consumers]. rewrite elem_of_app.
      intros [Hin| ->%list_elem_of_singleton]; [|done].
      revert Hin. apply Hnew. by right. }
    exists w'. split; [|split].
    + simpl. by rewrite (bind_eq _ _ _ _ _ Hcon).
    + rewrite Hheap. cbn [heap logged with_block consumers set_consumers].
      rewrite insert_insert_eq, <- app_assoc. done.
    + rewrite Htrace. cbn [trace logged with_block fmap list_fmap].
      by rewrite <- app_assoc.
Qed.

(** ** Input shorter than one frame *)

(** X20: On a running block an input shorter than one frame, the empty input
    included, counts as zero frames: [run] empties the buffer and still calls
    [process], with that input and an empty output block. *)
Theorem run_short_input_empties_buffer p input (w : world) b :
  heap w !! p = Some b → isRunning b = true →
  inputChannels b ≠ 0 → decimation b ≠ 0 →
  N.of_nat (length input) < inputChannels b →
  inframes b input = 0 ∧ outframes b input = 0 ∧ wanted b input = 0
  ∧ buffer (sized b input) = []
  ∧ let r := process_hook p (sized b input) input [] in
    run_self p (Extern input) w
    = Done (process_ok r)
        (logged
          (with_block p
            (set_stage (process_stage r) (set_buffer (process_out r) (sized b input)))
            (resized p b input w))
          (CallProcess p input
           :: if process_ok r then [] else [Log ERROR p PipelineFailed])).
Proof.
  intros Hb Hon Hch Hdec Hshort.
  assert (inframes b input = 0) as Hin.
  { unfold inframes. by rewrite N.div_small. }
  assert (outframes b input = 0) as Hout.
  { unfold outframes, umul, wrap. by rewrite Hin. }
  assert (wanted b input = 0) as Hwant by (unfold wanted; by rewrite Hout).
  assert (buffer (sized b input) = []) as Hbuf.
  { unfold sized. rewrite Hwant. destruct (decide (_ ≠ _)) as [Hne|Heq].
    - cbn [buffer set_buffer]. by destruct (buffer b).
    - apply dec_stable in Heq. by destruct (buffer b). }
  do 4 (split; [done|]). cbv zeta.
  rewrite (run_self_resize p (Extern input) w b input Hb Hon eq_refl Hch Hdec).
  rewrite (bind_eq _ _ _ _ _
    (process_eq p (Extern input) _ _ input (resized_sized p b input w Hb) eq_refl)).
  cbv zeta. rewrite Hbuf.
  destruct (process_ok _); cbn [negb]; [done|]. exec. by tidy.
Qed.

(** ** The order of the [deinit] calls of [stop] *)

Lemma elem_of_deinits q (es : list (event sample_t)) :
  q ∈ deinits es ↔ CallDeinit q ∈ es.
Proof.
  unfold deinits. rewrite list_elem_of_omap. split.
  - intros (e & He & Heq). destruct e; try discriminate.
    by injection Heq; intros ->.
  - intros Hq. by exists (CallDeinit q).
Qed.

#[local] Instance downstream_first_preorder :
  PreOrder (downstream_first (sample_t:=sample_t) (Stage:=Stage)).
Proof.
  split.
  - intros w. split; [apply (evolves_refl keeps_stop)|].
    exists []. split; [by rewrite app_nil_r|].
    split; [by intros q ?%elem_of_nil|]. split; [by intros a ba c ?%elem_of_nil|].
    intros es1 a es2 ba c Heq. by apply app_cons_not_nil in Heq.
  - intros w1 w2 w3 (He1 & esA & HtA & HonA & HoffA & HordA)
      (He2 & esB & HtB & HonB & HoffB & HordB).
    split; [by eapply (evolves_trans keeps_stop)|].
    exists (esA ++ esB). split; [by rewrite HtB, HtA, app_assoc|].
    split; [|split].
    + intros q. rewrite deinits_app, elem_of_app. intros [Hq|Hq]; [by apply HonA|].
      destruct (running (heap w1) q) eqn:Hq1; [done|].
      pose proof (HonB q Hq) as Hq2.
      by rewrite (running_stop_mono _ _ q He1 Hq1) in Hq2.
    + intros a ba c. rewrite deinits_app, elem_of_app. intros [Ha|Ha] Hba Hc.
      * apply (running_stop_mono _ _ c He2). by eapply HoffA.
      * destruct (evolves_lookup _ _ _ _ _ He1 Hba) as (ba2 & Hba2 & Hk).
        apply (HoffB a ba2 c Ha Hba2). by rewrite (keeps_stop_consumers _ _ Hk).
    + intros es1 a es2 ba c Heq Hba Hc.
      apply app_eq_inv in Heq as [(k & HA & HB)|(k & H1 & HB)].
      * destruct k as [|e k]; simpl in HB.
        -- destruct (evolves_lookup _ _ _ _ _ He1 Hba) as (ba2 & Hba2 & Hk).
           apply (HordB [] a es2 ba2 c); [done|done|].
           by rewrite (keeps_stop_consumers _ _ Hk).
        -- injection HB; intros -> <-. rewrite deinits_app, elem_of_app.
           intros [Hin|Hin]; [by apply (HordA es1 a k ba c)|].
           assert (running (heap w2) c = false) as Hoff.
           { apply (HoffA a ba c); [|done|done].
             apply elem_of_deinits. rewrite HA, elem_of_app. right. by left. }
           by rewrite (HonB c Hin) in Hoff.
      * destruct (evolves_lookup _ _ _ _ _ He1 Hba) as (ba2 & Hba2 & Hk).
        apply (HordB k a es2 ba2 c); [done|done|].
        by rewrite (keeps_stop_consumers _ _ Hk).
Qed.

Lemma stop_downstream_first fuel : ∀ p, preserves downstream_first (stop fuel p).
Proof.
  induction fuel as [|n IH]; intros p; [apply preserves_starved|].
  intros w u w' Hstop. pose proof Hstop as Hrun. rewrite stop_S in Hrun.
  apply bind_Done in Hrun as (b & ? & [Hb ->]%deref_Done & Hrun).
  apply bind_Done in Hrun as ([] & w1 & Hloop & Hself).
  etrans; [by eapply (steps_for_each downstream_first), Hloop|].
  pose proof (stop_self_effect (λ _, 0%nat) nothing p (λ H, H) _ _ _ Hself) as [He _].
  split; [done|].
  destruct (stop_self_cases p w1 u w' Hself) as (b1 & Hb1 & Hw').
  destruct (isRunning b1) eqn:Hon.
  - exists [Log DEBUG p StoppingBlock; CallDeinit p]. split; [by rewrite Hw'|].
    change (deinits [Log DEBUG p StoppingBlock; CallDeinit p]) with [p].
    split; [|split].
    + intros q ->%list_elem_of_singleton. unfold running. by rewrite Hb1.
    + intros a ba c ->%list_elem_of_singleton Hba Hc.
      assert (ba = b1) as -> by congruence.
      apply released_not_running. eapply stop_releases; [exact Hstop|].
      destruct (evolves_lookup _ _ _ _ _ He Hb1) as (b' & Hb' & Hk).
      eapply reach_step; [exact Hb'| |constructor].
      by rewrite (keeps_stop_consumers _ _ Hk).
    + intros es1 a es2 ba c Heq _ _.
      destruct es1 as [|e1 [|e2 es1]]; [discriminate Heq| |].
      * injection Heq; intros <- _ _. by intros ?%elem_of_nil.
      * injection Heq; intros Heq' _ _. by apply app_cons_not_nil in Heq'.
  - exists []. split; [rewrite Hw'; cbn; by rewrite app_nil_r|].
    split; [by intros q ?%elem_of_nil|]. split; [by intros a ba c ?%elem_of_nil|].
    intros es1 a es2 ba c Heq. by apply app_cons_not_nil in Heq.
Qed.

(** X21: [stop] releases downstream first: in the log it writes, once [deinit] of
    a block has been called, no [deinit] of any of its consumers follows, so
    every consumer that had to be released was released before its
    producer. *)
Theorem stop_deinits_consumers_first fuel p (w : world) u w' :
  stop fuel p w = Done u w' →
  ∃ es, trace w' = trace w ++ es
    ∧ ∀ es1 a es2 ba c,
        es = es1 ++ CallDeinit a :: es2 →
        heap w !! a = Some ba → c ∈ consumers ba →
        CallDeinit c ∉ es2.
Proof.
  intros Hrun.
  destruct (stop_downstream_first fuel p w u w' Hrun) as (_ & es & Ht & _ & _ & Hord).
  exists es. split; [done|]. intros es1 a es2 ba c Heq Hba Hc.
  rewrite <- elem_of_deinits. by eapply Hord.
Qed.

(** ** The configuration [start] hands down *)

Lemma reach_rank rank (h : gmap ptr DspBlock) a x :
  ranked rank h → reach h a x → (rank x ≤ rank a)%nat.
Proof.
  intros Hr. induction 1 as [|p b c q Hp Hc _ IH]; [done|].
  destruct (ranked_consumers rank h p b c Hr Hp Hc) as [_ Hlt]. lia.
Qed.

(** One round of the downstream loop of [start], on consumer [c']. *)
Lemma start_round_aside n c' x rate channels (v v2 v4 v5 : world) r :
  setSampleRate c' rate v = Done tt v2 →
  setChannels c' channels v2 = Done tt v4 →
  start n c' v4 = Done r v5 →
  aside [c'] x v v2 ∧ aside [c'] x v v4 ∧ aside [c'] x v v5.
Proof.
  intros H1 H2 H3.
  pose proof (setSampleRate_aside c' rate x _ _ _ H1) as A1.
  pose proof (setChannels_aside c' channels x _ _ _ H2) as A2.
  pose proof (start_aside n x c' _ _ _ H3) as A3.
  split; [done|]. split; [by etrans|]. etrans; [done|]. by etrans.
Qed.

Lemma start_round_configures rank n c (b1 : DspBlock) (v v2 v4 v5 : world) :
  ranked rank (heap v) →
  configured_by b1 c v ∨ idle c v →
  setSampleRate c (outputSampleRate b1) v = Done tt v2 →
  setChannels c (outputChannels b1) v2 = Done tt v4 →
  start n c v4 = Done true v5 →
  configured_by b1 c v5.
Proof.
  intros Hr Hstate H1 H2 H3.
  destruct (start_round_aside n c c _ _ v v2 v4 v5 true H1 H2 H3) as (_ & [He4 _] & _).
  assert (ranked rank (heap v4)) as Hr4.
  { by eapply (evolves_ranked rank keeps_start keeps_start_consumers). }
  assert (∃ b4, heap v4 !! c = Some b4
            ∧ inputSampleRate b4 = outputSampleRate b1
            ∧ inputChannels b4 = outputChannels b1) as (b4 & Hb4 & Hrate & Hch).
  { destruct (setSampleRate_cases c _ v tt v2 H1) as (bc & Hbc & Hv2).
    destruct (setChannels_cases c _ v2 tt v4 H2) as (bc2 & Hbc2 & Hv4).
    destruct Hstate as [(bc' & Hbc' & Hon & Hrate & Hch)|(bc' & Hbc' & Hoff)];
      assert (bc' = bc) as -> by congruence.
    - rewrite Hon in Hv2. subst v2. assert (bc2 = bc) as -> by congruence.
      rewrite Hon in Hv4. subst v4. by exists bc.
    - rewrite Hoff in Hv2. subst v2. cbn [heap logged with_block] in Hbc2.
      rewrite lookup_insert_eq in Hbc2. injection Hbc2; intros <-.
      cbn [isRunning set_inputSampleRate] in Hv4. rewrite Hoff in Hv4. subst v4.
      eexists. split; [apply lookup_insert_eq|]. done. }
  destruct (start_keeps_inputs rank n c v4 b4 true v5 Hr4 Hb4 H3)
    as (b5 & Hb5 & Hrate5 & Hch5).
  destruct (start_true_started n c v4 v5 H3) as [_ Hall].
  destruct (Hall c (reach_here _ c)) as [(b5' & Hb5' & Hon & _) _].
  assert (b5' = b5) as -> by congruence.
  exists b5. split; [done|]. split; [done|]. split; congruence.
Qed.

Lemma start_downstream_configures rank n p (b1 : DspBlock) c :
  (rank c < rank p)%nat →
  ∀ cs (v w' : world),
    ranked rank (heap v) → heap v !! p = Some b1 →
    (∀ c', c' ∈ cs → (rank c' < rank p)%nat) →
    (∀ c', c' ∈ cs → c' ≠ c → ¬ reach (heap v) c' c) →
    configured_by b1 c v ∨ idle c v →
    start_downstream (start n) (stop (S n) p) p cs v = Done true w' →
    heap w' !! p = Some b1
    ∧ (c ∈ cs ∨ configured_by b1 c v → configured_by b1 c w').
Proof.
  intros Hcp. induction cs as [|c' cs IH]; intros v w' Hr Hp Hlt Hsib Hstate Hrun;
    simpl in Hrun.
  - invert_M. split; [done|]. intros [Hc|Hc]; [by apply elem_of_nil in Hc|done].
  - apply bind_Done in Hrun as (b1' & ? & [Hb1' ->]%deref_Done & Hrun).
    assert (b1' = b1) as -> by congruence.
    apply bind_Done in Hrun as ([] & v2 & Hset1 & Hrun).
    apply bind_Done in Hrun as (b2 & ? & [Hb2 ->]%deref_Done & Hrun).
    apply bind_Done in Hrun as ([] & v4 & Hset2 & Hrun).
    apply bind_Done in Hrun as (ok & v5 & Hstart & Hrun).
    destruct ok; cbn [negb] in Hrun; [|by invert_M].
    assert (rank c' < rank p)%nat as Hc'p by (apply Hlt; by left).
    assert (∀ x, ¬ reach (heap v) c' x →
      heap v2 !! x = heap v !! x ∧ heap v5 !! x = heap v !! x) as Hframe.
    { intros x Hx.
      destruct (start_round_aside n c' x _ _ v v2 v4 v5 true Hset1 Hset2 Hstart)
        as ((_ & Hf2 & _) & _ & (_ & Hf5 & _)).
      split; [apply Hf2|apply Hf5]; by intros ? ->%list_elem_of_singleton. }
    destruct (start_round_aside n c' p _ _ v v2 v4 v5 true Hset1 Hset2 Hstart)
      as (_ & _ & (He5 & _)).
    destruct (Hframe p) as [Hp2 Hp5].
    { intros Hreach. apply (reach_rank rank _ _ _ Hr) in Hreach. lia. }
    assert (b2 = b1) as -> by congruence.
    assert (configured_by b1 c v5 ∨ idle c v5
            ∧ (configured_by b1 c v → configured_by b1 c v5)
            ∧ c' ≠ c) as Hstate5.
    { destruct (decide (c' = c)) as [->|Hne].
      - left. by eapply (start_round_configures rank n c b1 v v2 v4 v5).
      - destruct (Hframe c (Hsib c' ltac:(by left) Hne)) as [_ Hc5].
        unfold configured_by, idle. rewrite Hc5.
        destruct Hstate as [Hconf|Hidle]; [by left|right; by repeat split]. }
    destruct (IH v5 w') as [Hp' Hconf']; try done.
    + by eapply (evolves_ranked rank keeps_start keeps_start_consumers).
    + congruence.
    + intros c'' Hc''. apply Hlt. by right.
    + intros c'' Hc'' Hne Hreach. apply (Hsib c''); [by right|done|].
      by apply (reach_evolves keeps_start (heap v) (heap v5) c'' c
        keeps_start_consumers He5).
    + destruct Hstate5 as [?|(? & _)]; auto.
    + split; [done|]. intros Hc. apply Hconf'.
      destruct Hstate5 as [?|(_ & Hkeep & Hne)]; [by right|].
      destruct Hc as [[->|Hc]%elem_of_cons|Hc]; [done|by left|right; auto].
Qed.

(** X22: A successful [start] hands its output configuration down: a consumer
    that was stopped before, and that no other consumer of the block reaches,
    ends up running with the block's output rate and channel count as its
    input rate and channel count. *)
Theorem start_configures_consumers rank n p (w w' : world) bp c :
  ranked rank (heap w) →
  start (S n) p w = Done true w' →
  heap w' !! p = Some bp → c ∈ consumers bp →
  running (heap w) c = false →
  (∀ c', c' ∈ consumers bp → c' ≠ c → ¬ reach (heap w) c' c) →
  ∃ bc, heap w' !! c = Some bc ∧ isRunning bc = true
    ∧ inputSampleRate bc = outputSampleRate bp
    ∧ inputChannels bc = outputChannels bp.
Proof.
  intros Hr Hstart Hbp Hc Hoff Hsib. pose proof Hstart as Hrun.
  rewrite start_S in Hrun.
  apply bind_Done in Hrun as (ok & w1 & Hself & Hrun).
  destruct ok; cbn [negb] in Hrun; [|by invert_M].
  apply bind_Done in Hrun as (b1 & ? & [Hb1 ->]%deref_Done & Hrun).
  pose proof (start_self_aside p c w true w1 Hself) as (He1 & _).
  pose proof (start_aside (S n) c p w true w' Hstart) as (He & _).
  assert (ranked rank (heap w1)) as Hr1.
  { by eapply (evolves_ranked rank keeps_start keeps_start_consumers). }
  assert (consumers bp = consumers b1) as Hcs.
  { destruct (evolves_lookup_inv _ _ _ _ _ He Hbp) as (b & Hb & Hk).
    destruct (evolves_lookup _ _ _ _ _ He1 Hb) as (b1' & Hb1' & Hk1).
    assert (b1' = b1) as -> by congruence.
    unfold keeps_start in Hk, Hk1. congruence. }
  rewrite Hcs in Hc, Hsib.
  assert (∀ x, x ≠ p → heap w1 !! x = heap w !! x) as Hsame.
  { intros x Hne.
    destruct (start_self_cases p w true w1 Hself)
      as (b & Hb & [(_ & _ & ->)|(_ & _ & _ & [(_ & _ & ->)|(_ & _ & ->)])]);
      cbn [heap logged with_block]; by rewrite lookup_insert_ne. }
  assert (∀ c', c' ∈ consumers b1 → (rank c' < rank p)%nat) as Hlt.
  { intros c' Hc'. by eapply ranked_consumers. }
  destruct (start_downstream_configures rank n p b1 c (Hlt c Hc)
    (consumers b1) w1 w') as [Hp' Hconf]; try done.
  - intros c' Hc' Hne Hreach. apply (Hsib c' Hc' Hne).
    by apply (reach_evolves keeps_start (heap w) (heap w1) c' c
      keeps_start_consumers He1).
  - right. destruct (ranked_consumers rank _ p b1 c Hr1 Hb1 Hc) as [[bc Hbc] Hcp].
    exists bc. split; [done|]. rewrite Hsame in Hbc by (intros ->; lia).
    unfold running in Hoff. by rewrite Hbc in Hoff.
  - assert (bp = b1) as -> by congruence. apply Hconf. by left.
Qed.

(** ** No hook before [init] *)

#[local] Instance keeping_init_first_preorder :
  PreOrder (keeping_init_first (sample_t:=sample_t) (Stage:=Stage)).
Proof.
  split; [intros w H; exact H|]. intros w1 w2 w3 H12 H23 H. by apply H23, H12.
Qed.

Lemma init_first_log (w : world) es :
  (∀ e q, e ∈ es → uses e q → CallInit q ∈ trace w) →
  keeping_init_first w (logged w es).
Proof.
  intros Hes [Hrun Hord]. split; cbn [heap trace logged].
  - intros q b Hq Hon. apply elem_of_app. left. by eapply Hrun.
  - intros es1 e es2 q Heq Hu.
    apply app_eq_inv in Heq as [(k & Hw & Hk)|(k & -> & Hk)].
    + destruct k as [|e' k]; simpl in Hk.
      * rewrite app_nil_r in Hw. subst es1. apply (Hes e q); [|done].
        rewrite <- Hk. by left.
      * injection Hk; intros _ <-. by eapply Hord.
    + apply elem_of_app. left. apply (Hes e q); [|done].
      rewrite Hk, elem_of_app. right. by left.
Qed.

Lemma init_first_block p b b' (w : world) :
  heap w !! p = Some b →
  (isRunning b' = true → isRunning b = true ∨ CallInit p ∈ trace w) →
  keeping_init_first w (with_block p b' w).
Proof.
  intros Hb Hon [Hrun Hord]. split; [|done]. cbn [heap trace with_block].
  intros q bq Hq Hq'. destruct (decide (q = p)) as [->|Hne].
  - rewrite lookup_insert_eq in Hq. injection Hq; intros <-.
    destruct (Hon Hq') as [Hwas|Hin]; [by eapply Hrun|done].
  - rewrite lookup_insert_ne in Hq by done. by eapply Hrun.
Qed.

Lemma init_first_quiet (w : world) es :
  Forall (λ e, ∀ q, ¬ uses e q) es → keeping_init_first w (logged w es).
Proof.
  intros Hes. apply init_first_log. intros e q He Hu.
  rewrite Forall_forall in Hes. by destruct (Hes e He q).
Qed.

Ltac no_use :=
  repeat constructor; intros ? [?|[? ?]]; discriminate.

Lemma init_first_running p b (w : world) :
  heap w !! p = Some b → isRunning b = true → init_first w → CallInit p ∈ trace w.
Proof. intros Hb Hon [Hrun _]. by eapply Hrun. Qed.

Lemma start_self_init_first p : preserves keeping_init_first (start_self p).
Proof.
  intros w ok w1 Hrun.
  destruct (start_self_cases p w ok w1 Hrun)
    as (b & Hb & [(_ & _ & ->)|(_ & Hin & Hout & [(_ & _ & ->)|(_ & _ & ->)])]).
  - rewrite <- with_block_logged.
    etrans; [|apply (init_first_block p b); [done|intros Hon; by left]].
    apply init_first_quiet; no_use.
  - trans (logged w [Log DEBUG p StartingBlock; CallInit p]);
      [apply init_first_quiet; no_use|].
    trans (with_block p
             (set_stage (deinit_hook p (rated (initialised p b))) (rated (initialised p b)))
             (logged w [Log DEBUG p StartingBlock; CallInit p])).
    + apply (init_first_block p b); [done|]. intros Hon. left.
      cbn [isRunning set_stage] in Hon.
      destruct (rated_fields (initialised p b)) as (_ & _ & _ & _ & Hsame & _).
      by rewrite Hsame in Hon.
    + rewrite with_block_logged.
      change (logged (logged ?v [?a; ?b']) [?c; ?d]) with (logged v [a; b'; c; d]).
      rewrite <- (logged_logged _ [Log DEBUG p StartingBlock; CallInit p]
        [Log ERROR p NotIntegerRelated; CallDeinit p]).
      apply init_first_log. intros e q He Hu.
      apply elem_of_cons in He as [->|He]; [destruct Hu as [?|[? ?]]; discriminate|].
      apply list_elem_of_singleton in He as ->.
      destruct Hu as [[= <-]|[? [=]]]. cbn [trace logged with_block].
      apply elem_of_app. right. right. by left.
  - rewrite <- with_block_logged.
    etrans; [|apply (init_first_block p b); [done|]].
    + apply init_first_quiet; no_use.
    + intros _. right. cbn [trace logged]. apply elem_of_app. right. right. by left.
Qed.

Lemma stop_self_init_first p : preserves keeping_init_first (stop_self p).
Proof.
  intros w u w' Hrun. destruct (stop_self_cases p w u w' Hrun) as (b & Hb & ->).
  destruct (isRunning b) eqn:Hon.
  - intros Hw. pose proof (init_first_running p b w Hb Hon Hw) as Hinit.
    apply init_first_log; [|by apply (init_first_block p b); [|intros [=]|]].
    intros e q He Hu.
    apply elem_of_cons in He as [->|He]; [destruct Hu as [?|[? ?]]; discriminate|].
    apply list_elem_of_singleton in He as ->.
    by destruct Hu as [[= <-]|[? [=]]].
  - apply (init_first_block p b); [done|]. intros Hon'. left.
    cbn [isRunning set_buffer] in Hon'. congruence.
Qed.

Lemma run_self_init_first p inBuffer : preserves keeping_init_first (run_self p inBuffer).
Proof.
  intros w ok w1 Hrun.
  destruct (run_self_cases p inBuffer w ok w1 Hrun)
    as (b & Hb & [(_ & _ & ->)|(Hon & _ & _ & input & input' & b1 & _ & _ & Hb1
                                 & Hcfg & Hon1 & _ & ->)]);
    [apply init_first_quiet; no_use|].
  trans (resized p b input w).
  { unfold resized. destruct (decide (_ ≠ _)); [|reflexivity].
    etrans; [|apply init_first_quiet; no_use].
    apply (init_first_block p b); [done|]. intros _. by left. }
  intros Hw. pose proof (init_first_running p b1 _ Hb1 Hon1 Hw) as Hinit.
  apply init_first_log; [|by apply (init_first_block p b1); [|intros _; left|]].
  intros e q He Hu.
  apply elem_of_cons in He as [->|He].
  - by destruct Hu as [[=]|[? [= <- _]]].
  - destruct (process_ok _); [by apply elem_of_nil in He|].
    apply list_elem_of_singleton in He as ->. destruct Hu as [?|[? ?]]; discriminate.
Qed.

Lemma setSampleRate_init_first p rate : preserves keeping_init_first (setSampleRate p rate).
Proof.
  intros w u w' Hrun. destruct (setSampleRate_cases p rate w u w' Hrun) as (b & Hb & ->).
  destruct (isRunning b) eqn:Hoff; [reflexivity|].
  trans (with_block p (set_inputSampleRate rate b) w);
    [apply (init_first_block p b); [done|]; intros Hon; by left|].
  apply init_first_quiet; no_use.
Qed.

Lemma setChannels_init_first p channels :
  preserves keeping_init_first (setChannels p channels).
Proof.
  intros w u w' Hrun. destruct (setChannels_cases p channels w u w' Hrun) as (b & Hb & ->).
  destruct (isRunning b) eqn:Hoff; [reflexivity|].
  trans (with_block p (set_inputChannels channels b) w);
    [apply (init_first_block p b); [done|]; intros Hon; by left|].
  apply init_first_quiet; no_use.
Qed.

Lemma create_init_first p st : preserves keeping_init_first (create p st).
Proof.
  intros w u w'. unfold create, store. destruct (heap w !! p) eqn:Hp; [done|].
  intros Heq [Hrun Hord]. injection Heq; intros <- _. split; [|done].
  cbn [heap trace]. intros q bq Hq Hon. destruct (decide (q = p)) as [->|Hne].
  - rewrite lookup_insert_eq in Hq. by injection Hq; intros <-.
  - rewrite lookup_insert_ne in Hq by done. by eapply Hrun.
Qed.

Lemma free_init_first p :
  preserves (keeping_init_first (sample_t:=sample_t) (Stage:=Stage)) (free p).
Proof.
  intros w u w' Heq [Hrun Hord]. injection Heq; intros <- _. split; [|done].
  cbn [heap trace]. intros q bq Hq Hon.
  apply lookup_delete_Some in Hq as [_ Hq]. by eapply Hrun.
Qed.

Lemma consumers_init_first p (f : list ptr → list ptr) :
  preserves keeping_init_first
    (update p (λ b' : DspBlock, set_consumers (f (consumers b')) b')).
Proof.
  apply steps_update. intros w b Hb. apply (init_first_block p b); [done|].
  intros Hon. by left.
Qed.

Lemma perform_all_init_first fuel calls :
  preserves keeping_init_first (perform_all fuel calls).
Proof.
  apply perform_all_steps.
  - apply _.
  - intros w sev self msg. apply init_first_quiet; no_use.
  - apply stop_self_init_first.
  - apply start_self_init_first.
  - apply setSampleRate_init_first.
  - apply setChannels_init_first.
  - apply run_self_init_first.
  - apply create_init_first.
  - apply free_init_first.
  - apply consumers_init_first.
Qed.

(** X23: In every log the drivers produce from nothing, each [process] call and
    each [deinit] call on a block comes after an [init] call on that block:
    the base class never runs or releases a stage it has not initialised. *)
Theorem hooks_only_after_init fuel calls (w : world) es1 e es2 q :
  perform_all fuel calls (mkWorld ∅ []) = Done tt w →
  trace w = es1 ++ e :: es2 →
  e = CallDeinit q ∨ (∃ input, e = CallProcess q input) →
  CallInit q ∈ es1.
Proof.
  intros Hrun Ht Hu.
  destruct (perform_all_init_first fuel calls _ _ _ Hrun) as [_ Hord].
  - split.
    + intros x bx Hx. cbn [heap] in Hx. by rewrite lookup_empty in Hx.
    + intros l1 e' l2 x Heq. by apply app_cons_not_nil in Heq.
  - by eapply Hord.
Qed.


(** ** The block a consumer is handed *)

Lemma run_downstream_extends n p cs (v v' : world) r :
  run_downstream (run n) p cs v = Done r v' → ∃ es, trace v' = trace v ++ es.
Proof.
  intros Hrun.
  assert (aside cs p v v') as (_ & _ & es & Ht & _); [|by exists es].
  revert Hrun. apply steps_run_downstream; [apply _|]. intros c Hc.
  eapply preserves_weaken; [|apply run_aside]. intros v1 v2. by apply aside_single.
Qed.

Lemma resized_other p (b : DspBlock) input (w : world) x :
  x ≠ p → heap (resized p b input w) !! x = heap w !! x.
Proof.
  intros Hne. unfold resized. destruct (decide (_ ≠ _)); [|done].
  cbn [heap logged with_block]. by rewrite lookup_insert_ne.
Qed.

Lemma resized_trace p (b : DspBlock) input (w : world) :
  ∃ es, trace (resized p b input w) = trace w ++ es.
Proof.
  unfold resized. destruct (decide (_ ≠ _)); [by eexists|].
  exists []. by rewrite app_nil_r.
Qed.

(** A consumer run on the buffer of its producer [p] passes that very buffer
    to its [process] hook and leaves the producer alone. *)
Lemma run_consumer_reads rank n p c (v v' : world) bp :
  ranked rank (heap v) → heap v !! p = Some bp → (rank c < rank p)%nat →
  run n c (BufferOf p) v = Done true v' →
  heap v' !! p = Some bp
  ∧ (∃ bc, heap v !! c = Some bc ∧ inputChannels bc ≠ 0)
  ∧ ∃ es, trace v' = trace v ++ es ∧ CallProcess c (buffer bp) ∈ es.
Proof.
  intros Hr Hp Hlt Hrun.
  pose proof (run_effect rank n c (BufferOf p) v true v' Hrun) as [_ Hf].
  split. { rewrite (Hf Hr p); [done|]. split; [intros ->|]; lia. }
  destruct n as [|n]; [discriminate Hrun|]. rewrite run_S in Hrun.
  apply bind_Done in Hrun as (ok & v1 & Hself & Hrun).
  destruct ok; cbn [negb] in Hrun; [|by invert_M].
  apply bind_Done in Hrun as (b1 & ? & [Hb1 ->]%deref_Done & Hrun).
  destruct (run_self_cases c (BufferOf p) v true v1 Hself)
    as (bc & Hbc & [(_ & [=] & _)|(Hon & Hch & _ & input & input' & bc1 & _ & Hin'
                                    & _ & _ & _ & _ & Hv1)]).
  split; [by exists bc|].
  assert (input' = buffer bp) as ->.
  { simpl in Hin'. apply bind_Done in Hin' as (bp' & ? & [Hbp' ->]%deref_Done & Hret).
    rewrite resized_other in Hbp' by (intros ->; lia).
    assert (bp' = bp) as -> by congruence. by invert_M. }
  destruct (resized_trace c bc input v) as [es0 Ht0].
  destruct (run_downstream_extends n c (consumers b1) v1 v' true Hrun) as [es2 Ht2].
  eexists. split.
  - rewrite Ht2, Hv1. cbn [trace logged with_block]. rewrite Ht0.
    by rewrite <- !app_assoc.
  - rewrite !elem_of_app. right. left. by left.
Qed.

Section Frames.

(** The contract of [process] again: the output block keeps its size. *)
Hypothesis process_keeps_size : ∀ q (bq : DspBlock) input output,
  length (process_out (process_hook q bq input output)) = length output.

Lemma frames_line_up (b bc : DspBlock) input (buf : list sample_t) :
  N.of_nat (length buf) = wanted b input →
  inputChannels bc = outputChannels b → inputChannels bc ≠ 0 →
  outframes b input * outputChannels b < UINT_MODULUS →
  inframes bc buf = outframes b input.
Proof.
  intros Hlen Hsame Hch Hfit. unfold inframes. rewrite Hlen, Hsame.
  rewrite Hsame in Hch. unfold wanted, umul, wrap.
  rewrite (N.mod_small (_ * _)) by done. rewrite N.div_mul by done.
  apply N.mod_small. nia.
Qed.

(** X24: When [run] on an acyclic graph returns success, the [process] hook of
    every consumer of the block was called on the block's buffer as its own
    [process] left it, which holds the number of samples [run] sized it to.
    For a consumer whose input channel count is the block's output channel
    count, as [start] sets it, the consumer's input frame count is then the
    block's output frame count, provided the sample count fits 32 bits. *)
Theorem run_hands_frames_down rank n p input (w : world) b w' :
  ranked rank (heap w) →
  heap w !! p = Some b → isRunning b = true →
  inputChannels b ≠ 0 → decimation b ≠ 0 →
  run (S n) p (Extern input) w = Done true w' →
  ∃ es buf, trace w' = trace w ++ es
    ∧ buffer <$> heap w' !! p = Some buf
    ∧ N.of_nat (length buf) = wanted b input
    ∧ ∀ c bc, c ∈ consumers b → heap w !! c = Some bc →
        CallProcess c buf ∈ es
        ∧ (inputChannels bc = outputChannels b →
           outframes b input * outputChannels b < UINT_MODULUS →
           inframes bc buf = outframes b input).
Proof.
  intros Hr Hb Hon Hch Hdec Hrun. rewrite run_S in Hrun.
  apply bind_Done in Hrun as (ok & w1 & Hself & Hrun).
  destruct ok; cbn [negb] in Hrun; [|by invert_M].
  destruct (run_self_sized process_keeps_size p (Extern input) w b input true w1
    Hb Hon eq_refl Hch Hdec Hself) as (b1 & Hb1 & Hcfg & Hon1 & Hlen).
  pose proof (run_self_effect rank (λ x, x ≠ p) p (Extern input) (λ H, H eq_refl)
    _ _ _ Hself) as [He1 Hf1].
  destruct (run_self_aside p (Extern input) p _ _ _ Hself) as (_ & _ & es1 & Ht1 & _).
  apply bind_Done in Hrun as (b1' & ? & [Hb1' ->]%deref_Done & Hrun).
  assert (b1' = b1) as -> by congruence.
  assert (∀ cs (v v' : world),
    ranked rank (heap v) → heap v !! p = Some b1 →
    (∀ c, c ∈ cs → (rank c < rank p)%nat) →
    run_downstream (run n) p cs v = Done true v' →
    heap v' !! p = Some b1
    ∧ ∃ es, trace v' = trace v ++ es
        ∧ ∀ c, c ∈ cs →
            CallProcess c (buffer b1) ∈ es
            ∧ ∃ bc, heap v !! c = Some bc ∧ inputChannels bc ≠ 0) as Hloop.
  { clear. induction cs as [|c cs IH]; intros v v' Hr Hp Hlt Hrun; simpl in Hrun.
    - invert_M. split; [done|]. exists []. split; [by rewrite app_nil_r|].
      intros c Hc. by apply elem_of_nil in Hc.
    - apply bind_Done in Hrun as (ok & v2 & Hc & Hrun).
      destruct ok; cbn [negb] in Hrun; [|by invert_M].
      destruct (run_consumer_reads rank n p c v v2 b1 Hr Hp) as (Hp2 & Hbc & es2 & Ht2 & Hin);
        [apply Hlt; by left|done|].
      pose proof (run_evolves rank n c (BufferOf p) v true v2 Hc) as [He _].
      destruct (IH v2 v') as (Hp' & es' & Ht' & Hall); try done.
      + by eapply (evolves_ranked rank keeps_run keeps_run_consumers).
      + intros c' Hc'. apply Hlt. by right.
      + split; [done|]. exists (es2 ++ es'). split; [by rewrite Ht', Ht2, app_assoc|].
        intros c' [->|Hc']%elem_of_cons; rewrite elem_of_app.
        * split; [by left|done].
        * destruct (Hall c' Hc') as (Hin' & bc' & Hbc' & Hch').
          split; [by right|].
          destruct (evolves_lookup_inv _ _ _ _ _ He Hbc') as (bc0 & Hbc0 & Hcfg & _).
          exists bc0. split; [done|].
          unfold config in Hcfg. injection Hcfg; intros _ _ _ _ _ Hc0 _. congruence. }
  assert (ranked rank (heap w1)) as Hr1.
  { by eapply (evolves_ranked rank keeps_run keeps_run_consumers). }
  pose proof (config_consumers _ _ Hcfg) as Hcs.
  destruct (Hloop (consumers b1) w1 w' Hr1 Hb1) as (Hp' & es2 & Ht2 & Hall); [|done|].
  { intros c Hc. by eapply ranked_consumers. }
  exists (es1 ++ es2), (buffer b1). split; [by rewrite Ht2, Ht1, app_assoc|].
  split; [by rewrite Hp'|]. split; [done|].
  intros c bc Hc Hbc. rewrite <- Hcs in Hc.
  destruct (Hall c Hc) as (Hin & bc1 & Hbc1 & Hch1).
  assert (bc1 = bc) as ->.
  { rewrite (Hf1 Hr c) in Hbc1; [congruence|].
    intros ->. destruct (ranked_consumers rank _ p b1 p Hr1 Hb1 Hc). lia. }
  split; [rewrite elem_of_app; by right|].
  intros Hsame Hfit. by apply frames_line_up.
Qed.

End Frames.

End Facts.

(** * Concrete pipelines *)

Ltac decided := apply (bool_decide_unpack _); vm_compute; exact I.


Ltac downstream :=
  first
    [ apply reach_here
    | eapply reach_step;
      [ reflexivity
      | cbn; first [ left | right; left | right; right; left ]
      | downstream ] ].

Lemma start_failure_stops_subtree_witness :
  running (heap failing3_final) 0%nat = false
  ∧ running (heap failing3_final) 1%nat = false
  ∧ running (heap failing3_final) 2%nat = false.
Proof.
  destruct (start_failure_stops_subtree 2 0%nat failing3 failing3_self failing3_final)
    as [_ Hoff]; [vm_compute; reflexivity..|].
  repeat split; apply Hoff; downstream.
Defined.

Lemma start_computes_rates_witness :
  ∃ b', heap decimator_started !! 0%nat = Some b'
    ∧ decimation b' = 6 ∧ interpolation b' = 1.
Proof.
  destruct (start_computes_rates chain_rank 0 0%nat decimator
    (block [Accept (Some 8000) None] [])) as [_ Hrates];
    [decided|reflexivity|reflexivity|].
  destruct (Hrates true decimator_started) as (b' & Hb' & _ & Hdown & _);
    [by vm_compute|].
  exists b'. split; [done|]. by apply Hdown.
Defined.

(** The interpolating direction of C2, by evaluation. *)
Lemma start_interpolates_8000_to_48000 :
  (decimation <$> heap (final (start 1 0%nat interpolator)) !! 0%nat) = Some 1
  ∧ (interpolation <$> heap (final (start 1 0%nat interpolator)) !! 0%nat) = Some 6.
Proof. by vm_compute. Qed.

Lemma start_checks_integer_ratio_witness :
  ∃ w', start 1 0%nat mismatched = Done false w'
    ∧ running (heap w') 0%nat = false.
Proof.
  destruct (start_checks_integer_ratio 0 0%nat mismatched
    (set_inputSampleRate 44100 (block [Accept (Some 48000) None] [])))
    as (Hfail & _ & Hrates); [reflexivity|reflexivity|done|done|].
  destruct (Hfail (Hrates eq_refl eq_refl)) as [Hstart Hflag].
  eexists. split; [exact Hstart|]. by vm_compute.
Defined.

(** C3 as stated fails on the code: the source of [failing3] has an accepting
    [init] and equal rates, so its reconstruction succeeds, and [start] still
    returns failure, because its consumer does not start; and the restarted
    block of [retuned] fails the reconstruction while it stays running. *)
Lemma start_fails_with_integer_ratio :
  (init_ok (init_hook 0%nat (seeded (block [] [1%nat]))) = true
   ∧ reconstructed (rated (initialised 0%nat (block [] [1%nat])))
     = outputSampleRate (rated (initialised 0%nat (block [] [1%nat])))
   ∧ heap failing3 !! 0%nat = Some (block [] [1%nat])
   ∧ start 3 0%nat failing3 = Done false failing3_final)
  ∧ (start 1 0%nat retuned = Done true retuned_started
     ∧ start 1 0%nat retuned_started = Done false retuned_restarted
     ∧ (inputSampleRate <$> heap retuned_restarted !! 0%nat) = Some 44100
     ∧ (outputSampleRate <$> heap retuned_restarted !! 0%nat) = Some 48000
     ∧ running (heap retuned_restarted) 0%nat = true).
Proof. by vm_compute. Qed.

(** The reconstruction check is weaker than divisibility when decimating:
    48001 Hz to 8000 Hz passes it with decimation 6. *)
Lemma start_accepts_inexact_ratio :
  start 1 0%nat inexact
  = Done true
      (logged
        (with_block 0%nat
          (set_isRunning true
            (set_decimation 6
              (set_outputSampleRate 8000
                (set_stage (mkScript [] false)
                  (set_inputSampleRate 48001 (block [] []))))))
          inexact)
        [Log DEBUG 0%nat StartingBlock; CallInit 0%nat]).
Proof. by vm_compute. Qed.

Lemma connect_is_idempotent_and_duplicate_free_witness :
  connect 1 0%nat 1%nat wired
  = Done tt (logged wired [Log ERROR 0%nat (AlreadyConnected 1%nat)]).
Proof.
  destruct (connect_is_idempotent_and_duplicate_free 1 0%nat 1%nat wired
    (block [] [1%nat])) as (Hidle & _); [reflexivity|].
  apply Hidle; [by left|reflexivity].
Defined.

(** C4 as stated fails on the code: in the running chain [relay_started]
    block 1 is a consumer of block 0, and connecting it once more is no
    no-op: the target is started again, its sink rejects the second [init],
    and blocks 1 and 2 end stopped.  The consumer list is unchanged. *)
Lemma connect_present_restarts_target :
  running (heap relay_started) 0%nat = true
  ∧ (consumers <$> heap relay_started !! 0%nat) = Some [1%nat]
  ∧ running (heap relay_started) 1%nat = true
  ∧ running (heap relay_started) 2%nat = true
  ∧ connect 3 0%nat 1%nat relay_started = Done tt relay_reconnected
  ∧ (consumers <$> heap relay_reconnected !! 0%nat) = Some [1%nat]
  ∧ running (heap relay_reconnected) 1%nat = false
  ∧ running (heap relay_reconnected) 2%nat = false.
Proof. by vm_compute. Qed.

Lemma run_feeds_consumers_in_order_witness :
  fed 1 0%nat [7; 8; 9] [1%nat; 2%nat] fanout_processed false fanout_ran.
Proof.
  apply (proj1 (run_feeds_consumers_in_order chain_rank 1 0%nat (Extern [7; 8; 9])
    fanout_started fanout_processed
    (set_buffer [7; 8; 9] (set_isRunning true (block [] [1%nat; 2%nat])))
    false fanout_ran ltac:(decided) ltac:(by vm_compute) ltac:(by vm_compute)));
    by vm_compute.
Defined.

(** In [fanout] the second sink never sees the block: the log of the run
    holds the [process] calls of the source and of the broken first sink
    only, in that order. *)
Lemma run_stops_at_first_failing_consumer :
  trace fanout_ran =
  trace fanout_started ++
  [Log DEBUG 0%nat (ResizingBuffer 3 1); CallProcess 0%nat [7; 8; 9];
   Log DEBUG 1%nat (ResizingBuffer 3 1); CallProcess 1%nat [7; 8; 9];
   Log ERROR 1%nat PipelineFailed].
Proof. by vm_compute. Qed.

Lemma scripted_keeps_size q (bq : DspBlock N script) input output :
  length (process_out (process_hook q bq input output)) = length output.
Proof. simpl. apply length_resize. Qed.


(** The second block of the same size goes through the chain without any
    resize: the log grows by the three [process] calls only. *)
Lemma run_again_does_not_resize :
  run 3 0%nat (Extern [5; 6; 7; 8]) chain3_ran = Done true chain3_ran_again
  ∧ trace chain3_ran_again =
    trace chain3_ran ++
    [CallProcess 0%nat [5; 6; 7; 8]; CallProcess 1%nat [5; 6; 7; 8];
     CallProcess 2%nat [5; 6; 7; 8]].
Proof. by vm_compute. Qed.


Lemma run_rejected_when_stopped_witness :
  run 1 0%nat (Extern [1; 2]) chain3
  = Done false (logged chain3 [Log ERROR 0%nat PipelineNotStarted]).
Proof.
  apply (run_rejected_when_stopped 0 0%nat (Extern [1; 2]) chain3 (block [] [1%nat]));
    reflexivity.
Defined.

Lemma connect_starts_target_unconfigured_witness :
  (outputSampleRate <$> heap loose_connected !! 0%nat) = Some 8000
  ∧ ∃ bt', heap loose_connected !! 1%nat = Some bt'
      ∧ inputSampleRate bt' = 48000 ∧ inputChannels bt' = 1.
Proof.
  split; [by vm_compute|].
  destruct (proj1 (connect_starts_target_unconfigured chain_rank 1 0%nat 1%nat
    loose_started
    (set_isRunning true (set_decimation 6 (set_outputSampleRate 8000
      (block [] []))))
    (block [] []) ltac:(decided) ltac:(by vm_compute) eq_refl ltac:(by vm_compute)
    loose_connected) ltac:(by vm_compute)) as (_ & _ & _ & _ & _ & _ & Hkept).
  exact Hkept.
Defined.

Lemma divisions_defined_iff_positive_witness :
  (∃ ok w1, start_self 2%nat chain3 = Done ok w1)
  ∧ (∃ ok w2,
       run_self 2%nat (Extern [1; 2]) (final (start_self 2%nat chain3)) = Done ok w2).
Proof.
  destruct (divisions_defined_iff_positive 2%nat chain3 (block [] []))
    as (Hstart & _ & Hrun); [reflexivity|reflexivity|].
  split.
  - apply Hstart. by vm_compute.
  - apply (Hrun (final (start_self 2%nat chain3)) [1; 2]); by vm_compute.
Defined.

(** * The further properties on concrete pipelines *)

Lemma stopped_block_holds_no_buffer_witness :
  ∃ b, heap session_stopped !! 1%nat = Some b ∧ buffer b = [].
Proof.
  eexists. split; [reflexivity|].
  eapply (stopped_block_holds_no_buffer 2 (session ++ [Stop 0%nat]) session_stopped 1%nat);
    [by vm_compute|reflexivity|reflexivity].
Defined.

Lemma rate_factors_never_zero_witness :
  ∃ b, heap session_world !! 0%nat = Some b
    ∧ decimation b ≠ 0 ∧ interpolation b ≠ 0
    ∧ ∃ ok w1, run_self 0%nat (Extern [5; 6]) session_world = Done ok w1.
Proof.
  eexists. split; [reflexivity|].
  destruct (rate_factors_never_zero 2 session session_world 0%nat _
    ltac:(by vm_compute) eq_refl) as (Hd & Hi & _ & Hrun).
  split; [exact Hd|]. split; [exact Hi|].
  by apply (Hrun eq_refl [5; 6]).
Defined.

Lemma chain3_not_upstream : ¬ reach (heap chain3_started) 1%nat 0%nat.
Proof.
  intros Hreach. apply (reach_rank chain_rank) in Hreach; [|decided].
  vm_compute in Hreach. lia.
Qed.

Lemma stop_touches_only_downstream_witness :
  heap chain3_tail_stopped !! 0%nat = heap chain3_started !! 0%nat.
Proof.
  destruct (stop_touches_only_downstream 2 1%nat chain3_started tt chain3_tail_stopped)
    as [Hframe _]; [by vm_compute|].
  apply Hframe, chain3_not_upstream.
Defined.

Lemma start_touches_only_downstream_witness :
  heap chain3_tail_started !! 0%nat = heap chain3 !! 0%nat.
Proof.
  destruct (start_touches_only_downstream 2 1%nat chain3 true chain3_tail_started)
    as [Hframe _]; [by vm_compute|].
  apply Hframe. intros Hreach. apply (reach_rank chain_rank) in Hreach; [|decided].
  vm_compute in Hreach. lia.
Defined.

Lemma run_touches_only_downstream_witness :
  heap chain3_tail_ran !! 0%nat = heap chain3_started !! 0%nat.
Proof.
  destruct (run_touches_only_downstream 2 1%nat (Extern [1; 2]) chain3_started true
    chain3_tail_ran) as [Hframe _]; [by vm_compute|].
  apply Hframe, chain3_not_upstream.
Defined.

Lemma start_success_runs_subtree_witness :
  ∃ b, heap chain3_started !! 2%nat = Some b
    ∧ isRunning b = true ∧ decimation b ≠ 0
    ∧ reconstructed b = outputSampleRate b.
Proof.
  destruct (start_success_runs_subtree 3 0%nat chain3 chain3_started 2%nat)
    as (b & Hb & Hon & _ & _ & _ & Hd & _ & Hrec); [by vm_compute|downstream|].
  by exists b.
Defined.

Lemma start_success_initialises_all_witness :
  ∃ es, trace chain3_started = trace chain3 ++ es ∧ CallInit 2%nat ∈ es.
Proof.
  destruct (start_success_initialises_all 3 0%nat chain3 chain3_started)
    as (es & Ht & Hall & _); [by vm_compute|].
  exists es. split; [exact Ht|]. apply Hall. downstream.
Defined.

Lemma setters_ignored_after_start_witness :
  setSampleRate 2%nat 8000 chain3_started = Done tt chain3_started
  ∧ setChannels 2%nat 2 chain3_started = Done tt chain3_started.
Proof.
  apply (setters_ignored_after_start 3 0%nat chain3 chain3_started 2%nat 8000 2);
    [by vm_compute|downstream].
Defined.

Lemma run_success_means_all_running_witness :
  running (heap chain3_started) 2%nat = true
  ∧ ∃ es input, trace chain3_ran = trace chain3_started ++ es
      ∧ CallProcess 2%nat input ∈ es.
Proof.
  destruct (run_success_means_all_running 3 0%nat (Extern [1; 2; 3; 4])
    chain3_started chain3_ran) as (es & Ht & Hall); [by vm_compute|].
  destruct (Hall 2%nat) as [Hon [input Hin]]; [downstream|].
  split; [exact Hon|]. by exists es, input.
Defined.

Lemma stop_deinits_running_blocks_once_witness :
  ∃ es, trace chain3_stopped = trace chain3_started ++ es
    ∧ NoDup (deinits es) ∧ CallDeinit (sample_t:=N) 2%nat ∈ es.
Proof.
  destruct (stop_deinits_running_blocks_once 3 0%nat chain3_started tt chain3_stopped)
    as (es & Ht & Hnd & Hiff & _); [by vm_compute|].
  exists es. split; [exact Ht|]. split; [exact Hnd|].
  apply Hiff. split; [downstream|reflexivity].
Defined.

Lemma stop_deinits_consumers_first_witness :
  ∃ es, trace chain3_stopped = trace chain3_started ++ es
    ∧ CallDeinit (sample_t:=N) 2%nat
      ∉ [Log DEBUG 0%nat StoppingBlock; CallDeinit 0%nat].
Proof.
  destruct (stop_deinits_consumers_first 3 0%nat chain3_started tt chain3_stopped)
    as (es & Ht & Hord); [by vm_compute|].
  exists es. split; [exact Ht|].
  apply (Hord [Log DEBUG 2%nat StoppingBlock; CallDeinit 2%nat; Log DEBUG 1%nat StoppingBlock]
    1%nat _ (set_isRunning true (block [] [2%nat])) 2%nat); [|reflexivity|by left].
  apply (app_inv_head (trace chain3_started)). by rewrite <- Ht.
Defined.

Lemma disconnect_detaches_and_stops_witness :
  (∃ b', heap chain3_cut !! 0%nat = Some b' ∧ 1%nat ∉ consumers b')
  ∧ released (heap chain3_cut) 2%nat.
Proof.
  destruct (disconnect_detaches_and_stops 3 0%nat 1%nat chain3_started
    (set_isRunning true (block [] [1%nat])) tt chain3_cut)
    as ((b' & Hb' & _ & Hout) & _ & _ & Hrel); [reflexivity|by vm_compute|].
  split; [by exists b'|]. apply Hrel; [reflexivity|downstream].
Defined.

Lemma connect_disconnect_round_trip_witness :
  (connect 1 0%nat 1%nat;; disconnect 1 0%nat 1%nat) loose
  = Done tt
      (logged loose
        [Log DEBUG 0%nat (AddedConsumer 1%nat); Log DEBUG 0%nat (RemovedConsumer 1%nat)]).
Proof.
  destruct (connect_disconnect_round_trip 1 0%nat 1%nat loose
    (block [Accept (Some 8000) None] [])) as [Hback _];
    [reflexivity|apply not_elem_of_nil|].
  by apply Hback.
Defined.

Lemma start_accepts_integer_ratios_witness :
  ∃ w1, start_self 0%nat decimator = Done true w1.
Proof.
  destruct (start_accepts_integer_ratios 0%nat decimator
    (block [Accept (Some 8000) None] [])) as (Hdown & _);
    [reflexivity|reflexivity|by vm_compute..|].
  apply Hdown; [by vm_compute|]. exists 6. by vm_compute.
Defined.

Lemma run_stops_at_failing_process_witness :
  ∃ w', run 1 1%nat (Extern [7; 8; 9]) fanout_started = Done false w'
    ∧ heap w' !! 2%nat = heap fanout_started !! 2%nat.
Proof.
  destruct (run_stops_at_failing_process 0 1%nat [7; 8; 9] fanout_started
    (set_isRunning true (set_stage (mkScript [] true) (block [] []))))
    as [Hrun Hframe]; [reflexivity|reflexivity|done|done|reflexivity|].
  eexists. split; [exact Hrun|]. by apply Hframe.
Defined.



Lemma start_init_failure_witness :
  start 2 1%nat failing3
  = Done false
      (logged (with_block 1%nat (initialised 1%nat (block [Reject] [2%nat])) failing3)
        [Log DEBUG 1%nat StartingBlock; CallInit 1%nat;
         Log ERROR 1%nat FailedToInitialise]).
Proof.
  destruct (start_init_failure 1 1%nat failing3 (block [Reject] [2%nat]))
    as [Hfail _]; [reflexivity|reflexivity|].
  exact Hfail.
Defined.

Lemma connect_appends_in_order_witness :
  ∃ w', for_each [1%nat; 2%nat] (connect 1 0%nat) parts = Done tt w'
    ∧ (consumers <$> heap w' !! 0%nat) = Some [1%nat; 2%nat].
Proof.
  destruct (connect_appends_in_order 1 0%nat [1%nat; 2%nat] parts (block [] []))
    as (w' & Hrun & Hheap & _);
    [reflexivity|reflexivity|decided|intros t _; apply not_elem_of_nil|].
  exists w'. split; [exact Hrun|]. by rewrite Hheap.
Defined.

Lemma run_short_input_empties_buffer_witness :
  ∃ ok w1, run_self 0%nat (Extern []) chain3_ran = Done ok w1
    ∧ wanted (set_buffer [1; 2; 3; 4] (set_isRunning true (block [] [1%nat]))) [] = 0.
Proof.
  destruct (run_short_input_empties_buffer 0%nat [] chain3_ran
    (set_buffer [1; 2; 3; 4] (set_isRunning true (block [] [1%nat]))))
    as (_ & _ & Hwant & _ & Hrun); [reflexivity|reflexivity|done|done|by vm_compute|].
  eexists _, _. split; [exact Hrun|exact Hwant].
Defined.

Lemma start_configures_consumers_witness :
  ∃ bc, heap tuned_started !! 1%nat = Some bc
    ∧ inputSampleRate bc = 8000 ∧ inputChannels bc = 2.
Proof.
  destruct (start_configures_consumers chain_rank 1 0%nat tuned tuned_started
    (set_isRunning true (set_decimation 6 (set_outputChannels 2
      (set_outputSampleRate 8000 (block [] [1%nat]))))) 1%nat)
    as (bc & Hbc & _ & Hrate & Hch);
    [decided|by vm_compute|by vm_compute|by left|reflexivity| |].
  - intros c' ->%list_elem_of_singleton Hne. done.
  - by exists bc.
Defined.

Lemma hooks_only_after_init_witness :
  CallInit 1%nat ∈ take 10 (trace session_world).
Proof.
  apply (hooks_only_after_init 2 session session_world
    (take 10 (trace session_world)) (CallProcess 1%nat [1; 2; 3; 4])
    (drop 11 (trace session_world)) 1%nat);
    [by vm_compute|reflexivity|right; by eexists].
Defined.

Lemma start_keeps_running_inputs_witness :
  (outputSampleRate <$> heap shifting_restarted !! 0%nat) = Some 8000
  ∧ ∃ b', heap shifting_restarted !! 1%nat = Some b'
      ∧ isRunning b' = true ∧ inputSampleRate b' = 48000.
Proof.
  split; [by vm_compute|].
  destruct (start_keeps_running_inputs 2 0%nat shifting_started shifting_restarted
    1%nat (set_isRunning true (block [] [])))
    as (b' & Hb' & Hon & Hrate & _); [by vm_compute|by vm_compute|reflexivity|].
  by exists b'.
Defined.

Lemma run_hands_frames_down_witness :
  ∃ es buf, trace chain3_ran = trace chain3_started ++ es
    ∧ N.of_nat (length buf) = 4
    ∧ CallProcess 1%nat buf ∈ es
    ∧ inframes (set_isRunning true (block [] [2%nat] : DspBlock N script)) buf = 4.
Proof.
  destruct (run_hands_frames_down scripted_keeps_size chain_rank 2 0%nat
    [1; 2; 3; 4] chain3_started (set_isRunning true (block [] [1%nat])) chain3_ran)
    as (es & buf & Ht & _ & Hlen & Hall);
    [decided|reflexivity|reflexivity|done|done|by vm_compute|].
  destruct (Hall 1%nat (set_isRunning true (block [] [2%nat]))) as [Hin Hfr];
    [by left|reflexivity|].
  exists es, buf. split; [exact Ht|]. split; [exact Hlen|]. split; [exact Hin|].
  rewrite Hfr; [reflexivity|reflexivity|by vm_compute].
Defined.
